(** * tailscale-local-api: a shallow embedding of the LocalAPI client

    The development follows the two TypeScript sources of the package:
    [util.ts] (word tokenizer, camelCase conversion of keys) and the client
    class [TailscaleLocalApi] (environment detection, credential discovery,
    request dispatch, start-up probe, address-range test, endpoints).

    JavaScript strings are sequences of UTF-16 code units and are modelled
    as [list N].  Built-ins of the platform whose tables are not part of the
    package ([String.prototype.toLowerCase], [toUpperCase],
    [encodeURIComponent]) are parameters of the sections that use them; a
    concrete instance covering Basic Latin and Latin-1 is given for
    evaluation on examples.  The process, the file system and the daemon are
    inputs of the model ([Host], [Network]); the part of the platform's
    [net.BlockList] that the client calls is modelled in [Net]. *)

From Stdlib Require Import String Ascii Numbers.DecimalString.
From Stdlib Require Import NArith ZArith QArith Qround Bool Lia List Sorted.
Import ListNotations.

Local Close Scope Q_scope.
Local Open Scope bool_scope.
Local Open Scope N_scope.

(* ------------------------------------------------------------------ *)
(** ** JavaScript strings *)

Module JsString.

Definition jsstring := list N.

(** An ASCII literal as a JavaScript string. *)
Definition js (s : string) : jsstring :=
  map N_of_ascii (list_ascii_of_string s).

Fixpoint streq (a b : jsstring) : bool :=
  match a, b with
  | [], [] => true
  | x :: a', y :: b' => (x =? y) && streq a' b'
  | _, _ => false
  end.

Definition inRange (lo hi c : N) : bool := (lo <=? c) && (c <=? hi).

(** Character classes of the regular expressions of the sources:
    [[a-z]], [[A-Z]] and [\d] (which is [[0-9]], also under the [u] flag). *)
Definition isLowerAZ (c : N) : bool := inRange 97 122 c.
Definition isUpperAZ (c : N) : bool := inRange 65 90 c.
Definition isDigit (c : N) : bool := inRange 48 57 c.

Definition isHighSurrogate (c : N) : bool := inRange 0xD800 0xDBFF c.
Definition isLowSurrogate (c : N) : bool := inRange 0xDC00 0xDFFF c.

(** [for (const character of data)]: the string iterator yields code points,
    a surrogate pair being one two-unit string. *)
Fixpoint codePoints (s : jsstring) : list jsstring :=
  match s with
  | [] => []
  | h :: t =>
      match t with
      | l :: rest =>
          if isHighSurrogate h && isLowSurrogate l
          then [h; l] :: codePoints rest
          else [h] :: codePoints t
      | [] => [[h]]
      end
  end.

(** [s.slice(-1)], [s.slice(0, -1)], [s.slice(1)] and [s[0]]. *)
Definition sliceLast (s : jsstring) : jsstring :=
  match rev s with
  | [] => []
  | c :: _ => [c]
  end.

Definition sliceInit (s : jsstring) : jsstring := removelast s.

Definition sliceFrom1 (s : jsstring) : jsstring := tl s.

Definition charAt0 (s : jsstring) : option jsstring :=
  match s with
  | [] => None
  | c :: _ => Some [c]
  end.

(** [re.test(s)] for an unanchored one-character class. *)
Definition testClass (cls : N -> bool) (s : jsstring) : bool := existsb cls s.

(** [re.test(s)] for a class anchored at the end of the input ([[...]$]). *)
Definition testClassEnd (cls : N -> bool) (s : jsstring) : bool :=
  match rev s with
  | c :: _ => cls c
  | [] => false
  end.

(** [/[A-Z][A-Z]$/.test(s)]. *)
Definition testClass2End (cls : N -> bool) (s : jsstring) : bool :=
  match rev s with
  | c2 :: c1 :: _ => cls c1 && cls c2
  | _ => false
  end.

Fixpoint startsWith (s p : jsstring) : bool :=
  match p, s with
  | [], _ => true
  | y :: p', x :: s' => (x =? y) && startsWith s' p'
  | _ :: _, [] => false
  end.

Fixpoint splitBy_aux (sep : N -> bool) (s cur : jsstring) : list jsstring :=
  match s with
  | [] => [rev cur]
  | c :: s' =>
      if sep c then rev cur :: splitBy_aux sep s' []
      else splitBy_aux sep s' (c :: cur)
  end.

(** [s.split(sep)] for a separator that is one code unit of a class. *)
Definition splitBy (sep : N -> bool) (s : jsstring) : list jsstring :=
  splitBy_aux sep s [].

(** [s.includes(p)]. *)
Fixpoint includes (s p : jsstring) : bool :=
  startsWith s p ||
  match s with
  | [] => false
  | _ :: s' => includes s' p
  end.

End JsString.

Import JsString.

(* ------------------------------------------------------------------ *)
(** ** util.ts *)

Module Util.

Definition WHITESPACE : list N :=
  [ 0x9; 0xA; 0xB; 0xC; 0xD; 0x20; 0x85; 0xA0; 0x1680;
    0x2000; 0x2001; 0x2002; 0x2003; 0x2004; 0x2005; 0x2006; 0x2007;
    0x2008; 0x2009; 0x200A; 0x2028; 0x2029; 0x202F; 0x205F; 0x3000;
    0xFEFF ].

(** [new Set(["-", "_", ...WHITESPACE])]: a set of one-unit strings. *)
Definition WORD_SEPARATORS : list jsstring :=
  map (fun c => [c]) (0x2D :: 0x5F :: WHITESPACE).

Definition isSeparator (character : jsstring) : bool :=
  existsb (streq character) WORD_SEPARATORS.

(** The two mutable locals of [words]. *)
Record wstate := { results : list jsstring; word : jsstring }.

Definition flush (st : wstate) : wstate :=
  if (0 <? length (word st))%nat
  then {| results := results st ++ [word st]; word := [] |}
  else st.

(** The three transition tests of the loop body, in the order of the
    [if / else if / else if] chain. *)
Definition lowerToUpper (w character : jsstring) : bool :=
  testClassEnd isLowerAZ w && testClass isUpperAZ character.

Definition upperRunToLower (w character : jsstring) : bool :=
  testClass2End isUpperAZ w && testClass isLowerAZ character.

Definition digitBoundary (w character : jsstring) : bool :=
  negb (Bool.eqb (testClassEnd isDigit w) (testClass isDigit character)).

(** One iteration of the [for ... of] loop. *)
Definition step (st : wstate) (character : jsstring) : wstate :=
  if isSeparator character then flush st
  else
    let st' :=
      if lowerToUpper (word st) character then flush st
      else if upperRunToLower (word st) character then
        let lastCharacter := sliceLast (word st) in
        let st1 := flush {| results := results st; word := sliceInit (word st) |} in
        {| results := results st1; word := lastCharacter |}
      else if digitBoundary (word st) character then flush st
      else st in
    {| results := results st'; word := word st' ++ character |}.

Definition words (data : jsstring) : list jsstring :=
  results (flush (fold_left step (codePoints data) {| results := []; word := [] |})).

(** [words(...).map((word, index) => ...)]: map with the index. *)
Fixpoint mapi_from {A B : Type} (f : A -> nat -> B) (i : nat) (l : list A) : list B :=
  match l with
  | [] => []
  | x :: l' => f x i :: mapi_from f (S i) l'
  end.

Definition mapi {A B : Type} (f : A -> nat -> B) (l : list A) : list B :=
  mapi_from f 0%nat l.

Definition LOWER_CASE_CHARACTER_RE_test (data : jsstring) : bool :=
  testClass isLowerAZ data.

Section CaseMapping.

(** [String.prototype.toLowerCase] and [String.prototype.toUpperCase]. *)
Variables toLowerCase toUpperCase : jsstring -> jsstring.

(** The callback of [.map]: [word[0]?.toLowerCase()] for the first word,
    [word[0]?.toUpperCase()] for the others, the empty string when there is
    none, then [word.slice(1)]. *)
Definition recase (w : jsstring) (index : nat) : jsstring :=
  match (if (index =? 0)%nat
         then option_map toLowerCase (charAt0 w)
         else option_map toUpperCase (charAt0 w)) with
  | Some c => c
  | None => []
  end ++ sliceFrom1 w.

Definition toCamelCase (data : jsstring) : jsstring :=
  concat (mapi recase
            (words (if LOWER_CASE_CHARACTER_RE_test data
                    then data
                    else toLowerCase data))).

End CaseMapping.

(** *** JSON values and objects *)

(** A JavaScript number: a finite value, or one of the three special values.
    The two zeros are not told apart. *)
Inductive number :=
| Finite (q : Q)
| NaN
| PosInfinity
| NegInfinity.

(** Decimal numeral of a natural number, as [String(n)] prints it. *)
Definition decimal (n : N) : jsstring :=
  js (NilZero.string_of_uint (N.to_uint n)).

Definition parseDigits (s : jsstring) : N :=
  fold_left (fun acc c => 10 * acc + (c - 48)) s 0.

(** An array index is a canonical numeric string denoting an integer
    below 2^32 - 1; such keys are enumerated first, in ascending order. *)
Definition arrayIndex (k : jsstring) : option N :=
  let n := parseDigits k in
  if forallb isDigit k && streq (decimal n) k && (n <? 2 ^ 32 - 1)
  then Some n
  else None.

Section Objects.

Context {V : Type}.

(** An ordinary object, as the list of its own enumerable string-keyed
    properties in enumeration order ([Object.entries]): array indices in
    ascending order, then the other keys in creation order. *)
Definition object := list (jsstring * V).

Fixpoint hasOwn (o : object) (k : jsstring) : bool :=
  match o with
  | [] => false
  | (k', _) :: o' => streq k' k || hasOwn o' k
  end.

Fixpoint replaceProp (o : object) (k : jsstring) (v : V) : object :=
  match o with
  | [] => []
  | (k', v') :: o' =>
      if streq k' k then (k', v) :: o' else (k', v') :: replaceProp o' k v
  end.

Fixpoint insertIndex (o : object) (n : N) (k : jsstring) (v : V) : object :=
  match o with
  | [] => [(k, v)]
  | (k', v') :: o' =>
      match arrayIndex k' with
      | Some m => if m <? n then (k', v') :: insertIndex o' n k v
                  else (k, v) :: o
      | None => (k, v) :: o
      end
  end.

(** [o[k] = v] on an ordinary object without setters for [k]. *)
Definition setProp (o : object) (k : jsstring) (v : V) : object :=
  if hasOwn o k then replaceProp o k v
  else match arrayIndex k with
       | Some n => insertIndex o n k v
       | None => o ++ [(k, v)]
       end.

(** [k1] is enumerated before [k2]. *)
Definition keyBefore (k1 k2 : jsstring) : Prop :=
  k1 <> k2 /\
  match arrayIndex k1, arrayIndex k2 with
  | Some a, Some b => a < b
  | Some _, None => True
  | None, Some _ => False
  | None, None => True
  end.

(** The keys of an object are distinct and in enumeration order. *)
Definition canonical (o : object) : Prop :=
  StronglySorted keyBefore (map fst o).

End Objects.

Unset Elimination Schemes.

Inductive json :=
| JNull
| JBool (b : bool)
| JNumber (n : number)
| JString (s : jsstring)
| JArray (items : list json)
| JObject (entries : list (jsstring * json)).

Set Elimination Schemes.

(** Induction on JSON values, through the arrays and the objects. *)
Section JsonInduction.

Variable P : json -> Prop.
Hypothesis Hnull : P JNull.
Hypothesis Hbool : forall b, P (JBool b).
Hypothesis Hnumber : forall n, P (JNumber n).
Hypothesis Hstring : forall s, P (JString s).
Hypothesis Harray : forall items, Forall P items -> P (JArray items).
Hypothesis Hobject :
  forall entries, Forall (fun kv => P (snd kv)) entries -> P (JObject entries).

Fixpoint json_ind (x : json) : P x :=
  match x with
  | JNull => Hnull
  | JBool b => Hbool b
  | JNumber n => Hnumber n
  | JString s => Hstring s
  | JArray items =>
      Harray items
        ((fix all (l : list json) : Forall P l :=
            match l with
            | [] => Forall_nil P
            | i :: l' => Forall_cons i (json_ind i) (all l')
            end) items)
  | JObject entries =>
      Hobject entries
        ((fix all (l : list (jsstring * json))
            : Forall (fun kv => P (snd kv)) l :=
            match l with
            | [] => Forall_nil _
            | kv :: l' => Forall_cons kv (json_ind (snd kv)) (all l')
            end) entries)
  end.

End JsonInduction.

(** The loop of [toCamelCaseKeys] over the entries of an object, for any
    conversion of the keys and of the values. *)
Definition rebuild {W V : Type} (f : jsstring -> jsstring) (g : W -> V)
  (entries : list (jsstring * W)) (acc : @object V) : @object V :=
  fold_left (fun result '(key, value) => setProp result (f key) (g value))
            entries acc.

Section CamelCaseKeys.

Variables toLowerCase toUpperCase : jsstring -> jsstring.

Fixpoint toCamelCaseKeys (data : json) : json :=
  match data with
  | JArray items => JArray (map toCamelCaseKeys items)
  | JObject entries =>
      JObject
        (fold_left
           (fun result '(key, value) =>
              let camelKey := toCamelCase toLowerCase toUpperCase key in
              setProp result camelKey (toCamelCaseKeys value))
           entries [])
  | _ => data
  end.

End CamelCaseKeys.

(** A key is stable when converting it a second time changes nothing; a
    JSON value has stable keys when every key of every object in it is. *)
Definition stableKey (toLowerCase toUpperCase : jsstring -> jsstring)
  (k : jsstring) : bool :=
  let cc := toCamelCase toLowerCase toUpperCase in
  streq (cc (cc k)) (cc k).

Fixpoint stableKeys (toLowerCase toUpperCase : jsstring -> jsstring)
  (x : json) : bool :=
  match x with
  | JArray items => forallb (stableKeys toLowerCase toUpperCase) items
  | JObject entries =>
      forallb (fun '(k, v) =>
                 stableKey toLowerCase toUpperCase k
                 && stableKeys toLowerCase toUpperCase v) entries
  | _ => true
  end.

(** *** Notions for the statements about ASCII keys *)

Definition isLetterAZ (c : N) : bool := isLowerAZ c || isUpperAZ c.

(** An ASCII unit that is not a word separator. *)
Definition wordUnit (c : N) : Prop := c < 128 /\ isSeparator [c] = false.

Definition notSeparator (c : N) : bool := negb (isSeparator [c]).

(** The first unit of the key that is not a separator, if there is one, is
    a letter. *)
Fixpoint letterInitial (k : jsstring) : bool :=
  match k with
  | [] => true
  | c :: k' => if isSeparator [c] then letterInitial k' else isLetterAZ c
  end.

Definition asciiKey (k : jsstring) : bool := forallb (fun c => c <? 128) k.

(** No lower-case letter directly follows a digit, [prevDigit] telling
    whether the unit before the string is a digit. *)
Fixpoint noLowerAfterDigit (prevDigit : bool) (s : jsstring) : Prop :=
  match s with
  | [] => True
  | c :: s' =>
      (prevDigit = true -> isLowerAZ c = false) /\ noLowerAfterDigit (isDigit c) s'
  end.

(** The units of a word are all digits or all other units. *)
Definition uniform (w : jsstring) : Prop :=
  Forall (fun c => isDigit c = isDigit (hd 0 w)) w.

(** A word of the tokenizer on ASCII input. *)
Definition asciiWord (w : jsstring) : Prop :=
  w <> [] /\ Forall wordUnit w /\ uniform w.

(** Every key of the value, at every depth, is an ASCII key whose first
    unit after the leading separators is a letter. *)
Fixpoint letterKeys (x : json) : bool :=
  match x with
  | JArray items => forallb letterKeys items
  | JObject entries =>
      forallb (fun '(k, v) => asciiKey k && letterInitial k && letterKeys v)
              entries
  | _ => true
  end.

(** The case mappings of one ASCII unit. *)
Definition lowerAZ (c : N) : N := if isUpperAZ c then c + 32 else c.
Definition upperAZ (c : N) : N := if isLowerAZ c then c - 32 else c.

(** The case mappings of the platform agree with [lowerAZ] and [upperAZ] on
    ASCII. *)
Definition asciiCaseMapping (toLowerCase toUpperCase : jsstring -> jsstring)
  : Prop :=
  (forall s, Forall (fun c => c < 128) s -> toLowerCase s = map lowerAZ s) /\
  (forall c, c < 128 -> toUpperCase [c] = [upperAZ c]).

(** *** The case mappings on Basic Latin and Latin-1

    Exact on strings whose code units are below U+0100; other code units are
    left unchanged. *)
Definition lowerUnit (c : N) : N :=
  if isUpperAZ c then c + 32
  else if inRange 0xC0 0xDE c && negb (c =? 0xD7) then c + 32
  else c.

Definition upperUnit (c : N) : jsstring :=
  if isLowerAZ c then [c - 32]
  else if inRange 0xE0 0xFE c && negb (c =? 0xF7) then [c - 32]
  else if c =? 0xDF then [83; 83]
  else if c =? 0xFF then [0x178]
  else if c =? 0xB5 then [0x39C]
  else [c].

Definition latin1ToLowerCase (s : jsstring) : jsstring := map lowerUnit s.
Definition latin1ToUpperCase (s : jsstring) : jsstring := flat_map upperUnit s.

(** *** Notions for the statements about objects *)

(** [o[k]] on an object: the value of the own property, if there is one. *)
Fixpoint getProp {V : Type} (o : @object V) (k : jsstring) : option V :=
  match o with
  | [] => None
  | (k', v) :: o' => if streq k' k then Some v else getProp o' k
  end.

(** The value of the last entry whose converted key is [k']. *)
Fixpoint lastWrite {W : Type} (f : jsstring -> jsstring)
  (entries : list (jsstring * W)) (k' : jsstring) : option W :=
  match entries with
  | [] => None
  | (k, v) :: rest =>
      match lastWrite f rest k' with
      | Some w => Some w
      | None => if streq (f k) k' then Some v else None
      end
  end.

(** Every object of the value, at every depth, has distinct keys in
    enumeration order. *)
Fixpoint wellFormed (x : json) : Prop :=
  match x with
  | JArray items => fold_right (fun i P => wellFormed i /\ P) True items
  | JObject entries =>
      canonical entries /\
      fold_right (fun kv P => wellFormed (snd kv) /\ P) True entries
  | _ => True
  end.

(** [x[k]] on a JSON value: the member of an object, nothing otherwise. *)
Definition member (x : json) (k : jsstring) : option json :=
  match x with
  | JObject entries => getProp entries k
  | _ => None
  end.

(** The key is an array index. *)
Definition isIndexKey (k : jsstring) : bool :=
  match arrayIndex k with
  | Some _ => true
  | None => false
  end.

Definition otherKey (k : jsstring) : bool := negb (isIndexKey k).

(** The keys of a list, each once, in the order of their first occurrence. *)
Definition firstOccurrences (keys : list jsstring) : list jsstring :=
  fold_left (fun seen k => if existsb (streq k) seen then seen else seen ++ [k])
            keys [].

End Util.

Import Util.

(* ------------------------------------------------------------------ *)
(** ** net.BlockList

    The address-range set of the client is a [BlockList] of the platform's
    [net] module.  The part the client uses is modelled here: [addSubnet]
    and [check(address, family = 'ipv4')].  An address is a [SocketAddress]
    built from its text and a family; text that is not an address of that
    family makes the construction fail. *)

Module Net.

Inductive family := ipv4 | ipv6.

Record SocketAddress := { sa_family : family; sa_value : N }.

(** [s.split(sep)] for a one-unit separator. *)
Definition splitOn (sep : N) (s : jsstring) : list jsstring :=
  splitBy (N.eqb sep) s.

(** A decimal octet without leading zeros. *)
Definition parseOctet (p : jsstring) : option N :=
  let n := parseDigits p in
  if forallb isDigit p && streq (decimal n) p && (n <=? 255)
  then Some n
  else None.

Definition parseIPv4 (s : jsstring) : option N :=
  match map parseOctet (splitOn 46 s) with
  | [Some a; Some b; Some c; Some d] =>
      Some (N.shiftl a 24 + N.shiftl b 16 + N.shiftl c 8 + d)
  | _ => None
  end.

Definition hexValue (c : N) : option N :=
  if isDigit c then Some (c - 48)
  else if inRange 97 102 c then Some (c - 87)
  else if inRange 65 70 c then Some (c - 55)
  else None.

Fixpoint parseHex_aux (s : jsstring) (acc : N) : option N :=
  match s with
  | [] => Some acc
  | c :: s' =>
      match hexValue c with
      | Some d => parseHex_aux s' (16 * acc + d)
      | None => None
      end
  end.

(** A group of one to four hexadecimal digits. *)
Definition parseGroup (g : jsstring) : option N :=
  if ((1 <=? length g) && (length g <=? 4))%nat then parseHex_aux g 0 else None.

Fixpoint allSome {A : Type} (l : list (option A)) : option (list A) :=
  match l with
  | [] => Some []
  | Some x :: l' => option_map (cons x) (allSome l')
  | None :: _ => None
  end.

(** The 16-bit groups of a colon-separated part; a trailing dotted quad
    stands for two groups. *)
Definition parseGroups (allowQuad : bool) (part : jsstring) : option (list N) :=
  match part with
  | [] => Some []
  | _ =>
      let gs := splitOn 58 part in
      let lastG := last gs [] in
      if allowQuad && existsb (N.eqb 46) lastG then
        match parseIPv4 lastG, allSome (map parseGroup (removelast gs)) with
        | Some v, Some hs => Some (hs ++ [N.shiftr v 16; N.land v 0xFFFF])
        | _, _ => None
        end
      else allSome (map parseGroup gs)
  end.

Definition groupsValue (gs : list N) : N :=
  fold_left (fun acc g => N.shiftl acc 16 + g) gs 0.

(** The position of the first ["::"], splitting the text around it. *)
Fixpoint splitDoubleColon (s pre : jsstring) : option (jsstring * jsstring) :=
  match s with
  | 58 :: 58 :: rest => Some (rev pre, rest)
  | c :: s' => splitDoubleColon s' (c :: pre)
  | [] => None
  end.

Definition parseIPv6 (s : jsstring) : option N :=
  match splitDoubleColon s [] with
  | Some (l, r) =>
      match parseGroups false l, parseGroups true r with
      | Some gl, Some gr =>
          if (length gl + length gr <=? 7)%nat
          then Some (groupsValue
                       (gl ++ repeat 0 (8 - (length gl + length gr)) ++ gr))
          else None
      | _, _ => None
      end
  | None =>
      match parseGroups true s with
      | Some gs => if (length gs =? 8)%nat then Some (groupsValue gs) else None
      | None => None
      end
  end.

(** The text as the address parser of the platform reads it: the parser
    is handed a C string, which ends before the first NUL. *)
Fixpoint cString (s : jsstring) : jsstring :=
  match s with
  | [] => []
  | c :: s' => if c =? 0 then [] else c :: cString s'
  end.

(** [new SocketAddress({ address, family })]; [None] when it throws. *)
Definition newSocketAddress (address : jsstring) (fam : family)
  : option SocketAddress :=
  match fam with
  | ipv4 => option_map (Build_SocketAddress ipv4) (parseIPv4 (cString address))
  | ipv6 => option_map (Build_SocketAddress ipv6) (parseIPv6 (cString address))
  end.

Record SubnetRule := { net : SocketAddress; prefix : N }.

Definition BlockList := list SubnetRule.

(** [blockList.addSubnet(net, prefix, family)]; [None] when it throws on an
    invalid address. *)
Definition addSubnet (bl : BlockList) (address : jsstring) (pfx : N)
  (fam : family) : option BlockList :=
  option_map (fun a => bl ++ [{| net := a; prefix := pfx |}])
             (newSocketAddress address fam).

(** The high [pfx] bits of a [width]-bit value. *)
Definition highBits (width pfx v : N) : N := N.shiftr v (width - pfx).

(** An IPv4 address as the IPv4-mapped IPv6 address [::ffff:a.b.c.d]. *)
Definition mapped (v4 : N) : N := N.shiftl 0xFFFF 32 + v4.

Definition isMapped (v6 : N) : bool := N.shiftr v6 32 =? 0xFFFF.

(** Containment of an address in a subnet.  Addresses of the two families
    are compared through the IPv4-mapped form. *)
Definition inNetwork (ip : SocketAddress) (r : SubnetRule) : bool :=
  match sa_family ip, sa_family (net r) with
  | ipv4, ipv4 =>
      highBits 32 (prefix r) (sa_value ip) =? highBits 32 (prefix r) (sa_value (net r))
  | ipv6, ipv6 =>
      highBits 128 (prefix r) (sa_value ip) =? highBits 128 (prefix r) (sa_value (net r))
  | ipv4, ipv6 =>
      highBits 128 (prefix r) (mapped (sa_value ip))
      =? highBits 128 (prefix r) (sa_value (net r))
  | ipv6, ipv4 =>
      isMapped (sa_value ip) &&
      (highBits 32 (prefix r) (N.land (sa_value ip) 0xFFFFFFFF)
       =? highBits 32 (prefix r) (sa_value (net r)))
  end.

(** [blockList.check(address, family)]: an address that cannot be built
    for the family is not in the list. *)
Definition check_family (bl : BlockList) (address : jsstring) (fam : family)
  : bool :=
  match newSocketAddress address fam with
  | Some a => existsb (inNetwork a) bl
  | None => false
  end.

(** [blockList.check(address)]: the family defaults to ['ipv4']. *)
Definition check (bl : BlockList) (address : jsstring) : bool :=
  check_family bl address ipv4.

End Net.

(* ------------------------------------------------------------------ *)
(** ** The client class [TailscaleLocalApi] *)

Module Client.

Import Net.

(** *** Values of the platform *)

Record Error := { message : jsstring; cause : option jsstring }.

Definition mkError (msg : jsstring) : Error :=
  {| message := msg; cause := None |}.

Inductive result (A : Type) :=
| Ok (a : A)
| Throw (e : Error).

Arguments Ok {A} a.
Arguments Throw {A} e.

Definition rbind {A B : Type} (r : result A) (k : A -> result B) : result B :=
  match r with
  | Ok a => k a
  | Throw e => Throw e
  end.

(** The process and the file system the client runs on. *)
Record Host := {
  platform : jsstring;                          (* process.platform *)
  existsSync : jsstring -> bool;                (* fs.existsSync *)
  env : jsstring -> option jsstring;            (* process.env[name] *)
  readFileSync : jsstring -> result jsstring;   (* fs.readFileSync(p, "utf8") *)
  readlinkSync : jsstring -> result jsstring;   (* fs.readlinkSync *)
  statSync_size : jsstring -> result Z;         (* fs.statSync(p).size *)
  readFileSync_buffer : jsstring -> result (list N)  (* fs.readFileSync(p) *)
}.

(** Truthiness of a string-valued expression that may be [undefined]. *)
Definition truthy (v : option jsstring) : bool :=
  match v with
  | Some (_ :: _) => true
  | _ => false
  end.

(** White space and line terminators, as [trim] and [parseInt] skip them. *)
Definition isStrWhiteSpace (c : N) : bool :=
  existsb (N.eqb c)
    [ 0x9; 0xA; 0xB; 0xC; 0xD; 0x20; 0xA0; 0x1680; 0x2028; 0x2029;
      0x202F; 0x205F; 0x3000; 0xFEFF ]
  || inRange 0x2000 0x200A c.

Fixpoint trimStart (s : jsstring) : jsstring :=
  match s with
  | c :: s' => if isStrWhiteSpace c then trimStart s' else s
  | [] => []
  end.

Definition trim (s : jsstring) : jsstring :=
  rev (trimStart (rev (trimStart s))).

Fixpoint takeDigits (s : jsstring) : jsstring :=
  match s with
  | c :: s' => if isDigit c then c :: takeDigits s' else []
  | [] => []
  end.

(** [parseInt(s, 10)]; [None] is [NaN].  The value is the exact integer,
    which is what the platform returns below 2^53. *)
Definition parseInt10 (s : jsstring) : option Z :=
  let s1 := trimStart s in
  let '(sign, s2) :=
    match s1 with
    | 45 :: r => ((-1)%Z, r)
    | 43 :: r => (1%Z, r)
    | _ => (1%Z, s1)
    end in
  match takeDigits s2 with
  | [] => None
  | ds => Some (sign * Z.of_N (parseDigits ds))%Z
  end.

(** [String(z)] for an integer. *)
Definition decimalZ (z : Z) : jsstring :=
  if (z <? 0)%Z then 45 :: decimal (Z.abs_N z) else decimal (Z.abs_N z).

(** A value interpolated in a template literal when it may be [undefined];
    for a number, all its digits, as the platform prints a safe integer. *)
Definition showPort (p : option Z) : jsstring :=
  match p with
  | Some z => decimalZ z
  | None => js "undefined"
  end.

Definition showString (p : option jsstring) : jsstring :=
  match p with
  | Some s => s
  | None => js "undefined"
  end.

(** [String(n)] for an integral number: all its digits, as the platform
    prints a safe integer. *)
Definition showNumber (n : number) : jsstring :=
  match n with
  | Finite q => decimalZ (Qfloor q)
  | NaN => js "NaN"
  | PosInfinity => js "Infinity"
  | NegInfinity => js "-Infinity"
  end.

Definition Math_floor (n : number) : number :=
  match n with
  | Finite q => Finite (inject_Z (Qfloor q))
  | _ => n
  end.

(** [n < 0]. *)
Definition isNegative (n : number) : bool :=
  match n with
  | Finite q => negb (Qle_bool 0 q)
  | NegInfinity => true
  | _ => false
  end.

(** *** UTF-8 and base64, for [Buffer.from(s).toString("base64")] *)

Fixpoint utf8 (s : jsstring) : list N :=
  match s with
  | [] => []
  | h :: t =>
      let one (c : N) : list N :=
        if c <? 0x80 then [c]
        else if c <? 0x800 then [0xC0 + N.shiftr c 6; 0x80 + N.land c 0x3F]
        else [0xE0 + N.shiftr c 12; 0x80 + N.land (N.shiftr c 6) 0x3F;
              0x80 + N.land c 0x3F] in
      match t with
      | l :: rest =>
          if isHighSurrogate h && isLowSurrogate l then
            let cp := 0x10000 + N.shiftl (h - 0xD800) 10 + (l - 0xDC00) in
            [0xF0 + N.shiftr cp 18; 0x80 + N.land (N.shiftr cp 12) 0x3F;
             0x80 + N.land (N.shiftr cp 6) 0x3F; 0x80 + N.land cp 0x3F]
            ++ utf8 rest
          else (if isHighSurrogate h || isLowSurrogate h then one 0xFFFD else one h)
               ++ utf8 t
      | [] => if isHighSurrogate h || isLowSurrogate h then one 0xFFFD else one h
      end
  end.

Definition base64Alphabet : jsstring :=
  js "ABCDEFGHIJKLMNOPQRSTUVWXYZabcdefghijklmnopqrstuvwxyz0123456789+/".

Definition sextet (v : N) : N := nth (N.to_nat v) base64Alphabet 0.

Fixpoint base64 (bytes : list N) : jsstring :=
  match bytes with
  | [] => []
  | [a] =>
      [sextet (N.shiftr a 2); sextet (N.shiftl (N.land a 3) 4); 61; 61]
  | [a; b] =>
      [sextet (N.shiftr a 2);
       sextet (N.shiftl (N.land a 3) 4 + N.shiftr b 4);
       sextet (N.shiftl (N.land b 15) 2); 61]
  | a :: b :: c :: rest =>
      [sextet (N.shiftr a 2);
       sextet (N.shiftl (N.land a 3) 4 + N.shiftr b 4);
       sextet (N.shiftl (N.land b 15) 2 + N.shiftr c 6);
       sextet (N.land c 63)] ++ base64 rest
  end.

(** *** Requests and responses *)

Record Agent := { connect_socketPath : jsstring }.

Inductive Body :=
| BodyNull
| BodyStringify (v : json)      (* JSON.stringify(v) *)
| BodyData (bytes : list N).

(** The argument destructured by the dispatch function. *)
Record FetchOptions := {
  method : jsstring;
  headers : @object jsstring;
  body : Body
}.

(** The second argument of the platform's [fetch]. *)
Record RequestInit := {
  init_dispatcher : option Agent;
  init_method : jsstring;
  init_headers : @object jsstring;
  init_body : Body
}.

Record Request := { url : jsstring; init : option RequestInit }.

Record Response := {
  status : N;
  header : jsstring -> option jsstring;   (* resp.headers.get *)
  text : jsstring;                        (* resp.text() *)
  json_ : result json;                    (* resp.json() *)
  arrayBuffer : list N                    (* resp.arrayBuffer() *)
}.

Definition ok (resp : Response) : bool := inRange 200 299 (status resp).

(** The settlement of the promise returned by [fetch]. *)
Inductive Outcome :=
| Rejected (e : Error)
| Resolved (resp : Response).

(** *** The client object *)

Inductive Environment := windows | macos | unix | container.

Definition Environment_eqb (a b : Environment) : bool :=
  match a, b with
  | windows, windows | macos, macos | unix, unix | container, container => true
  | _, _ => false
  end.

Record TailscaleLocalApiOptions := {
  opt_socketPath : option jsstring;
  opt_useSocketOnly : option bool
}.

(** The two closures [createFetchFn] can return. *)
Inductive FetchFn :=
| SocketFetch (dispatcher : Agent)
| TcpFetch.

Record TailscaleLocalApi := {
  fetch : option FetchFn;
  baseUrl : jsstring;
  tailscaleCidr : BlockList;
  socketPath : jsstring;
  adapterPort : option Z;
  adapterPassword : option jsstring;
  maxRetries : nat;
  retryDelay : Q;
  environment : Environment;
  useSocketOnly : bool
}.

Definition set_credentials (this : TailscaleLocalApi) (port : Z) (auth : jsstring)
  : TailscaleLocalApi :=
  {| fetch := fetch this; baseUrl := baseUrl this;
     tailscaleCidr := tailscaleCidr this; socketPath := socketPath this;
     adapterPort := Some port; adapterPassword := Some auth;
     maxRetries := maxRetries this; retryDelay := retryDelay this;
     environment := environment this; useSocketOnly := useSocketOnly this |}.

Definition set_baseUrl (this : TailscaleLocalApi) (u : jsstring)
  : TailscaleLocalApi :=
  {| fetch := fetch this; baseUrl := u;
     tailscaleCidr := tailscaleCidr this; socketPath := socketPath this;
     adapterPort := adapterPort this; adapterPassword := adapterPassword this;
     maxRetries := maxRetries this; retryDelay := retryDelay this;
     environment := environment this; useSocketOnly := useSocketOnly this |}.

Definition set_fetch (this : TailscaleLocalApi) (f : FetchFn)
  : TailscaleLocalApi :=
  {| fetch := Some f; baseUrl := baseUrl this;
     tailscaleCidr := tailscaleCidr this; socketPath := socketPath this;
     adapterPort := adapterPort this; adapterPassword := adapterPassword this;
     maxRetries := maxRetries this; retryDelay := retryDelay this;
     environment := environment this; useSocketOnly := useSocketOnly this |}.

(** *** Environment detection *)

Definition isRunningInContainer (h : Host) : bool :=
  if existsSync h (js "/.dockerenv") then true
  else if truthy (env h (js "KUBERNETES_SERVICE_HOST")) then true
  else if streq (platform h) (js "linux") then
    match readFileSync h (js "/proc/1/cgroup") with
    | Ok cgroupContent =>
        if includes cgroupContent (js "docker")
           || includes cgroupContent (js "kubepods")
           || includes cgroupContent (js "lxc")
        then true
        else false
    | Throw _ => false
    end
  else false.

Definition interrogateEnvironment (h : Host) : Environment :=
  if isRunningInContainer h then container
  else if streq (platform h) (js "win32") then windows
  else if streq (platform h) (js "darwin") then macos
  else unix.

(** *** Credential discovery *)

Definition getCredentialsFromSameuserProof (h : Host) (this : TailscaleLocalApi)
  : result (TailscaleLocalApi * (Z * jsstring)) :=
  let SHARED_DIR := js "/Library/Tailscale" in
  let IPN_PORT_FILE := js "ipnport" in
  match
    rbind (readlinkSync h (SHARED_DIR ++ js "/" ++ IPN_PORT_FILE)) (fun portStr =>
    match parseInt10 portStr with
    | None => Throw (mkError (js "Invalid port number: " ++ portStr))
    | Some port =>
        rbind (readFileSync h (SHARED_DIR ++ js "/sameuserproof-" ++ portStr))
          (fun authBytes =>
        let auth := trim authBytes in
        match auth with
        | [] => Throw (mkError (js "Empty auth token in sameuserproof file"))
        | _ => Ok (set_credentials this port auth, (port, auth))
        end)
    end)
  with
  | Ok r => Ok r
  | Throw err =>
      Throw (mkError (js "Failed to read credentials: " ++ message err))
  end.

(** *** The dispatch function *)

Definition createFetchFn (this : TailscaleLocalApi)
  : TailscaleLocalApi * FetchFn :=
  if useSocketOnly this || negb (Environment_eqb (environment this) macos) then
    let dispatcher := {| connect_socketPath := socketPath this |} in
    (this, SocketFetch dispatcher)
  else
    (set_baseUrl this (js "http://127.0.0.1:" ++ showPort (adapterPort this)),
     TcpFetch).

Definition defaultFetchOptions : FetchOptions :=
  {| method := js "GET"; headers := []; body := BodyNull |}.

(** [{ Authorization: a, Host: h, ...headers }]. *)
Definition spreadHeaders (fixed extra : @object jsstring) : @object jsstring :=
  fold_left (fun o '(k, v) => setProp o k v) extra
            (fold_left (fun o '(k, v) => setProp o k v) fixed []).

(** The request a dispatch closure hands to the platform's [fetch]. *)
Definition callFetchFn (this : TailscaleLocalApi) (f : FetchFn)
  (path : jsstring) (options : option FetchOptions) : Request :=
  let o := match options with Some o => o | None => defaultFetchOptions end in
  match f with
  | SocketFetch dispatcher =>
      {| url := baseUrl this ++ path;
         init := Some {| init_dispatcher := Some dispatcher;
                         init_method := method o;
                         init_headers := headers o;
                         init_body := body o |} |}
  | TcpFetch =>
      {| url := baseUrl this ++ path;
         init := Some {| init_dispatcher := None;
                         init_method := method o;
                         init_headers :=
                           spreadHeaders
                             [ (js "Authorization",
                                js "Basic " ++
                                base64 (utf8 (js ":" ++ showString (adapterPassword this))));
                               (js "Host", js "local-tailscaled.sock") ]
                             (headers o);
                         init_body := body o |} |}
  end.

(** *** The start-up probe *)

Inductive Event :=
| EvFetch (r : Request)
| EvSetTimeout (delay : Q)
| EvExit (code : Z).

(** [this.retryDelay * Math.pow(1.5, retryCount)].  The values reached
    (retryCount at most 4) are dyadic rationals that the platform's
    floating point represents exactly. *)
Definition backoffDelay (this : TailscaleLocalApi) (retryCount : nat) : Q :=
  (retryDelay this * Qpower (3 # 2) (Z.of_nat retryCount))%Q.

Definition probeFailed (o : Outcome) : bool :=
  match o with
  | Resolved resp => negb (ok resp)
  | Rejected _ => true
  end.

(** [this.fetch(path, options)]; the field is assigned before any call. *)
Definition this_fetch (this : TailscaleLocalApi) (path : jsstring)
  (options : option FetchOptions) : Request :=
  match fetch this with
  | Some f => callFetchFn this f path options
  | None => {| url := []; init := None |}
  end.

(** [connectWithRetry]: the events of the probe and of the timers it
    starts, [probe n] being the settlement of the request issued with
    [retryCount = n].  Console output is left out.  The recursion goes
    through a timer; [fuel] bounds the number of probes. *)
Fixpoint connectWithRetry_fuel (fuel : nat) (this : TailscaleLocalApi)
  (probe : nat -> Outcome) (retryCount : nat) : list Event :=
  match fuel with
  | O => []
  | S fuel' =>
      EvFetch (this_fetch this (js "/localapi/v0/status") None) ::
      (if probeFailed (probe retryCount) then
         if (retryCount <? maxRetries this)%nat then
           let nextRetry := (retryCount + 1)%nat in
           let delay := backoffDelay this retryCount in
           EvSetTimeout delay :: connectWithRetry_fuel fuel' this probe nextRetry
         else [EvExit 1]
       else [])
  end.

(** One probe for each retry that is left and one more: the fuel never
    runs out (lemma [connectWithRetry_unfold]). *)
Definition connectWithRetry (this : TailscaleLocalApi)
  (probe : nat -> Outcome) (retryCount : nat) : list Event :=
  connectWithRetry_fuel (S (maxRetries this - retryCount)) this probe retryCount.

(** *** The constructor *)

(** The subnets [100.64.0.0/10] and [fd7a:115c:a1e0::/48] as parsed. *)
Definition tailscaleRanges : BlockList :=
  [ {| net := {| sa_family := ipv4; sa_value := 0x64400000 |}; prefix := 10 |};
    {| net := {| sa_family := ipv6;
                 sa_value := N.shiftl 0xfd7a115ca1e0 80 |}; prefix := 48 |} ].

(** The two [addSubnet] calls of the constructor on the fresh list. *)
Definition initialCidr : option BlockList :=
  match addSubnet [] (js "100.64.0.0") 10 ipv4 with
  | Some bl => addSubnet bl (js "fd7a:115c:a1e0::") 48 ipv6
  | None => None
  end.

(** The field initializers and the assignments that precede discovery. *)
Definition initialize (h : Host) (options : option TailscaleLocalApiOptions)
  (cidr : BlockList) : TailscaleLocalApi :=
  let useSocketOnly_ :=
    match options with
    | Some o => match opt_useSocketOnly o with Some b => b | None => false end
    | None => false
    end in
  let environment_ := interrogateEnvironment h in
  let socketPath_ :=
    match match options with Some o => opt_socketPath o | None => None end with
    | Some p => p
    | None => if Environment_eqb environment_ container
              then js "/tmp/tailscaled.sock"
              else js "/var/run/tailscaled.socket"
    end in
  {| fetch := None; baseUrl := js "http://local-tailscaled.sock";
     tailscaleCidr := cidr; socketPath := socketPath_;
     adapterPort := None; adapterPassword := None;
     maxRetries := 5; retryDelay := 5000;
     environment := environment_; useSocketOnly := useSocketOnly_ |}.

(** [this.fetch = this.createFetchFn()]. *)
Definition assignFetch (this : TailscaleLocalApi) : TailscaleLocalApi :=
  let '(this', f) := createFetchFn this in set_fetch this' f.

(** [new TailscaleLocalApi(options)].  The probe the constructor starts is
    [startupProbe] below; it runs after the constructor has returned. *)
Definition construct (h : Host) (options : option TailscaleLocalApiOptions)
  : result TailscaleLocalApi :=
  match initialCidr with
  | None => Throw (mkError (js "Invalid address"))
  | Some cidr =>
      let this0 := initialize h options cidr in
      rbind
        (if Environment_eqb (environment this0) macos
         then rbind (getCredentialsFromSameuserProof h this0)
                    (fun r => Ok (fst r))
         else Ok this0)
        (fun this1 => Ok (assignFetch this1))
  end.

(** The background task the constructor starts before it returns. *)
Definition startupProbe (this : TailscaleLocalApi) (probe : nat -> Outcome)
  : list Event :=
  connectWithRetry this probe 0.

(** *** The address-range test *)

Definition isDottedQuad (q : jsstring) : bool :=
  match splitOn 46 q with
  | [a; b; c; d] =>
      forallb (fun p => negb (length p =? 0)%nat && forallb isDigit p) [a; b; c; d]
  | _ => false
  end.

(** ["::ffff:"], the letters in either case (flag [i]). *)
Definition mappedPrefix (s : jsstring) : bool :=
  match s with
  | 58 :: 58 :: f1 :: f2 :: f3 :: f4 :: 58 :: _ =>
      forallb (fun c => (c =? 102) || (c =? 70)) [f1; f2; f3; f4]
  | _ => false
  end.

(** [ip.match(/::ffff:(\d+\.\d+\.\d+\.\d+)$/i)]: the first capture group of
    the leftmost match. *)
Fixpoint matchMapped (ip : jsstring) : option jsstring :=
  if mappedPrefix ip && isDottedQuad (skipn 7 ip) then Some (skipn 7 ip)
  else match ip with
       | [] => None
       | _ :: ip' => matchMapped ip'
       end.

(** A value of type [string | false]. *)
Inductive StringOrFalse :=
| IsFalse
| IsString (s : jsstring).

Definition isTruthy (v : StringOrFalse) : bool :=
  match v with
  | IsString (_ :: _) => true
  | _ => false
  end.

(** [b && s]. *)
Definition andString (b : bool) (s : jsstring) : StringOrFalse :=
  if b then IsString s else IsFalse.

Definition isInTailscaleIpRange (this : TailscaleLocalApi) (ip : jsstring)
  : StringOrFalse :=
  match matchMapped ip with
  | Some (c :: m1) => andString (check (tailscaleCidr this) (c :: m1)) (c :: m1)
  | _ => andString (check (tailscaleCidr this) ip) ip
  end.

(** *** Asynchronous methods

    A method runs against the network, which settles every request, and
    records the requests it hands to the platform's [fetch]. *)

Definition Network := Request -> Outcome.

Definition M (A : Type) : Type :=
  Network -> list Request -> result A * list Request.

Definition ret {A : Type} (a : A) : M A := fun _ log => (Ok a, log).

Definition throw {A : Type} (e : Error) : M A := fun _ log => (Throw e, log).

Definition lift {A : Type} (r : result A) : M A := fun _ log => (r, log).

Definition bind {A B : Type} (m : M A) (k : A -> M B) : M B :=
  fun network log =>
    match m network log with
    | (Ok a, log') => k a network log'
    | (Throw e, log') => (Throw e, log')
    end.

Notation "x <- m ;; k" := (bind m (fun x => k))
  (at level 61, m at next level, right associativity).

(** The platform's [fetch(url, init)]. *)
Definition platformFetch (req : Request) : M Response :=
  fun network log =>
    (match network req with
     | Resolved resp => Ok resp
     | Rejected e => Throw e
     end, log ++ [req]).

(** [await this.fetch(path, options)]. *)
Definition dispatch (this : TailscaleLocalApi) (path : jsstring)
  (options : option FetchOptions) : M Response :=
  platformFetch (this_fetch this path options).

(** The requests a method issues, and its result, from an empty record. *)
Definition requestsOf {A : Type} (m : M A) (network : Network) : list Request :=
  snd (m network []).

Definition resultOf {A : Type} (m : M A) (network : Network) : result A :=
  fst (m network []).

(** A method issues its requests through the dispatch function of the client
    when every request it adds to the record is one built by [this.fetch]. *)
Definition throughDispatch {A : Type} (this : TailscaleLocalApi) (m : M A)
  : Prop :=
  forall network log, exists issued,
    snd (m network log) = log ++ issued /\
    Forall (fun r => exists path options, r = this_fetch this path options)
           issued.

(** The request carries the credentials of TCP mode, or goes through a
    socket dispatcher. *)
Definition carriesAuthorization (r : Request) : bool :=
  match init r with
  | Some i => hasOwn (init_headers i) (js "Authorization")
              && hasOwn (init_headers i) (js "Host")
  | None => false
  end.

Definition viaSocketDispatcher (r : Request) : bool :=
  match init r with
  | Some i => match init_dispatcher i with Some _ => true | None => false end
  | None => false
  end.

Record PushFileOptions := {
  pf_targetNodeId : jsstring;
  pf_size : Z;
  pf_name : jsstring;
  pf_data : list N
}.

Inductive PushFileArg :=
| PushTarget (targetNodeId : jsstring)
| PushOptions (options : PushFileOptions).

(** [filePath.split(/[\\/]/).pop() || 'file']. *)
Definition fileNameOf (filePath : jsstring) : jsstring :=
  match last (splitBy (fun c => (c =? 92) || (c =? 47)) filePath) [] with
  | [] => js "file"
  | name => name
  end.

Section Endpoints.

Variables toLowerCase toUpperCase : jsstring -> jsstring.

(** [encodeURIComponent], which throws on a lone surrogate, and
    [Number(s)]. *)
Variable encodeURIComponent : jsstring -> result jsstring.
Variable Number_ : jsstring -> number.

Let camelCaseKeys := toCamelCaseKeys toLowerCase toUpperCase.

Definition whoIs (this : TailscaleLocalApi) (ip : jsstring) : M json :=
  resp <- dispatch this (js "/localapi/v0/whois?addr=" ++ ip) None ;;
  if negb (ok resp) then
    throw {| message := js "Couldn't get whois for " ++ ip;
             cause := Some (text resp) |}
  else
    body_ <- lift (json_ resp) ;;
    ret (camelCaseKeys body_).

Definition prefs (this : TailscaleLocalApi) : M json :=
  resp <- dispatch this (js "/localapi/v0/prefs") None ;;
  if negb (ok resp) then
    throw {| message := js "Couldn't get prefs"; cause := Some (text resp) |}
  else
    body_ <- lift (json_ resp) ;;
    ret (camelCaseKeys body_).

Definition goroutines (this : TailscaleLocalApi) : M jsstring :=
  resp <- dispatch this (js "/localapi/v0/goroutines") None ;;
  if negb (ok resp) then
    throw {| message := js "Couldn't get goroutines"; cause := Some (text resp) |}
  else ret (text resp).

Definition daemonMetrics (this : TailscaleLocalApi) : M jsstring :=
  resp <- dispatch this (js "/localapi/v0/metrics") None ;;
  if negb (ok resp) then
    throw {| message := js "Couldn't get daemon metrics";
             cause := Some (text resp) |}
  else ret (text resp).

Definition userMetrics (this : TailscaleLocalApi) : M jsstring :=
  resp <- dispatch this (js "/localapi/v0/usermetrics") None ;;
  if negb (ok resp) then
    throw {| message := js "Couldn't get user metrics";
             cause := Some (text resp) |}
  else ret (text resp).

Definition incrementCounter (this : TailscaleLocalApi) (name : jsstring)
  (delta : number) : M unit :=
  if isNegative delta then
    throw (mkError (js "negative delta not allowed"))
  else
    let updates :=
      JArray [ JObject [ (js "name", JString name);
                         (js "type", JString (js "counter"));
                         (js "value", JNumber delta) ] ] in
    resp <- platformFetch
              {| url := baseUrl this ++ js "/localapi/v0/upload-client-metrics";
                 init := Some {| init_dispatcher := None;
                                 init_method := js "POST";
                                 init_headers :=
                                   [ (js "Content-Type", js "application/json") ];
                                 init_body := BodyStringify updates |} |} ;;
    if negb (ok resp) then
      throw (mkError (js "Failed to increment counter: " ++ text resp))
    else ret tt.

Definition getStatus (this : TailscaleLocalApi) (includePeers : bool) : M json :=
  resp <- dispatch this
            (js "/localapi/v0/status" ++
             (if includePeers then [] else js "?peers=false")) None ;;
  if negb (ok resp) then
    throw (mkError (js "Failed to get status: " ++ text resp))
  else
    data <- lift (json_ resp) ;;
    ret (camelCaseKeys data).

Definition status_ (this : TailscaleLocalApi) : M json := getStatus this true.

Definition statusWithoutPeers (this : TailscaleLocalApi) : M json :=
  getStatus this false.

Definition awaitWaitingFiles (this : TailscaleLocalApi) (seconds : number)
  : M json :=
  let path := js "/localapi/v0/files/?waitsec=" ++ showNumber (Math_floor seconds) in
  resp <- dispatch this path None ;;
  if negb (ok resp) then
    throw (mkError (js "Failed to get waiting files: " ++ text resp))
  else
    data <- lift (json_ resp) ;;
    ret (camelCaseKeys data).

Definition waitingFiles (this : TailscaleLocalApi) : M json :=
  awaitWaitingFiles this (Finite 0).

Definition deleteWaitingFile (this : TailscaleLocalApi) (baseName : jsstring)
  : M unit :=
  encodedName <- lift (encodeURIComponent baseName) ;;
  resp <- dispatch this (js "/localapi/v0/files/" ++ encodedName)
            (Some {| method := js "DELETE"; headers := []; body := BodyNull |}) ;;
  if negb (status resp =? 204) then
    throw (mkError (js "Failed to delete waiting file: " ++ text resp))
  else ret tt.

Definition getWaitingFile (this : TailscaleLocalApi) (baseName : jsstring)
  : M (list N * number) :=
  encodedName <- lift (encodeURIComponent baseName) ;;
  resp <- platformFetch
            {| url := baseUrl this ++ js "/localapi/v0/files/" ++ encodedName;
               init := None |} ;;
  if negb (status resp =? 200) then
    throw (mkError (js "Failed to get waiting file: " ++ text resp))
  else
    let chunked :=
      match header resp (js "transfer-encoding") with
      | Some te => streq te (js "chunked")
      | None => false
      end in
    if chunked then throw (mkError (js "Unexpected chunking"))
    else
      let size :=
        if truthy (header resp (js "content-length"))
        then Number_ (showString (header resp (js "content-length")))
        else Finite 0 in
      ret (arrayBuffer resp, size).

Definition fileTargets (this : TailscaleLocalApi) : M json :=
  resp <- dispatch this (js "/localapi/v0/file-targets") None ;;
  if negb (ok resp) then
    throw (mkError (js "Failed to get file targets: " ++ text resp))
  else
    data <- lift (json_ resp) ;;
    ret (camelCaseKeys data).

(** The body of [pushFile] after the file-path overload. *)
Definition pushFile_options (this : TailscaleLocalApi)
  (options : PushFileOptions) : M unit :=
  encodedName <- lift (encodeURIComponent (pf_name options)) ;;
  let url_ := js "/localapi/v0/file-put/" ++ pf_targetNodeId options
              ++ js "/" ++ encodedName in
  let headers_ : @object jsstring :=
    if negb (pf_size options =? -1)%Z
    then setProp [] (js "Content-Length") (decimalZ (pf_size options))
    else [] in
  resp <- dispatch this url_
            (Some {| method := js "PUT"; headers := headers_;
                     body := BodyData (pf_data options) |}) ;;
  if negb (status resp =? 200) then
    throw (mkError (js "Failed to push file: " ++ decimal (status resp)
                    ++ js " " ++ text resp))
  else ret tt.

Definition pushFile (h : Host) (this : TailscaleLocalApi)
  (targetNodeIdOrOptions : PushFileArg) (maybeFilePath : option jsstring)
  : M unit :=
  match targetNodeIdOrOptions with
  | PushTarget targetNodeId =>
      if truthy maybeFilePath then
        let filePath := showString maybeFilePath in
        size <- lift (statSync_size h filePath) ;;
        let name := fileNameOf filePath in
        data <- lift (readFileSync_buffer h filePath) ;;
        pushFile_options this
          {| pf_targetNodeId := targetNodeId; pf_size := size;
             pf_name := name; pf_data := data |}
      else
        (* a string has none of the destructured properties, and
           [size.toString()] is evaluated before any request *)
        throw (mkError
                 (js "Cannot read properties of undefined (reading 'toString')"))
  | PushOptions options => pushFile_options this options
  end.

Definition start (this : TailscaleLocalApi) (options : option json) : M unit :=
  resp <- dispatch this (js "/localapi/v0/start")
            (Some {| method := js "POST";
                     headers := [ (js "Content-Type", js "application/json") ];
                     body := match options with
                             | Some o => BodyStringify o
                             | None => BodyNull
                             end |}) ;;
  if negb (status resp =? 204) then
    throw (mkError (js "Failed to start Tailscale: " ++ text resp))
  else ret tt.

Definition logout (this : TailscaleLocalApi) : M unit :=
  resp <- dispatch this (js "/localapi/v0/logout")
            (Some {| method := js "POST"; headers := []; body := BodyNull |}) ;;
  if negb (status resp =? 204) then
    throw (mkError (js "Failed to logout: " ++ text resp))
  else ret tt.

Definition startLoginInteractive (this : TailscaleLocalApi) : M unit :=
  resp <- dispatch this (js "/localapi/v0/login-interactive")
            (Some {| method := js "POST"; headers := []; body := BodyNull |}) ;;
  if negb (status resp =? 204) then
    throw (mkError (js "Failed to start interactive login: " ++ text resp))
  else ret tt.

End Endpoints.

(** The request [incrementCounter] hands to the platform's [fetch]. *)
Definition metricUpdateRequest (this : TailscaleLocalApi) (name : jsstring)
  (delta : number) : Request :=
  {| url := baseUrl this ++ js "/localapi/v0/upload-client-metrics";
     init := Some {| init_dispatcher := None;
                     init_method := js "POST";
                     init_headers := [ (js "Content-Type", js "application/json") ];
                     init_body :=
                       BodyStringify
                         (JArray [ JObject [ (js "name", JString name);
                                             (js "type", JString (js "counter"));
                                             (js "value", JNumber delta) ] ]) |} |}.

(** *** Container indicators, for the statements about detection *)

(** The indicators as the specification lists them: the file exists, the
    variable is set, or the cgroup file of a Linux host mentions one of the
    three runtimes. *)
Definition containerIndicatorAsStated (h : Host) : Prop :=
  existsSync h (js "/.dockerenv") = true
  \/ env h (js "KUBERNETES_SERVICE_HOST") <> None
  \/ (platform h = js "linux" /\
      exists content, readFileSync h (js "/proc/1/cgroup") = Ok content /\
        (includes content (js "docker") = true
         \/ includes content (js "kubepods") = true
         \/ includes content (js "lxc") = true)).

(** The same with the variable set to a non-empty value. *)
Definition containerIndicator (h : Host) : Prop :=
  existsSync h (js "/.dockerenv") = true
  \/ (exists c v, env h (js "KUBERNETES_SERVICE_HOST") = Some (c :: v))
  \/ (platform h = js "linux" /\
      exists content, readFileSync h (js "/proc/1/cgroup") = Ok content /\
        (includes content (js "docker") = true
         \/ includes content (js "kubepods") = true
         \/ includes content (js "lxc") = true)).

(** *** Notions for the statements about requests and addresses *)

(** A method adds at most [n] requests to the record. *)
Definition issuesAtMost {A : Type} (n : nat) (m : M A) : Prop :=
  forall network log, exists issued,
    snd (m network log) = log ++ issued /\ (length issued <= n)%nat.

(** The value of the Authorization header in TCP mode. *)
Definition basicAuthorization (this : TailscaleLocalApi) : jsstring :=
  js "Basic " ++ base64 (utf8 (js ":" ++ showString (adapterPassword this))).

(** The text [a.b.c.d] of four numbers in decimal. *)
Definition dottedQuad (a b c d : N) : jsstring :=
  decimal a ++ [46] ++ decimal b ++ [46] ++ decimal c ++ [46] ++ decimal d.

(** The addresses from 100.64.0.0 to 100.127.255.255. *)
Definition inCgnatRange (a b : N) : bool :=
  (a =? 100) && (64 <=? b) && (b <=? 127).

(** One round of the start-up probe that fails with retries left. *)
Definition failedRound (this : TailscaleLocalApi) (retryCount : nat)
  : list Event :=
  [ EvFetch (this_fetch this (js "/localapi/v0/status") None);
    EvSetTimeout (backoffDelay this retryCount) ].

(** The call resolves, against the network. *)
Definition succeeds {A : Type} (m : M A) (network : Network) : Prop :=
  exists a, resultOf m network = Ok a.

(** The options of the POST requests without a body. *)
Definition postWithoutBody : FetchOptions :=
  {| method := js "POST"; headers := []; body := BodyNull |}.

(** The response says that its body is chunked. *)
Definition isChunked (resp : Response) : bool :=
  match header resp (js "transfer-encoding") with
  | Some te => streq te (js "chunked")
  | None => false
  end.

(** A slash or a backslash. *)
Definition isPathSeparator (c : N) : bool := (c =? 92) || (c =? 47).

(** What a JSON endpoint resolves with: the body of the successful answer
    to the GET of [path], its keys converted. *)
Definition returnsConvertedBody (toLowerCase toUpperCase : jsstring -> jsstring)
  (this : TailscaleLocalApi) (network : Network) (m : M json) (path : jsstring)
  : Prop :=
  forall v, resultOf m network = Ok v ->
  exists resp body_,
    network (this_fetch this path None) = Resolved resp /\
    ok resp = true /\
    json_ resp = Ok body_ /\
    v = toCamelCaseKeys toLowerCase toUpperCase body_ /\
    wellFormed v.

(** *** The range in which numbers are exact

    A number of the platform holds every integer below 2^53 in absolute
    value exactly, and prints it with all its digits.  [parseInt10],
    [showPort] and [showNumber] are the platform's [parseInt], template
    interpolation and [String] on that range; the statements that depend on
    the value of a port or on the text of a number are made there. *)

Definition safeInteger (z : Z) : bool := (Z.abs z <? 2 ^ 53)%Z.

(** The target of the link /Library/Tailscale/ipnport, when the link can be
    read and the target begins with an integer, denotes a safe integer. *)
Definition safeLinkTarget (h : Host) : bool :=
  match readlinkSync h (js "/Library/Tailscale/ipnport") with
  | Ok portStr =>
      match parseInt10 portStr with
      | Some port => safeInteger port
      | None => true
      end
  | Throw _ => true
  end.

(** [Math.floor(n)] is a safe integer, or [n] is not finite. *)
Definition safeFloor (n : number) : bool :=
  match n with
  | Finite q => safeInteger (Qfloor q)
  | _ => true
  end.

End Client.

Import Client.

(* ------------------------------------------------------------------ *)
(** ** Sample values *)

Module Samples.

Definition sampleStatus : json :=
  JObject [ (js "user_id", JNumber (Finite 7));
            (js "HostName", JString (js "node-1"));
            (js "Peers", JArray [ JObject [ (js "TailscaleIPs", JNull);
                                            (js "rx_bytes", JNumber (Finite 0)) ] ]) ].

Definition noEntry {A : Type} (p : jsstring) : result A :=
  Throw (mkError (js "ENOENT: no such file or directory, open '" ++ p ++ js "'")).

(** The same for [readlinkSync] and [statSync], whose errors name their
    own system call. *)
Definition noLink {A : Type} (p : jsstring) : result A :=
  Throw (mkError (js "ENOENT: no such file or directory, readlink '" ++ p ++ js "'")).

Definition noStat {A : Type} (p : jsstring) : result A :=
  Throw (mkError (js "ENOENT: no such file or directory, stat '" ++ p ++ js "'")).

(** A host without any of the files the client looks at. *)
Definition bareHost (plat : jsstring) : Host :=
  {| platform := plat;
     existsSync := fun _ => false;
     env := fun _ => None;
     readFileSync := noEntry;
     readlinkSync := noLink;
     statSync_size := noStat;
     readFileSync_buffer := noEntry |}.

Definition linuxHost : Host := bareHost (js "linux").

Definition macHostNoCredentials : Host := bareHost (js "darwin").

(** A macOS host with the credential pair: the link target is "12345", the
    proof file holds "  deadbeef" and a line feed. *)
Definition macHost : Host :=
  {| platform := js "darwin";
     existsSync := fun _ => false;
     env := fun _ => None;
     readFileSync := fun p =>
       if streq p (js "/Library/Tailscale/sameuserproof-12345")
       then Ok (js "  deadbeef" ++ [10])
       else noEntry p;
     readlinkSync := fun p =>
       if streq p (js "/Library/Tailscale/ipnport")
       then Ok (js "12345")
       else noLink p;
     statSync_size := noStat;
     readFileSync_buffer := noEntry |}.

(** The macOS host with [KUBERNETES_SERVICE_HOST] set to the empty string. *)
Definition macHostEmptyVariable : Host :=
  {| platform := js "darwin";
     existsSync := fun _ => false;
     env := fun name =>
       if streq name (js "KUBERNETES_SERVICE_HOST") then Some [] else None;
     readFileSync := readFileSync macHost;
     readlinkSync := readlinkSync macHost;
     statSync_size := noStat;
     readFileSync_buffer := noEntry |}.

(** A darwin platform inside a container: [/.dockerenv] exists. *)
Definition macHostInDocker : Host :=
  {| platform := js "darwin";
     existsSync := fun p => streq p (js "/.dockerenv");
     env := fun _ => None;
     readFileSync := noEntry;
     readlinkSync := noLink;
     statSync_size := noStat;
     readFileSync_buffer := noEntry |}.

Definition socketOnly : TailscaleLocalApiOptions :=
  {| opt_socketPath := None; opt_useSocketOnly := Some true |}.

Definition unreachable : Outcome :=
  Rejected (mkError (js "connect ECONNREFUSED")).

Definition emptyResponse (code : N) : Response :=
  {| status := code; header := fun _ => None; text := []; json_ := Ok JNull;
     arrayBuffer := [] |}.

(** A daemon that answers every request with an empty 200 response. *)
Definition alwaysOk : Network := fun _ => Resolved (emptyResponse 200).

(** [encodeURIComponent] on the strings it leaves unchanged. *)
Definition encodeUnreserved (s : jsstring) : result jsstring := Ok s.

Definition numberOfDigits (s : jsstring) : number :=
  Finite (inject_Z (Z.of_N (parseDigits s))).

(** A daemon that answers every request with an empty response of the
    given status. *)
Definition alwaysStatus (code : N) : Network :=
  fun _ => Resolved (emptyResponse code).

(** A Linux host with one file, of three bytes. *)
Definition hostWithFile : Host :=
  {| platform := js "linux";
     existsSync := fun _ => false;
     env := fun _ => None;
     readFileSync := noEntry;
     readlinkSync := noLink;
     statSync_size := fun p =>
       if streq p (js "/home/me/notes.txt") then Ok 3%Z else noStat p;
     readFileSync_buffer := fun p =>
       if streq p (js "/home/me/notes.txt") then Ok [104; 105; 10] else noEntry p |}.

End Samples.

Import Samples.

(* ------------------------------------------------------------------ *)
(** * Properties *)

(** ** Strings *)

Module JsStringFacts.

Lemma streq_spec (a b : jsstring) : streq a b = true <-> a = b.
Proof.
  revert b; induction a as [|x a IH]; intros [|y b]; simpl;
    try (split; [discriminate | discriminate]); try tauto.
  rewrite andb_true_iff, N.eqb_eq, IH.
  split; [intros [-> ->]; reflexivity | intros H; injection H; auto].
Qed.

Lemma streq_refl (a : jsstring) : streq a a = true.
Proof. apply streq_spec; reflexivity. Qed.

Lemma streq_false (a b : jsstring) : streq a b = false <-> a <> b.
Proof.
  destruct (streq a b) eqn:E.
  - apply streq_spec in E; split; [discriminate | congruence].
  - split; [intros _ H | reflexivity].
    apply streq_spec in H; congruence.
Qed.

End JsStringFacts.

Import JsStringFacts.

(** ** The word tokenizer and the key conversion *)

Module UtilFacts.

(** *** Objects: enumeration order and assignment *)

Section ObjectOrder.

Context {V : Type}.

Implicit Types (o : @object V) (k : jsstring) (v : V).

Lemma arrayIndex_inj k1 k2 n :
  arrayIndex k1 = Some n -> arrayIndex k2 = Some n -> k1 = k2.
Proof.
  unfold arrayIndex; intros H1 H2.
  destruct (forallb isDigit k1 && streq (decimal (parseDigits k1)) k1
            && (parseDigits k1 <? 2 ^ 32 - 1)) eqn:E1; [|discriminate].
  destruct (forallb isDigit k2 && streq (decimal (parseDigits k2)) k2
            && (parseDigits k2 <? 2 ^ 32 - 1)) eqn:E2; [|discriminate].
  injection H1 as <-; injection H2 as E.
  apply andb_true_iff in E1 as [E1 _]; apply andb_true_iff in E1 as [_ E1].
  apply andb_true_iff in E2 as [E2 _]; apply andb_true_iff in E2 as [_ E2].
  apply streq_spec in E1, E2.
  rewrite <- E1, <- E2, E; reflexivity.
Qed.

Lemma hasOwn_In o k : hasOwn o k = true <-> In k (map fst o).
Proof.
  induction o as [|[k' v'] o IH]; simpl.
  - split; [discriminate | tauto].
  - rewrite orb_true_iff, IH, streq_spec; tauto.
Qed.

Lemma hasOwn_notIn o k : hasOwn o k = false <-> ~ In k (map fst o).
Proof.
  rewrite <- hasOwn_In; destruct (hasOwn o k); split; congruence.
Qed.

Lemma replaceProp_keys o k v : map fst (replaceProp o k v) = map fst o.
Proof.
  induction o as [|[k' v'] o IH]; simpl; [reflexivity|].
  destruct (streq k' k); simpl; [reflexivity | rewrite IH; reflexivity].
Qed.

Lemma replaceProp_In o k v k1 v1 :
  In (k1, v1) (replaceProp o k v) -> In (k1, v1) o \/ (k1, v1) = (k, v).
Proof.
  induction o as [|[k' v'] o IH]; simpl; [tauto|].
  destruct (streq k' k) eqn:E; simpl.
  - apply streq_spec in E; subst k'.
    intros [H | H]; [right; congruence | left; right; exact H].
  - intros [H | H]; [left; left; exact H|].
    destruct (IH H); [left; right; assumption | right; assumption].
Qed.

Lemma insertIndex_In o n k v k1 v1 :
  In (k1, v1) (insertIndex o n k v) -> In (k1, v1) o \/ (k1, v1) = (k, v).
Proof.
  induction o as [|[k' v'] o IH]; simpl.
  - intros [H | []]; right; congruence.
  - destruct (arrayIndex k') as [m|]; [destruct (m <? n)|]; simpl.
    + intros [H | H]; [left; left; exact H|].
      destruct (IH H); [left; right; assumption | right; assumption].
    + intros [H | H]; [right; congruence | left; exact H].
    + intros [H | H]; [right; congruence | left; exact H].
Qed.

Lemma setProp_In o k v k1 v1 :
  In (k1, v1) (setProp o k v) -> In (k1, v1) o \/ (k1, v1) = (k, v).
Proof.
  unfold setProp.
  destruct (hasOwn o k); [apply replaceProp_In|].
  destruct (arrayIndex k); [apply insertIndex_In|].
  rewrite in_app_iff; simpl; intros [H | [H | []]]; [left | right]; congruence.
Qed.

Lemma insertIndex_canonical o n k v :
  canonical o -> ~ In k (map fst o) -> arrayIndex k = Some n ->
  canonical (insertIndex o n k v) /\
  (forall k0, Forall (keyBefore k0) (map fst o) -> keyBefore k0 k ->
              Forall (keyBefore k0) (map fst (insertIndex o n k v))).
Proof.
  unfold canonical.
  induction o as [|[k' v'] o IH]; simpl; intros Hc Hn Hk.
  - split; [constructor; constructor|].
    intros k0 _ Hb; constructor; [exact Hb | constructor].
  - apply StronglySorted_inv in Hc as [Hc Hall].
    assert (Hne : k <> k') by (intros ->; apply Hn; left; reflexivity).
    destruct (arrayIndex k') as [m|] eqn:Ek'.
    + destruct (m <? n) eqn:Hlt; simpl.
      * apply N.ltb_lt in Hlt.
        destruct IH as [IH1 IH2]; [assumption | tauto | assumption |].
        split.
        -- constructor; [assumption|].
           apply IH2; [assumption|].
           split; [congruence | rewrite Ek', Hk; assumption].
        -- intros k0 H0 Hb; inversion H0; subst.
           constructor; [assumption | apply IH2; assumption].
      * apply N.ltb_ge in Hlt.
        assert (Hkk' : keyBefore k k').
        { split; [assumption|]. rewrite Hk, Ek'.
          destruct (N.eq_dec n m) as [->|]; [|lia].
          exfalso; apply Hne; eapply arrayIndex_inj; eassumption. }
        split.
        -- constructor; [constructor; assumption|].
           constructor; [assumption|].
           rewrite Forall_forall in Hall |- *; intros x Hx.
           specialize (Hall x Hx).
           destruct Hall as [Hne' Hord].
           split; [intros Heq; apply Hn; right; rewrite Heq; exact Hx|].
           rewrite Hk. rewrite Ek' in Hord.
           destruct (arrayIndex x); [lia | exact I].
        -- intros k0 H0 Hb; constructor; assumption.
    + simpl.
      assert (Hkk' : keyBefore k k').
      { split; [assumption | rewrite Hk, Ek'; exact I]. }
      split.
      * constructor; [constructor; assumption|].
        constructor; [assumption|].
        rewrite Forall_forall in Hall |- *; intros x Hx.
        specialize (Hall x Hx).
        destruct Hall as [Hne' Hord].
        split; [intros Heq; apply Hn; right; rewrite Heq; exact Hx|].
        rewrite Hk. rewrite Ek' in Hord.
        destruct (arrayIndex x); [contradiction | exact I].
      * intros k0 H0 Hb; constructor; assumption.
Qed.

Lemma append_canonical o k v :
  canonical o -> ~ In k (map fst o) -> arrayIndex k = None ->
  canonical (o ++ [(k, v)]).
Proof.
  unfold canonical; intros Hc Hn Hk.
  rewrite map_app; simpl.
  induction (map fst o) as [|k' ks IH]; simpl.
  - repeat constructor.
  - apply StronglySorted_inv in Hc as [Hc Hall].
    constructor; [apply IH; [assumption | intros H; apply Hn; right; exact H]|].
    apply Forall_app; split; [assumption|].
    constructor; [|constructor].
    split; [intros ->; apply Hn; left; reflexivity|].
    rewrite Hk; destruct (arrayIndex k'); exact I.
Qed.

Lemma setProp_canonical o k v : canonical o -> canonical (setProp o k v).
Proof.
  intros Hc; unfold setProp.
  destruct (hasOwn o k) eqn:E.
  - unfold canonical; rewrite replaceProp_keys; exact Hc.
  - apply hasOwn_notIn in E.
    destruct (arrayIndex k) eqn:Ek.
    + apply insertIndex_canonical; assumption.
    + apply append_canonical; assumption.
Qed.

Lemma insertIndex_last o n k v :
  Forall (fun k' => keyBefore k' k) (map fst o) -> arrayIndex k = Some n ->
  insertIndex o n k v = o ++ [(k, v)].
Proof.
  intros Hall Hk.
  induction o as [|[k' v'] o IH]; simpl in *; [reflexivity|].
  inversion Hall as [|? ? [_ Hord] Hall']; subst.
  rewrite Hk in Hord.
  destruct (arrayIndex k') as [m|]; [|contradiction].
  apply N.ltb_lt in Hord; rewrite Hord, IH; [reflexivity | assumption].
Qed.

(** Assigning a key that comes after all the keys of the object appends
    the property. *)
Lemma setProp_last o k v :
  canonical (o ++ [(k, v)]) -> setProp o k v = o ++ [(k, v)].
Proof.
  unfold canonical; rewrite map_app; simpl; intros Hc.
  assert (Hall : Forall (fun k' => keyBefore k' k) (map fst o)).
  { induction (map fst o) as [|k' ks IH]; [constructor|].
    simpl in Hc; apply StronglySorted_inv in Hc as [Hc Hk'].
    constructor; [|apply IH; assumption].
    rewrite Forall_forall in Hk'; apply Hk', in_app_iff; right; left; reflexivity. }
  unfold setProp.
  assert (E : hasOwn o k = false).
  { apply hasOwn_notIn; intros Hin.
    rewrite Forall_forall in Hall; destruct (Hall k Hin) as [Hne _].
    apply Hne; reflexivity. }
  rewrite E.
  destruct (arrayIndex k) eqn:Ek; [apply insertIndex_last; assumption | reflexivity].
Qed.

Lemma canonical_prefix (a b : @object V) : canonical (a ++ b) -> canonical a.
Proof.
  unfold canonical; rewrite map_app.
  induction (map fst a) as [|k ks IH]; simpl; intros Hc; [constructor|].
  apply StronglySorted_inv in Hc as [Hc Hall].
  constructor; [apply IH; exact Hc|].
  apply Forall_app in Hall; tauto.
Qed.

End ObjectOrder.

(** *** Rebuilding an object key by key *)

Section Rebuild.

Context {W V : Type}.
Variable f : jsstring -> jsstring.
Variable g : W -> V.

Lemma rebuild_canonical entries acc :
  canonical acc -> canonical (rebuild f g entries acc).
Proof.
  revert acc; induction entries as [|[k v] entries IH]; simpl; intros acc Hc;
    [exact Hc|].
  apply IH, setProp_canonical, Hc.
Qed.

Lemma rebuild_In entries acc k1 v1 :
  In (k1, v1) (rebuild f g entries acc) ->
  In (k1, v1) acc \/ exists k v, In (k, v) entries /\ k1 = f k /\ v1 = g v.
Proof.
  revert acc; induction entries as [|[k v] entries IH]; simpl; intros acc H;
    [left; exact H|].
  destruct (IH _ H) as [H1 | (k0 & v0 & Hin & Hk & Hv)].
  - destruct (setProp_In _ _ _ _ _ H1) as [H2 | H2]; [left; exact H2|].
    right; exists k, v; injection H2 as -> ->; auto.
  - right; exists k0, v0; auto.
Qed.

End Rebuild.

(** Rebuilding a canonical object whose keys and values are fixed points
    gives the object back. *)
Lemma rebuild_fixed {V : Type} (f : jsstring -> jsstring) (g : V -> V)
  (o acc : @object V) :
  canonical (acc ++ o) ->
  (forall k v, In (k, v) o -> f k = k /\ g v = v) ->
  rebuild f g o acc = acc ++ o.
Proof.
  unfold rebuild.
  revert acc; induction o as [|[k v] o IH]; simpl; intros acc Hc Hfix.
  - rewrite app_nil_r; reflexivity.
  - destruct (Hfix k v (or_introl eq_refl)) as [-> ->].
    assert (Hc' : canonical ((acc ++ [(k, v)]) ++ o))
      by (rewrite <- app_assoc; exact Hc).
    rewrite setProp_last by (eapply canonical_prefix; exact Hc').
    rewrite IH; [rewrite <- app_assoc; reflexivity | exact Hc' |].
    intros k0 v0 Hin; apply Hfix; right; exact Hin.
Qed.

(** *** The tokenizer on the spec's examples *)

Example words_helloWorld : words (js "helloWorld") = [js "hello"; js "World"].
Proof. reflexivity. Qed.

Example words_user_id : words (js "user_id") = [js "user"; js "id"].
Proof. reflexivity. Qed.

Example words_IPAddress : words (js "IPAddress") = [js "IP"; js "Address"].
Proof. reflexivity. Qed.

Example words_abc123def :
  words (js "abc123def") = [js "abc"; js "123"; js "def"].
Proof. reflexivity. Qed.

Example toCamelCase_user_id :
  toCamelCase latin1ToLowerCase latin1ToUpperCase (js "user_id") = js "userId".
Proof. reflexivity. Qed.

Example toCamelCase_IPAddress :
  toCamelCase latin1ToLowerCase latin1ToUpperCase (js "IPAddress") = js "iPAddress".
Proof. reflexivity. Qed.

Example toCamelCase_empty :
  toCamelCase latin1ToLowerCase latin1ToUpperCase [] = [].
Proof. reflexivity. Qed.

(** C5, as stated: the tokenizer does not return ["HELL"; "OWorld"] on
    "HELLOWorld". *)
Lemma tokenizer_example_as_stated_fails :
  words (js "HELLOWorld") <> [js "HELL"; js "OWorld"].
Proof. vm_compute; discriminate. Qed.

(** C5, amended: on "HELLOWorld" the tokenizer returns exactly the two
    segments "HELLO" and "World": at the lower-case "o" the buffer "HELLOW"
    is flushed without its last letter, which starts the next word. *)
Theorem words_HELLOWorld :
  words (js "HELLOWorld") = [js "HELLO"; js "World"].
Proof. vm_compute; reflexivity. Qed.

(** *** Key conversion applied twice *)

Section Idempotence.

Variables toLowerCase toUpperCase : jsstring -> jsstring.

Let cc := toCamelCase toLowerCase toUpperCase.
Let norm := toCamelCaseKeys toLowerCase toUpperCase.

Lemma toCamelCaseKeys_object entries :
  norm (JObject entries) = JObject (rebuild cc norm entries []).
Proof. reflexivity. Qed.

Lemma toCamelCaseKeys_array items :
  norm (JArray items) = JArray (map norm items).
Proof. reflexivity. Qed.

End Idempotence.

(** C6, as stated: a value on which normalizing twice differs from
    normalizing once.  The key "1_a_b" becomes "1AB", which has no lower-case
    letter, is lower-cased as a whole by the second pass and becomes "1Ab". *)
Lemma toCamelCaseKeys_not_idempotent :
  let normalizeKeys := toCamelCaseKeys latin1ToLowerCase latin1ToUpperCase in
  let x := JObject [ (js "1_a_b", JBool true) ] in
  normalizeKeys x = JObject [ (js "1AB", JBool true) ] /\
  normalizeKeys (normalizeKeys x) = JObject [ (js "1Ab", JBool true) ] /\
  normalizeKeys (normalizeKeys x) <> normalizeKeys x.
Proof. vm_compute; repeat split; discriminate. Qed.

(** C6, amended: for every JSON value whose keys, at every depth, are
    stable (converting the key a second time does not change it),
    normalizing the value twice equals normalizing it once, whatever the
    platform's case mappings are. *)
Theorem toCamelCaseKeys_idempotent_on_stable_keys
  (toLowerCase toUpperCase : jsstring -> jsstring) (x : json) :
  stableKeys toLowerCase toUpperCase x = true ->
  toCamelCaseKeys toLowerCase toUpperCase
    (toCamelCaseKeys toLowerCase toUpperCase x)
  = toCamelCaseKeys toLowerCase toUpperCase x.
Proof.
  induction x as [| | | |items IH|entries IH] using json_ind;
    try reflexivity; intros Hst.
  - (* an array: element by element *)
    rewrite !toCamelCaseKeys_array, map_map; f_equal.
    simpl in Hst; rewrite forallb_forall in Hst; rewrite Forall_forall in IH.
    apply map_ext_in; intros i Hi; apply IH; [exact Hi | apply Hst, Hi].
  - (* an object: the first pass leaves a canonical object whose keys and
       values the second pass does not change *)
    rewrite toCamelCaseKeys_object, toCamelCaseKeys_object; f_equal.
    rewrite rebuild_fixed; [reflexivity | |].
    + simpl; apply rebuild_canonical; constructor.
    + intros k1 v1 Hin.
      apply rebuild_In in Hin as [[] | (k & v & Hin & -> & ->)].
      simpl in Hst; rewrite forallb_forall in Hst; rewrite Forall_forall in IH.
      specialize (Hst _ Hin); simpl in Hst.
      apply andb_true_iff in Hst as [Hk Hv].
      split; [apply streq_spec; exact Hk | exact (IH _ Hin Hv)].
Qed.

Lemma toCamelCaseKeys_idempotent_on_stable_keys_witness :
  stableKeys latin1ToLowerCase latin1ToUpperCase sampleStatus = true /\
  toCamelCaseKeys latin1ToLowerCase latin1ToUpperCase
    (toCamelCaseKeys latin1ToLowerCase latin1ToUpperCase sampleStatus)
  = toCamelCaseKeys latin1ToLowerCase latin1ToUpperCase sampleStatus.
Proof.
  split; [reflexivity|].
  apply (toCamelCaseKeys_idempotent_on_stable_keys
           latin1ToLowerCase latin1ToUpperCase sampleStatus).
  reflexivity.
Defined.

(** *** The case rules see ASCII letters only *)

Lemma nonAscii_classes (c : N) :
  128 <= c -> isLowerAZ c = false /\ isUpperAZ c = false /\ isDigit c = false.
Proof.
  unfold isLowerAZ, isUpperAZ, isDigit, inRange; intros H.
  repeat split; apply andb_false_iff; right; apply N.leb_gt; lia.
Qed.

Lemma testClass_nonAscii (cls : N -> bool) (s : jsstring) :
  (forall c, 128 <= c -> cls c = false) ->
  Forall (fun c => 128 <= c) s -> testClass cls s = false.
Proof.
  intros Hcls Hs; unfold testClass.
  induction Hs as [|c s Hc _ IH]; simpl; [reflexivity|].
  rewrite (Hcls c Hc), IH; reflexivity.
Qed.

Lemma testClassEnd_snoc (cls : N -> bool) (w : jsstring) (c : N) :
  testClassEnd cls (w ++ [c]) = cls c.
Proof. unfold testClassEnd; rewrite rev_app_distr; reflexivity. Qed.

Lemma testClass2End_snoc2 (cls : N -> bool) (w : jsstring) (c d : N) :
  testClass2End cls (w ++ [c; d]) = cls c && cls d.
Proof. unfold testClass2End; rewrite rev_app_distr; reflexivity. Qed.

Lemma testClass2End_snoc_false (cls : N -> bool) (w : jsstring) (c : N) :
  cls c = false -> testClass2End cls (w ++ [c]) = false.
Proof.
  intros Hc; unfold testClass2End; rewrite rev_app_distr; simpl.
  destruct (rev w); [reflexivity|].
  rewrite Hc; apply andb_false_r.
Qed.

Lemma nonAscii_rules (w character : jsstring) :
  Forall (fun c => 128 <= c) character ->
  lowerToUpper w character = false /\ upperRunToLower w character = false /\
  testClass isDigit character = false.
Proof.
  intros Hch.
  assert (Hup : testClass isUpperAZ character = false)
    by (apply testClass_nonAscii; [intros; apply nonAscii_classes | ]; assumption).
  assert (Hlo : testClass isLowerAZ character = false)
    by (apply testClass_nonAscii; [intros; apply nonAscii_classes | ]; assumption).
  assert (Hdi : testClass isDigit character = false)
    by (apply testClass_nonAscii; [intros; apply nonAscii_classes | ]; assumption).
  unfold lowerToUpper, upperRunToLower.
  rewrite Hup, Hlo, !andb_false_r; auto.
Qed.

(** A character outside ASCII that is not a separator is appended to the
    buffer, unless the buffer ends with a digit. *)
Lemma step_nonAscii (st : wstate) (character : jsstring) :
  Forall (fun c => 128 <= c) character ->
  isSeparator character = false ->
  testClassEnd isDigit (word st) = false ->
  step st character = {| results := results st; word := word st ++ character |}.
Proof.
  intros Hch Hsep Hdig; unfold step.
  destruct (nonAscii_rules (word st) character Hch) as (-> & -> & Hdi).
  unfold digitBoundary; rewrite Hsep, Hdig, Hdi; reflexivity.
Qed.

Lemma testClassEnd_nonAscii (w : jsstring) :
  Forall (fun c => 128 <= c) w -> testClassEnd isDigit w = false.
Proof.
  intros Hw; unfold testClassEnd.
  destruct (rev w) as [|c r] eqn:E; [reflexivity|].
  apply nonAscii_classes.
  rewrite Forall_forall in Hw; apply Hw, in_rev; rewrite E; left; reflexivity.
Qed.

Lemma isSeparator_pair (h l : N) : isSeparator [h; l] = false.
Proof.
  unfold isSeparator, WORD_SEPARATORS.
  induction (0x2D :: 0x5F :: WHITESPACE) as [|x xs IH]; simpl; [reflexivity|].
  rewrite andb_false_r; exact IH.
Qed.

(** The code points of a string without ASCII units and separators: each is
    outside ASCII and no separator, and together they are the string. *)
Lemma codePoints_nonAscii (data : jsstring) :
  Forall (fun c => 128 <= c /\ isSeparator [c] = false) data ->
  Forall (fun ch => Forall (fun c => 128 <= c) ch /\ isSeparator ch = false)
         (codePoints data) /\
  concat (codePoints data) = data.
Proof.
  assert (Hgen : forall n data, (length data <= n)%nat ->
            Forall (fun c => 128 <= c /\ isSeparator [c] = false) data ->
            Forall (fun ch => Forall (fun c => 128 <= c) ch /\ isSeparator ch = false)
                   (codePoints data) /\
            concat (codePoints data) = data).
  { induction n as [|n IH]; intros [|h t] Hlen Hall; simpl in *;
      try (split; [constructor | reflexivity]); [lia|].
    inversion Hall as [|? ? [Hh Hsh] Ht]; subst.
    destruct t as [|l rest].
    - split; [|reflexivity].
      constructor; [split; [constructor; [exact Hh | constructor] | exact Hsh] | constructor].
    - inversion Ht as [|? ? [Hl Hsl] Hrest]; subst.
      destruct (isHighSurrogate h && isLowSurrogate l).
      + destruct (IH rest) as [IH1 IH2]; [simpl in Hlen; lia | exact Hrest |].
        split; [|simpl; rewrite IH2; reflexivity].
        constructor; [|exact IH1].
        split; [repeat constructor; assumption | apply isSeparator_pair].
      + destruct (IH (l :: rest)) as [IH1 IH2]; [simpl in Hlen |- *; lia | exact Ht |].
        split; [|simpl in IH2 |- *; rewrite IH2; reflexivity].
        constructor; [|exact IH1].
        split; [constructor; [exact Hh | constructor] | exact Hsh]. }
  intros H; exact (Hgen (length data) data (le_n _) H).
Qed.

Lemma fold_step_nonAscii (chars : list jsstring) (w : jsstring) :
  Forall (fun ch => Forall (fun c => 128 <= c) ch /\ isSeparator ch = false) chars ->
  Forall (fun c => 128 <= c) w ->
  fold_left step chars {| results := []; word := w |}
  = {| results := []; word := w ++ concat chars |}.
Proof.
  intros Hchars; revert w; induction Hchars as [|ch chars [Hch Hsep] _ IH];
    intros w Hw; simpl.
  - rewrite app_nil_r; reflexivity.
  - rewrite step_nonAscii; simpl;
      [| exact Hch | exact Hsep | apply testClassEnd_nonAscii; exact Hw].
    rewrite IH by (apply Forall_app; split; assumption).
    rewrite <- app_assoc; reflexivity.
Qed.

(** A string of units outside ASCII, none of them a separator, is one
    word, whatever the case of its letters. *)
Lemma words_nonAscii (data : jsstring) :
  Forall (fun c => 128 <= c /\ isSeparator [c] = false) data ->
  data <> [] -> words data = [data].
Proof.
  intros Hall Hne; unfold words.
  destruct (codePoints_nonAscii data Hall) as [Hcp Hcat].
  rewrite fold_step_nonAscii by (exact Hcp || constructor); simpl.
  rewrite Hcat; unfold flush; simpl.
  destruct data; [congruence | reflexivity].
Qed.

(** C10: the case-transition rules of the tokenizer recognize ASCII letters
    only.  A character made of code units outside ASCII (such as 'É' or
    'é') triggers neither the lower-to-upper nor the upper-run-to-lower
    rule, whether it is the incoming character or the letter the buffer
    ends with (or, for the upper-run rule, the one before it); it is
    appended to the buffer unless it is a separator or follows a digit, so
    that a string of such characters is a single word.  And a key without
    an ASCII lower-case letter is lower-cased as a whole before it is
    tokenized, whatever other letters it contains. *)
Theorem case_rules_are_ascii_only
  (toLowerCase toUpperCase : jsstring -> jsstring)
  (st : wstate) (character data : jsstring) :
  Forall (fun c => 128 <= c) character ->
  LOWER_CASE_CHARACTER_RE_test data = false ->
  (forall w, lowerToUpper w character = false /\
             upperRunToLower w character = false) /\
  (forall w c d incoming, 128 <= c ->
     lowerToUpper (w ++ [c]) incoming = false /\
     upperRunToLower (w ++ [c]) incoming = false /\
     upperRunToLower (w ++ [c; d]) incoming = false) /\
  (isSeparator character = false ->
   testClassEnd isDigit (word st) = false ->
   step st character = {| results := results st; word := word st ++ character |}) /\
  (forall s, Forall (fun c => 128 <= c /\ isSeparator [c] = false) s ->
             s <> [] -> words s = [s]) /\
  toCamelCase toLowerCase toUpperCase data
  = concat (mapi (recase toLowerCase toUpperCase) (words (toLowerCase data))).
Proof.
  intros Hch Hdata.
  split; [intros w; destruct (nonAscii_rules w character Hch); tauto|].
  split; [|split; [|split]].
  - intros w c d incoming Hc.
    destruct (nonAscii_classes c Hc) as (Hl & Hu & _).
    unfold lowerToUpper, upperRunToLower.
    rewrite testClassEnd_snoc, Hl, testClass2End_snoc2, Hu.
    rewrite testClass2End_snoc_false by exact Hu.
    auto.
  - intros Hsep Hdig; apply step_nonAscii; assumption.
  - exact words_nonAscii.
  - unfold toCamelCase; rewrite Hdata; reflexivity.
Qed.

(** "é" followed by "É" stays one word where "e" followed by "E" is split,
    and the key "Aé" is lower-cased as a whole. *)
Lemma case_rules_are_ascii_only_witness :
  Forall (fun c => 128 <= c) [0xC9] /\
  LOWER_CASE_CHARACTER_RE_test [65; 0xE9] = false /\
  step {| results := []; word := [0xE9] |} [0xC9]
  = {| results := []; word := [0xE9; 0xC9] |} /\
  words [0xE9; 0xC9] = [[0xE9; 0xC9]] /\
  words (js "eE") = [js "e"; js "E"] /\
  toCamelCase latin1ToLowerCase latin1ToUpperCase [65; 0xE9]
  = concat (mapi (recase latin1ToLowerCase latin1ToUpperCase)
                 (words (latin1ToLowerCase [65; 0xE9]))).
Proof.
  assert (Hch : Forall (fun c => 128 <= c) [0xC9])
    by (constructor; [lia | constructor]).
  assert (Hdata : LOWER_CASE_CHARACTER_RE_test [65; 0xE9] = false)
    by reflexivity.
  pose proof (case_rules_are_ascii_only latin1ToLowerCase latin1ToUpperCase
                {| results := []; word := [0xE9] |} [0xC9] [65; 0xE9]
                Hch Hdata) as (_ & _ & Hstep & Hwords & Hcc).
  split; [exact Hch|].
  split; [exact Hdata|].
  split; [apply Hstep; reflexivity|].
  split; [apply Hwords; [repeat constructor; lia | discriminate]|].
  split; [reflexivity | exact Hcc].
Defined.

(** *** Keys of ASCII units *)

Lemma codePoints_cons2 (h l : N) (rest : jsstring) :
  codePoints (h :: l :: rest)
  = if isHighSurrogate h && isLowSurrogate l
    then [h; l] :: codePoints rest
    else [h] :: codePoints (l :: rest).
Proof. reflexivity. Qed.

Lemma codePoints_ascii (s : jsstring) :
  Forall (fun c => c < 128) s -> codePoints s = map (fun c => [c]) s.
Proof.
  induction s as [|h t IH]; intros Hs; [reflexivity|].
  inversion Hs as [|? ? Hh Ht]; subst.
  destruct t as [|l rest]; [reflexivity|].
  rewrite codePoints_cons2.
  replace (isHighSurrogate h) with false
    by (symmetry; unfold isHighSurrogate, inRange;
        apply andb_false_iff; left; apply N.leb_gt; lia).
  simpl andb; cbv iota; rewrite IH by exact Ht; reflexivity.
Qed.

Lemma words_ascii (s : jsstring) :
  Forall (fun c => c < 128) s ->
  words s
  = results (flush (fold_left (fun st c => step st [c]) s
                              {| results := []; word := [] |})).
Proof.
  intros Hs; unfold words; rewrite codePoints_ascii by exact Hs.
  generalize {| results := []; word := [] |}.
  induction s as [|c s IH]; intros st; [reflexivity|].
  inversion Hs; subst; simpl; apply IH; assumption.
Qed.

Lemma testClass_unit (cls : N -> bool) (c : N) : testClass cls [c] = cls c.
Proof. unfold testClass; simpl; apply orb_false_r. Qed.

Lemma testClassEnd_last (cls : N -> bool) (w : jsstring) :
  w <> [] -> testClassEnd cls w = cls (last w 0).
Proof.
  intros Hw; rewrite (app_removelast_last 0 Hw) at 1.
  apply testClassEnd_snoc.
Qed.

Lemma testClassEnd_nil (cls : N -> bool) : testClassEnd cls [] = false.
Proof. reflexivity. Qed.

(** The buffer on which the upper-run rule fires: at least two units, the
    last one upper-case. *)
Lemma testClass2End_inv (w : jsstring) :
  testClass2End isUpperAZ w = true ->
  exists init x,
    w = init ++ [x] /\ init <> [] /\ isUpperAZ x = true /\
    isUpperAZ (last init 0) = true /\
    sliceInit w = init /\ sliceLast w = [x].
Proof.
  unfold testClass2End, sliceInit, sliceLast.
  destruct (rev w) as [|c2 [|c1 r]] eqn:E; try discriminate.
  intros H; apply andb_true_iff in H as [H1 H2].
  assert (Hw : w = (rev r ++ [c1]) ++ [c2]).
  { rewrite <- (rev_involutive w), E; simpl; reflexivity. }
  exists (rev r ++ [c1]), c2.
  split; [exact Hw|].
  split; [destruct (rev r); discriminate|].
  split; [exact H2|].
  split; [rewrite last_last; exact H1|].
  split; [rewrite Hw at 1; apply removelast_last | reflexivity].
Qed.

Lemma flush_nonempty (st : wstate) :
  word st <> [] ->
  flush st = {| results := results st ++ [word st]; word := [] |}.
Proof. unfold flush; destruct (word st); [congruence | reflexivity]. Qed.

Lemma flush_empty (st : wstate) : word st = [] -> flush st = st.
Proof. unfold flush; intros ->; reflexivity. Qed.

Lemma word_flush (st : wstate) : word (flush st) = [].
Proof.
  unfold flush; destruct (word st) eqn:E; simpl; [exact E | reflexivity].
Qed.

(** The three ways a unit that is no separator changes the state: a word
    boundary before the unit, the upper-run boundary one unit earlier, or
    no boundary. *)
Lemma step_unit_cases (st : wstate) (c : N) :
  isSeparator [c] = false ->
  (step st [c] = {| results := results (flush st); word := [c] |} /\
   (testClassEnd isLowerAZ (word st) = true /\ isUpperAZ c = true
    \/ testClassEnd isDigit (word st) <> isDigit c))
  \/ (exists init x,
        word st = init ++ [x] /\ init <> [] /\ isUpperAZ x = true /\
        isLowerAZ c = true /\
        step st [c] = {| results := results st ++ [init]; word := [x; c] |})
  \/ (step st [c] = {| results := results st; word := word st ++ [c] |} /\
      testClassEnd isDigit (word st) = isDigit c).
Proof.
  intros Hsep; unfold step; rewrite Hsep.
  unfold lowerToUpper, upperRunToLower, digitBoundary; rewrite !testClass_unit.
  destruct (testClassEnd isLowerAZ (word st) && isUpperAZ c) eqn:R1.
  - left; apply andb_true_iff in R1.
    split; [|left; exact R1].
    rewrite word_flush; reflexivity.
  - destruct (testClass2End isUpperAZ (word st) && isLowerAZ c) eqn:R2.
    + right; left; apply andb_true_iff in R2 as [R2 Hc].
      destruct (testClass2End_inv _ R2) as (init & x & Hw & Hi & Hx & _ & Hs1 & Hs2).
      exists init, x; repeat (split; [assumption|]).
      rewrite Hs1, Hs2; simpl.
      rewrite flush_nonempty by exact Hi; reflexivity.
    + destruct (Bool.eqb (testClassEnd isDigit (word st)) (isDigit c)) eqn:R3; simpl.
      * right; right; split; [reflexivity | apply eqb_prop; exact R3].
      * left; split.
        -- rewrite word_flush; reflexivity.
        -- right; intros H; rewrite H, eqb_reflx in R3; discriminate.
Qed.

Lemma upper_not_lower (c : N) : isUpperAZ c = true -> isLowerAZ c = false.
Proof.
  unfold isUpperAZ, isLowerAZ, inRange; intros H.
  apply andb_true_iff in H as [_ H]; apply N.leb_le in H.
  apply andb_false_iff; left; apply N.leb_gt; lia.
Qed.

Lemma digit_not_lower (c : N) : isDigit c = true -> isLowerAZ c = false.
Proof.
  unfold isDigit, isLowerAZ, inRange; intros H.
  apply andb_true_iff in H as [_ H]; apply N.leb_le in H.
  apply andb_false_iff; left; apply N.leb_gt; lia.
Qed.

Lemma lower_not_digit (c : N) : isLowerAZ c = true -> isDigit c = false.
Proof.
  intros H; destruct (isDigit c) eqn:E; [|reflexivity].
  rewrite (digit_not_lower c E) in H; discriminate.
Qed.

Lemma upper_not_digit (c : N) : isUpperAZ c = true -> isDigit c = false.
Proof.
  unfold isDigit, isUpperAZ, inRange; intros H.
  apply andb_true_iff in H as [H _]; apply N.leb_le in H.
  apply andb_false_iff; right; apply N.leb_gt; lia.
Qed.

(** **** Tokenizing a string without separators

    One step on a state whose buffer is not empty: the words so far, the
    buffer included, are extended by the unit, and every word that the step
    starts begins with a unit that is not a lower-case letter. *)
Lemma step_retokenize (st : wstate) (c : N) :
  word st <> [] -> isSeparator [c] = false ->
  (testClassEnd isDigit (word st) = true -> isLowerAZ c = false) ->
  word (step st [c]) <> [] /\
  concat (results (step st [c]) ++ [word (step st [c])])
  = concat (results st ++ [word st]) ++ [c] /\
  (exists extra,
     map (hd 0) (results (step st [c]) ++ [word (step st [c])])
     = map (hd 0) (results st ++ [word st]) ++ extra /\
     Forall (fun h => isLowerAZ h = false) extra) /\
  (Forall (fun w => w <> []) (results st) ->
   Forall (fun w => w <> []) (results (step st [c]))) /\
  testClassEnd isDigit (word (step st [c])) = isDigit c.
Proof.
  intros Hw Hsep Hadj.
  destruct (step_unit_cases st c Hsep)
    as [[-> Hwhy] | [(init & x & Hword & Hinit & Hx & Hc & ->) | [-> Hsame]]];
    simpl.
  - rewrite flush_nonempty by exact Hw; simpl.
    split; [discriminate|].
    split; [rewrite !concat_app; simpl; rewrite !app_nil_r; reflexivity|].
    split; [|split; [|reflexivity]].
    + exists [c]; split; [rewrite !map_app; reflexivity|].
      constructor; [|constructor].
      destruct Hwhy as [[_ Hup] | Hdig]; [apply upper_not_lower; exact Hup|].
      destruct (testClassEnd isDigit (word st)) eqn:E; [apply Hadj; reflexivity|].
      apply digit_not_lower; destruct (isDigit c); congruence.
    + intros Hne; apply Forall_app; split; [exact Hne|].
      constructor; [exact Hw | constructor].
  - split; [discriminate|].
    split; [rewrite Hword, !concat_app; simpl; rewrite !app_nil_r, <- !app_assoc;
            reflexivity|].
    split; [|split; [|reflexivity]].
    + exists [x]; split.
      * rewrite Hword, !map_app; simpl.
        destruct init; [congruence | rewrite <- !app_assoc; reflexivity].
      * constructor; [apply upper_not_lower; exact Hx | constructor].
    + intros Hne; apply Forall_app; split; [exact Hne|].
      constructor; [exact Hinit | constructor].
  - split; [destruct (word st); discriminate|].
    split; [rewrite !concat_app; simpl; rewrite !app_nil_r, <- !app_assoc;
            reflexivity|].
    split; [|split; [tauto | apply testClassEnd_snoc]].
    exists []; split; [|constructor].
    rewrite !map_app, app_nil_r; simpl.
    destruct (word st); [congruence | reflexivity].
Qed.

Lemma fold_retokenize (r : jsstring) (st : wstate) :
  word st <> [] -> Forall (fun w => w <> []) (results st) ->
  Forall wordUnit r ->
  noLowerAfterDigit (testClassEnd isDigit (word st)) r ->
  let st' := fold_left (fun st c => step st [c]) r st in
  word st' <> [] /\ Forall (fun w => w <> []) (results st') /\
  concat (results st' ++ [word st']) = concat (results st ++ [word st]) ++ r /\
  exists extra,
    map (hd 0) (results st' ++ [word st'])
    = map (hd 0) (results st ++ [word st]) ++ extra /\
    Forall (fun h => isLowerAZ h = false) extra.
Proof.
  revert st; induction r as [|c r IH]; intros st Hw Hne Hr Hadj; simpl.
  - split; [exact Hw|]; split; [exact Hne|].
    split; [rewrite app_nil_r; reflexivity|].
    exists []; split; [rewrite app_nil_r; reflexivity | constructor].
  - inversion Hr as [|? ? [_ Hsep] Hr']; subst.
    destruct Hadj as [Hc Hadj].
    destruct (step_retokenize st c Hw Hsep Hc)
      as (Hw1 & Hcat1 & (e1 & Hh1 & He1) & Hne1 & Hd1).
    rewrite <- Hd1 in Hadj.
    destruct (IH (step st [c]) Hw1 (Hne1 Hne) Hr' Hadj)
      as (Hw2 & Hne2 & Hcat2 & (e2 & Hh2 & He2)).
    split; [exact Hw2|]; split; [exact Hne2|].
    split; [rewrite Hcat2, Hcat1, <- app_assoc; reflexivity|].
    exists (e1 ++ e2); split; [rewrite Hh2, Hh1, <- app_assoc; reflexivity|].
    apply Forall_app; split; assumption.
Qed.

(** **** Tokenizing an ASCII string *)

Lemma asciiWord_unit (c : N) : wordUnit c -> asciiWord [c].
Proof.
  intros Hc; split; [discriminate|].
  split; [constructor; [exact Hc | constructor]|].
  constructor; [reflexivity | constructor].
Qed.

Lemma uniform_last (w : jsstring) :
  w <> [] -> uniform w -> isDigit (last w 0) = isDigit (hd 0 w).
Proof.
  intros Hw Hu; unfold uniform in Hu; rewrite Forall_forall in Hu.
  apply Hu; rewrite (app_removelast_last 0 Hw) at 2.
  apply in_app_iff; right; left; reflexivity.
Qed.

Lemma asciiWord_init (init : jsstring) (x : N) :
  init <> [] -> asciiWord (init ++ [x]) -> asciiWord init /\ wordUnit x.
Proof.
  intros Hi (_ & Hunits & Hu).
  apply Forall_app in Hunits as [Hinit Hx].
  inversion Hx; subst.
  split; [|assumption].
  split; [exact Hi|]; split; [exact Hinit|].
  unfold uniform in *.
  apply Forall_app in Hu as [Hu _].
  destruct init; [congruence | exact Hu].
Qed.

Lemma asciiWord_snoc (w : jsstring) (c : N) :
  asciiWord w -> wordUnit c -> testClassEnd isDigit w = isDigit c ->
  asciiWord (w ++ [c]).
Proof.
  intros (Hw & Hunits & Hu) Hc Hd.
  split; [destruct w; discriminate|].
  split; [apply Forall_app; split; [exact Hunits | constructor; [exact Hc | constructor]]|].
  assert (Hhd : hd 0 (w ++ [c]) = hd 0 w) by (destruct w; [congruence | reflexivity]).
  unfold uniform; rewrite Hhd.
  apply Forall_app; split; [exact Hu|].
  constructor; [|constructor].
  rewrite <- Hd, testClassEnd_last by exact Hw.
  apply uniform_last; assumption.
Qed.

(** One step on a unit that is no separator keeps the words well formed
    and appends the unit to their concatenation. *)
Lemma step_ascii (st : wstate) (c : N) :
  wordUnit c ->
  Forall asciiWord (results st) -> (word st = [] \/ asciiWord (word st)) ->
  Forall asciiWord (results (step st [c])) /\
  asciiWord (word (step st [c])) /\
  concat (results (step st [c]) ++ [word (step st [c])])
  = concat (results st ++ [word st]) ++ [c].
Proof.
  intros Hc Hres Hword.
  destruct (step_unit_cases st c (proj2 Hc))
    as [[-> _] | [(init & x & Hw & Hinit & Hx & Hlc & ->) | [-> Hsame]]];
    simpl.
  - split; [|split; [apply asciiWord_unit; exact Hc|]].
    + destruct Hword as [He | Ha].
      * rewrite flush_empty by exact He; exact Hres.
      * rewrite flush_nonempty by apply Ha; simpl.
        apply Forall_app; split; [exact Hres | constructor; [exact Ha | constructor]].
    + destruct Hword as [He | Ha].
      * rewrite flush_empty by exact He.
        rewrite He, !concat_app; simpl; rewrite !app_nil_r; reflexivity.
      * rewrite flush_nonempty by apply Ha; simpl.
        rewrite !concat_app; simpl; rewrite !app_nil_r; reflexivity.
  - destruct Hword as [He | Ha];
      [rewrite He in Hw; destruct init; discriminate|].
    rewrite Hw in Ha.
    destruct (asciiWord_init init x Hinit Ha) as [Hi Hxu].
    split; [apply Forall_app; split; [exact Hres | constructor; [exact Hi | constructor]]|].
    split.
    + split; [discriminate|].
      split; [constructor; [exact Hxu | constructor; [exact Hc | constructor]]|].
      constructor; [reflexivity|]; constructor; [|constructor]; simpl.
      rewrite (lower_not_digit c Hlc), (upper_not_digit x Hx); reflexivity.
    + rewrite Hw, !concat_app; simpl; rewrite !app_nil_r, <- !app_assoc; reflexivity.
  - split; [exact Hres|].
    split.
    + destruct Hword as [He | Ha];
        [rewrite He; apply asciiWord_unit; exact Hc|].
      apply asciiWord_snoc; assumption.
    + rewrite !concat_app; simpl; rewrite !app_nil_r, <- !app_assoc; reflexivity.
Qed.

Lemma fold_ascii (r : jsstring) (st : wstate) :
  Forall (fun c => c < 128) r ->
  Forall asciiWord (results st) -> (word st = [] \/ asciiWord (word st)) ->
  let st' := fold_left (fun st c => step st [c]) r st in
  Forall asciiWord (results st') /\ (word st' = [] \/ asciiWord (word st')) /\
  concat (results st' ++ [word st'])
  = concat (results st ++ [word st]) ++ filter notSeparator r.
Proof.
  revert st; induction r as [|c r IH]; intros st Hr Hres Hword; simpl.
  - split; [exact Hres|]; split; [exact Hword|]; rewrite app_nil_r; reflexivity.
  - inversion Hr as [|? ? Hc Hr']; subst.
    unfold notSeparator at 1; destruct (isSeparator [c]) eqn:Hsep; simpl.
    + assert (Hstep : step st [c] = flush st) by (unfold step; rewrite Hsep; reflexivity).
      rewrite Hstep.
      destruct (IH (flush st) Hr') as (H1 & H2 & H3).
      * destruct Hword as [He | Ha]; [rewrite flush_empty by exact He; exact Hres|].
        rewrite flush_nonempty by apply Ha; simpl.
        apply Forall_app; split; [exact Hres | constructor; [exact Ha | constructor]].
      * left; apply word_flush.
      * split; [exact H1|]; split; [exact H2|].
        rewrite H3; f_equal.
        destruct Hword as [He | Ha]; [rewrite flush_empty by exact He; reflexivity|].
        rewrite flush_nonempty by apply Ha; simpl.
        rewrite !concat_app; simpl; rewrite !app_nil_r; reflexivity.
    + destruct (step_ascii st c (conj Hc Hsep) Hres Hword) as (S1 & S2 & S3).
      destruct (IH (step st [c]) Hr' S1 (or_intror S2)) as (H1 & H2 & H3).
      split; [exact H1|]; split; [exact H2|].
      rewrite H3, S3, <- app_assoc; reflexivity.
Qed.

(** The words of an ASCII string are well formed, and together they are
    the string without its separators. *)
Lemma words_ascii_spec (s : jsstring) :
  Forall (fun c => c < 128) s ->
  Forall asciiWord (words s) /\ concat (words s) = filter notSeparator s.
Proof.
  intros Hs; rewrite words_ascii by exact Hs.
  destruct (fold_ascii s {| results := []; word := [] |} Hs)
    as (H1 & H2 & H3); [constructor | left; reflexivity |].
  set (st' := fold_left (fun st c => step st [c]) s
                        {| results := []; word := [] |}) in *.
  simpl in H3.
  destruct H2 as [He | Ha].
  - rewrite flush_empty by exact He.
    split; [exact H1|].
    rewrite <- H3, He, concat_app; simpl; rewrite app_nil_r; reflexivity.
  - rewrite flush_nonempty by apply Ha; simpl.
    split; [|exact H3].
    apply Forall_app; split; [exact H1 | constructor; [exact Ha | constructor]].
Qed.

Lemma Forall_concat_inv {A : Type} (P : A -> Prop) (l : list (list A)) :
  Forall P (concat l) -> Forall (Forall P) l.
Proof.
  induction l as [|x l IH]; simpl; intros H; [constructor|].
  apply Forall_app in H as [Hx Hl]; constructor; [exact Hx | apply IH, Hl].
Qed.

Lemma separator_cases (c : N) :
  isSeparator [c] = true -> c = 45 \/ c = 95 \/ c <= 32 \/ 133 <= c.
Proof.
  intros H; unfold isSeparator in H.
  apply existsb_exists in H as (x & Hin & Heq).
  apply streq_spec in Heq; subst x.
  unfold WORD_SEPARATORS in Hin.
  apply in_map_iff in Hin as (y & Hy & Hin).
  injection Hy as ->.
  unfold WHITESPACE in Hin; simpl in Hin.
  repeat (destruct Hin as [<- | Hin]; [lia|]).
  contradiction.
Qed.

Lemma letter_range (c : N) :
  isLetterAZ c = true <-> (97 <= c <= 122 \/ 65 <= c <= 90).
Proof.
  unfold isLetterAZ, isLowerAZ, isUpperAZ, inRange.
  rewrite orb_true_iff, !andb_true_iff, !N.leb_le; tauto.
Qed.

Lemma lower_range (c : N) : isLowerAZ c = true <-> 97 <= c <= 122.
Proof.
  unfold isLowerAZ, inRange; rewrite andb_true_iff, !N.leb_le; tauto.
Qed.

Lemma upper_range (c : N) : isUpperAZ c = true <-> 65 <= c <= 90.
Proof.
  unfold isUpperAZ, inRange; rewrite andb_true_iff, !N.leb_le; tauto.
Qed.

Lemma digit_range (c : N) : isDigit c = true <-> 48 <= c <= 57.
Proof.
  unfold isDigit, inRange; rewrite andb_true_iff, !N.leb_le; tauto.
Qed.

Lemma not_separator_in_range (c : N) :
  33 <= c <= 132 -> c <> 45 -> c <> 95 -> isSeparator [c] = false.
Proof.
  intros Hr H1 H2; destruct (isSeparator [c]) eqn:E; [|reflexivity].
  apply separator_cases in E; lia.
Qed.

Lemma bool_eq_iff (a b : bool) : (a = true <-> b = true) -> a = b.
Proof.
  destruct a, b; intros [H1 H2]; try reflexivity;
    [specialize (H1 eq_refl) | specialize (H2 eq_refl)]; discriminate.
Qed.

(** The case mappings of one unit keep what the tokenizer looks at, except
    the case. *)
Lemma lowerAZ_facts (c : N) :
  (c < 128 -> lowerAZ c < 128) /\
  isSeparator [lowerAZ c] = isSeparator [c] /\
  isDigit (lowerAZ c) = isDigit c /\
  isUpperAZ (lowerAZ c) = false /\
  isLetterAZ (lowerAZ c) = isLetterAZ c /\
  (isLetterAZ c = true -> isLowerAZ (lowerAZ c) = true).
Proof.
  unfold lowerAZ; destruct (isUpperAZ c) eqn:E.
  - apply upper_range in E.
    split; [lia|].
    split; [rewrite !not_separator_in_range by lia; reflexivity|].
    split; [apply bool_eq_iff; rewrite !digit_range; lia|].
    split; [apply not_true_is_false; rewrite upper_range; lia|].
    split; [apply bool_eq_iff; rewrite !letter_range; lia|].
    intros _; apply lower_range; lia.
  - split; [tauto|]; split; [reflexivity|]; split; [reflexivity|].
    split; [exact E|]; split; [reflexivity|].
    unfold isLetterAZ; rewrite E, orb_false_r; tauto.
Qed.

Lemma upperAZ_facts (c : N) :
  (c < 128 -> upperAZ c < 128) /\
  isSeparator [upperAZ c] = isSeparator [c] /\
  isDigit (upperAZ c) = isDigit c /\
  isLowerAZ (upperAZ c) = false.
Proof.
  unfold upperAZ; destruct (isLowerAZ c) eqn:E.
  - apply lower_range in E.
    split; [lia|].
    split; [rewrite !not_separator_in_range by lia; reflexivity|].
    split; [apply bool_eq_iff; rewrite !digit_range; lia|].
    apply not_true_is_false; rewrite lower_range; lia.
  - split; [tauto|]; split; [reflexivity|]; split; [reflexivity | exact E].
Qed.

(** **** No lower-case letter after a digit *)

Lemma noLowerAfterDigit_run (d : bool) (t rest : jsstring) :
  Forall (fun c => isDigit c = d) t ->
  noLowerAfterDigit d rest -> noLowerAfterDigit d (t ++ rest).
Proof.
  intros Ht Hrest; induction Ht as [|c t Hc _ IH]; simpl; [exact Hrest|].
  split; [intros ->; apply digit_not_lower; exact Hc | rewrite Hc; exact IH].
Qed.

Lemma noLowerAfterDigit_word (prev : bool) (w rest : jsstring) :
  w <> [] -> uniform w ->
  (prev = true -> isLowerAZ (hd 0 w) = false) ->
  noLowerAfterDigit (isDigit (hd 0 w)) rest ->
  noLowerAfterDigit prev (w ++ rest).
Proof.
  destruct w as [|h t]; [congruence|]; intros _ Hu Hh Hrest; simpl in *.
  split; [exact Hh|].
  inversion Hu; subst.
  apply noLowerAfterDigit_run; assumption.
Qed.

Lemma noLowerAfterDigit_concat (prev : bool) (ws : list jsstring) :
  Forall (fun w => w <> [] /\ uniform w /\ isLowerAZ (hd 0 w) = false) ws ->
  noLowerAfterDigit prev (concat ws).
Proof.
  intros Hws; revert prev; induction Hws as [|w ws (Hne & Hu & Hh) _ IH];
    intros prev; simpl; [exact I|].
  apply noLowerAfterDigit_word; auto.
Qed.

Lemma letterInitial_filter (k : jsstring) :
  letterInitial k = true ->
  filter notSeparator k = [] \/ isLetterAZ (hd 0 (filter notSeparator k)) = true.
Proof.
  unfold notSeparator.
  induction k as [|c k IH]; simpl; [auto|].
  destruct (isSeparator [c]); simpl; [exact IH | intros H; right; exact H].
Qed.

Section AsciiKeys.

Variables toLowerCase toUpperCase : jsstring -> jsstring.

(** The case mappings of the platform on ASCII. *)
Hypothesis toLowerCase_ascii :
  forall s, Forall (fun c => c < 128) s -> toLowerCase s = map lowerAZ s.
Hypothesis toUpperCase_ascii :
  forall c, c < 128 -> toUpperCase [c] = [upperAZ c].

Let recase' := recase toLowerCase toUpperCase.
Let cc := toCamelCase toLowerCase toUpperCase.

Lemma recase_first (w : jsstring) :
  w <> [] -> hd 0 w < 128 -> recase' w 0 = lowerAZ (hd 0 w) :: tl w.
Proof.
  destruct w as [|c t]; [congruence|]; simpl; intros _ Hc.
  unfold recase', recase; simpl.
  rewrite toLowerCase_ascii by (constructor; [exact Hc | constructor]).
  reflexivity.
Qed.

Lemma recase_rest (w : jsstring) (i : nat) :
  w <> [] -> hd 0 w < 128 -> recase' w (S i) = upperAZ (hd 0 w) :: tl w.
Proof.
  destruct w as [|c t]; [congruence|]; simpl; intros _ Hc.
  unfold recase', recase; simpl.
  rewrite toUpperCase_ascii by exact Hc.
  reflexivity.
Qed.

Lemma mapi_from_recase_rest (ws : list jsstring) (i : nat) :
  Forall (fun w => w <> [] /\ hd 0 w < 128) ws ->
  mapi_from recase' (S i) ws = map (fun w => upperAZ (hd 0 w) :: tl w) ws.
Proof.
  revert i; induction ws as [|w ws IH]; intros i Hws; [reflexivity|].
  inversion Hws as [|? ? [Hne Hc] Hws']; subst; simpl.
  rewrite recase_rest, IH by assumption; reflexivity.
Qed.

(** Converting the words of a string back: only the first unit of each word
    is changed. *)
Lemma mapi_recase (w0 : jsstring) (ws : list jsstring) :
  Forall (fun w => w <> [] /\ hd 0 w < 128) (w0 :: ws) ->
  mapi recase' (w0 :: ws)
  = (lowerAZ (hd 0 w0) :: tl w0)
    :: map (fun w => upperAZ (hd 0 w) :: tl w) ws.
Proof.
  intros H; inversion H as [|? ? [Hne Hc] Hws]; subst.
  unfold mapi; simpl.
  rewrite recase_first, mapi_from_recase_rest by assumption; reflexivity.
Qed.

Lemma map_upper_fixed (ws : list jsstring) :
  Forall (fun w => w <> []) ws ->
  Forall (fun h => isLowerAZ h = false) (map (hd 0) ws) ->
  map (fun w => upperAZ (hd 0 w) :: tl w) ws = ws.
Proof.
  induction ws as [|w ws IH]; intros Hne Hh; [reflexivity|].
  inversion Hne; inversion Hh; subst; simpl.
  rewrite IH by assumption.
  destruct w as [|c t]; [congruence|]; simpl in *.
  unfold upperAZ; replace (isLowerAZ c) with false by (symmetry; assumption).
  reflexivity.
Qed.

(** A string without separators that does not begin with an upper-case
    letter and in which no lower-case letter follows a digit is put together
    again from its words. *)
Lemma retokenize (s : jsstring) :
  Forall wordUnit s -> isUpperAZ (hd 0 s) = false ->
  noLowerAfterDigit false s ->
  concat (mapi recase' (words s)) = s.
Proof.
  intros Hs Hhd Hadj.
  assert (Hascii : Forall (fun c => c < 128) s)
    by (eapply Forall_impl; [|exact Hs]; intros c [H _]; exact H).
  rewrite words_ascii by exact Hascii.
  destruct s as [|c0 r]; [reflexivity|].
  inversion Hs as [|? ? [Hc0 Hsep0] Hr]; subst.
  destruct Hadj as [_ Hadj].
  assert (Hfirst : step {| results := []; word := [] |} [c0]
                   = {| results := []; word := [c0] |}).
  { destruct (step_unit_cases {| results := []; word := [] |} c0 Hsep0)
      as [[-> _] | [(init & x & Hword & _) | [-> _]]]; try reflexivity.
    simpl in Hword; destruct init; discriminate. }
  simpl fold_left; rewrite Hfirst.
  destruct (fold_retokenize r {| results := []; word := [c0] |})
    as (Hw & Hne & Hcat & (extra & Hheads & Hextra));
    [discriminate | constructor | exact Hr | exact Hadj |].
  set (st' := fold_left (fun st c => step st [c]) r
                        {| results := []; word := [c0] |}) in *.
  rewrite flush_nonempty by exact Hw; simpl in *.
  assert (Hall : Forall (fun w => w <> []) (results st' ++ [word st']))
    by (apply Forall_app; split; [exact Hne | constructor; [exact Hw | constructor]]).
  assert (Hunits : Forall (Forall (fun c => c < 128)) (results st' ++ [word st']))
    by (apply Forall_concat_inv; rewrite Hcat; exact Hascii).
  destruct (results st' ++ [word st']) as [|w0 ws] eqn:E;
    [destruct (results st'); discriminate|].
  simpl in Hheads; injection Hheads as Hh0 Hhs.
  inversion Hall as [|? ? Hw0 Hws]; subst.
  rewrite mapi_recase.
  - rewrite map_upper_fixed by (rewrite ?Hhs; assumption).
    destruct w0 as [|h t]; [congruence|]; simpl in *.
    unfold lowerAZ; rewrite Hhd; exact Hcat.
  - rewrite Forall_forall in Hall, Hunits |- *; intros w Hin.
    split; [apply Hall, Hin|].
    specialize (Hunits w Hin); specialize (Hall w Hin).
    destruct w; [congruence | inversion Hunits; assumption].
Qed.

Lemma Forall_concat_intro {A : Type} (P : A -> Prop) (l : list (list A)) :
  Forall (Forall P) l -> Forall P (concat l).
Proof.
  induction 1 as [|x l Hx _ IH]; simpl; [constructor|].
  apply Forall_app; split; assumption.
Qed.

Lemma uniform_head (f : N -> N) (w : jsstring) :
  w <> [] -> uniform w -> isDigit (f (hd 0 w)) = isDigit (hd 0 w) ->
  uniform (f (hd 0 w) :: tl w).
Proof.
  destruct w as [|h t]; [congruence|]; unfold uniform; simpl; intros _ Hu Hf.
  inversion Hu; subst.
  constructor; [reflexivity|].
  eapply Forall_impl; [|eassumption]; simpl; intros c Hc; congruence.
Qed.

Lemma wordUnit_head (f : N -> N) (w : jsstring) :
  w <> [] -> Forall wordUnit w ->
  (hd 0 w < 128 -> f (hd 0 w) < 128) ->
  isSeparator [f (hd 0 w)] = isSeparator [hd 0 w] ->
  Forall wordUnit (f (hd 0 w) :: tl w).
Proof.
  destruct w as [|h t]; [congruence|]; simpl; intros _ Hw Hlt Hsep.
  inversion Hw as [|? ? [Hh Hs] Ht]; subst.
  constructor; [split; [auto | congruence] | exact Ht].
Qed.

(** The shape of a converted ASCII key that begins with a letter: it is
    empty, or it has no separator, begins with a lower-case letter and has
    no lower-case letter after a digit. *)
Lemma toCamelCase_shape (d : jsstring) :
  Forall (fun c => c < 128) d -> letterInitial d = true ->
  let s1 := concat (mapi recase' (words d)) in
  s1 = [] \/
  (Forall wordUnit s1 /\ isLowerAZ (hd 0 s1) = true /\
   noLowerAfterDigit false s1).
Proof.
  intros Hd Hli s1; subst s1.
  destruct (words_ascii_spec d Hd) as [Hws Hcat].
  destruct (words d) as [|w0 ws] eqn:E; [left; reflexivity|right].
  assert (Hall : Forall (fun w => w <> [] /\ hd 0 w < 128) (w0 :: ws)).
  { eapply Forall_impl; [|exact Hws]; intros w (Hne & Hu & _).
    split; [exact Hne|]; destruct w; [congruence|].
    inversion Hu as [|? ? [H _] _]; exact H. }
  rewrite mapi_recase by exact Hall.
  inversion Hws as [|? ? (Hne0 & Hu0 & Hun0) Hws']; subst.
  assert (Hletter : isLetterAZ (hd 0 w0) = true).
  { destruct (letterInitial_filter d Hli) as [He | Hl].
    - rewrite He in Hcat; destruct w0; [congruence | discriminate].
    - rewrite <- Hcat in Hl; destruct w0; [congruence | exact Hl]. }
  destruct (lowerAZ_facts (hd 0 w0)) as (L1 & L2 & L3 & _ & _ & L6).
  assert (Hrest : Forall (fun w => w <> [] /\ Forall wordUnit w /\ uniform w
                                   /\ isLowerAZ (hd 0 w) = false)
                         (map (fun w => upperAZ (hd 0 w) :: tl w) ws)).
  { apply Forall_map.
    eapply Forall_impl; [|exact Hws']; intros w (Hne & Hu & Hun).
    destruct (upperAZ_facts (hd 0 w)) as (U1 & U2 & U3 & U4).
    split; [discriminate|].
    split; [apply wordUnit_head; assumption|].
    split; [apply (uniform_head upperAZ); assumption | exact U4]. }
  rewrite concat_cons.
  split; [|split].
  - apply Forall_app; split.
    + apply (wordUnit_head lowerAZ w0); assumption.
    + apply Forall_concat_intro.
      eapply Forall_impl; [|exact Hrest]; intros w (_ & H & _); exact H.
  - simpl; apply L6, Hletter.
  - apply (noLowerAfterDigit_word false (lowerAZ (hd 0 w0) :: tl w0));
      [discriminate | apply (uniform_head lowerAZ); assumption | discriminate |].
    apply noLowerAfterDigit_concat.
    eapply Forall_impl; [|exact Hrest]; intros w (H1 & _ & H3 & H4); auto.
Qed.

Lemma letterInitial_lower (k : jsstring) :
  letterInitial (map lowerAZ k) = letterInitial k.
Proof.
  induction k as [|c k IH]; simpl; [reflexivity|].
  destruct (lowerAZ_facts c) as (_ & -> & _ & _ & -> & _).
  rewrite IH; reflexivity.
Qed.

(** An ASCII key whose first unit after the leading separators is a letter
    is converted to a key that a second conversion leaves unchanged. *)
Lemma toCamelCase_letter_key (k : jsstring) :
  Forall (fun c => c < 128) k -> letterInitial k = true -> cc (cc k) = cc k.
Proof.
  intros Hk Hli.
  set (d := if LOWER_CASE_CHARACTER_RE_test k then k else toLowerCase k).
  assert (Hd : Forall (fun c => c < 128) d /\ letterInitial d = true).
  { subst d; destruct (LOWER_CASE_CHARACTER_RE_test k); [auto|].
    rewrite toLowerCase_ascii by exact Hk.
    split; [|rewrite letterInitial_lower; exact Hli].
    apply Forall_map; eapply Forall_impl; [|exact Hk].
    intros c; apply lowerAZ_facts. }
  assert (Hcc : cc k = concat (mapi recase' (words d))) by reflexivity.
  rewrite Hcc.
  destruct (toCamelCase_shape d (proj1 Hd) (proj2 Hd)) as [He | (H1 & H2 & H3)].
  - rewrite He; unfold cc, toCamelCase; simpl.
    rewrite toLowerCase_ascii by constructor; reflexivity.
  - set (s1 := concat (mapi recase' (words d))) in *.
    assert (Hlow : LOWER_CASE_CHARACTER_RE_test s1 = true).
    { unfold LOWER_CASE_CHARACTER_RE_test, testClass.
      destruct s1 as [|c t]; [discriminate H2|]; simpl in *.
      rewrite H2; reflexivity. }
    unfold cc, toCamelCase; rewrite Hlow.
    apply retokenize; [exact H1 | | exact H3].
    destruct (isUpperAZ (hd 0 s1)) eqn:E; [|reflexivity].
    rewrite (upper_not_lower _ E) in H2; discriminate.
Qed.

Lemma stableKey_letter_key (k : jsstring) :
  asciiKey k = true -> letterInitial k = true ->
  stableKey toLowerCase toUpperCase k = true.
Proof.
  intros Ha Hl; unfold stableKey; apply streq_spec.
  apply toCamelCase_letter_key; [|exact Hl].
  unfold asciiKey in Ha; rewrite forallb_forall in Ha.
  apply Forall_forall; intros c Hc; apply N.ltb_lt, Ha, Hc.
Qed.

(** A value whose keys are ASCII keys that begin with a letter has stable
    keys: the conversion of its keys is idempotent on it. *)
Lemma stableKeys_letterKeys (x : json) :
  letterKeys x = true -> stableKeys toLowerCase toUpperCase x = true.
Proof.
  induction x as [| | | |items IH|entries IH] using json_ind;
    try reflexivity; simpl; intros H.
  - rewrite forallb_forall in H |- *; rewrite Forall_forall in IH.
    intros i Hi; apply IH; [exact Hi | apply H, Hi].
  - rewrite forallb_forall in H |- *; rewrite Forall_forall in IH.
    intros [k v] Hin; specialize (H _ Hin); simpl in H.
    apply andb_true_iff in H as [H Hv]; apply andb_true_iff in H as [Ha Hl].
    rewrite (stableKey_letter_key k Ha Hl); exact (IH _ Hin Hv).
Qed.

End AsciiKeys.

Lemma latin1_ascii :
  (forall s, Forall (fun c => c < 128) s -> latin1ToLowerCase s = map lowerAZ s) /\
  (forall c, c < 128 -> latin1ToUpperCase [c] = [upperAZ c]).
Proof.
  split.
  - intros s Hs; unfold latin1ToLowerCase; apply map_ext_in; intros c Hc.
    rewrite Forall_forall in Hs; specialize (Hs c Hc).
    unfold lowerUnit, lowerAZ; destruct (isUpperAZ c); [reflexivity|].
    replace (inRange 0xC0 0xDE c) with false; [reflexivity|].
    symmetry; unfold inRange; apply andb_false_iff; left; apply N.leb_gt; lia.
  - intros c Hc; unfold latin1ToUpperCase; simpl; rewrite app_nil_r.
    unfold upperUnit, upperAZ; destruct (isLowerAZ c); [reflexivity|].
    replace (inRange 0xE0 0xFE c) with false
      by (symmetry; unfold inRange; apply andb_false_iff; left; apply N.leb_gt; lia).
    simpl.
    replace (c =? 0xDF) with false by (symmetry; apply N.eqb_neq; lia).
    replace (c =? 0xFF) with false by (symmetry; apply N.eqb_neq; lia).
    replace (c =? 0xB5) with false by (symmetry; apply N.eqb_neq; lia).
    reflexivity.
Qed.

Example sampleStatus_letterKeys :
  letterKeys sampleStatus = true /\
  stableKeys latin1ToLowerCase latin1ToUpperCase sampleStatus = true.
Proof.
  split; [reflexivity|].
  apply (stableKeys_letterKeys latin1ToLowerCase latin1ToUpperCase
           (proj1 latin1_ascii) (proj2 latin1_ascii)).
  reflexivity.
Qed.

End UtilFacts.

(** ** The client *)

Module ClientFacts.

Import Net.

(** *** The constructor *)

Lemma initialCidr_eq : initialCidr = Some tailscaleRanges.
Proof. vm_compute; reflexivity. Qed.

Lemma Environment_eqb_spec (a b : Environment) :
  Environment_eqb a b = true <-> a = b.
Proof. destruct a, b; simpl; split; congruence. Qed.

Lemma getCredentials_inv (h : Host) (this this' : TailscaleLocalApi)
  (port : Z) (auth : jsstring) :
  getCredentialsFromSameuserProof h this = Ok (this', (port, auth)) ->
  this' = set_credentials this port auth /\ auth <> [].
Proof.
  unfold getCredentialsFromSameuserProof, rbind.
  destruct (readlinkSync h _) as [portStr|e]; [|discriminate].
  destruct (parseInt10 portStr) as [p|]; [|discriminate].
  destruct (readFileSync h _) as [authBytes|e]; [|discriminate].
  destruct (trim authBytes) as [|c a]; [discriminate|].
  intros H; injection H as <- <- <-; split; [reflexivity | discriminate].
Qed.

(** What a successful construction did. *)
Lemma construct_inv (h : Host) (options : option TailscaleLocalApiOptions)
  (this : TailscaleLocalApi) :
  construct h options = Ok this ->
  let this0 := initialize h options tailscaleRanges in
  (interrogateEnvironment h = macos /\
   exists port auth,
     getCredentialsFromSameuserProof h this0
     = Ok (set_credentials this0 port auth, (port, auth)) /\
     this = assignFetch (set_credentials this0 port auth))
  \/ (interrogateEnvironment h <> macos /\ this = assignFetch this0).
Proof.
  unfold construct; rewrite initialCidr_eq; simpl.
  destruct (Environment_eqb (interrogateEnvironment h) macos) eqn:E.
  - apply Environment_eqb_spec in E.
    destruct (getCredentialsFromSameuserProof h _) as [[t [p a]]|e] eqn:G;
      simpl; [|discriminate].
    intros H; injection H as <-.
    left; split; [exact E|].
    destruct (getCredentials_inv _ _ _ _ _ G) as [-> _].
    exists p, a; split; reflexivity.
  - simpl; intros H; injection H as <-.
    right; split; [|reflexivity].
    intros H; apply Environment_eqb_spec in H; congruence.
Qed.

Lemma assignFetch_fields (t : TailscaleLocalApi) :
  tailscaleCidr (assignFetch t) = tailscaleCidr t /\
  maxRetries (assignFetch t) = maxRetries t /\
  retryDelay (assignFetch t) = retryDelay t /\
  environment (assignFetch t) = environment t /\
  useSocketOnly (assignFetch t) = useSocketOnly t /\
  adapterPort (assignFetch t) = adapterPort t /\
  adapterPassword (assignFetch t) = adapterPassword t /\
  socketPath (assignFetch t) = socketPath t.
Proof.
  unfold assignFetch, createFetchFn.
  destruct (useSocketOnly t || negb (Environment_eqb (environment t) macos));
    simpl; repeat split; reflexivity.
Qed.

Lemma construct_constants (h : Host) (options : option TailscaleLocalApiOptions)
  (this : TailscaleLocalApi) :
  construct h options = Ok this ->
  tailscaleCidr this = tailscaleRanges /\
  maxRetries this = 5%nat /\ retryDelay this = 5000%Q /\
  environment this = interrogateEnvironment h /\
  fetch this <> None.
Proof.
  intros H; apply construct_inv in H; simpl in H.
  assert (Hf : forall t, fetch (assignFetch t) <> None).
  { intros t; unfold assignFetch; destruct (createFetchFn t); discriminate. }
  destruct H as [(_ & p & a & _ & ->) | (_ & ->)];
    (split; [|split; [|split; [|split]]]; try apply Hf);
    try (rewrite (proj1 (assignFetch_fields _)); reflexivity);
    try (rewrite (proj1 (proj2 (assignFetch_fields _))); reflexivity);
    try (rewrite (proj1 (proj2 (proj2 (assignFetch_fields _)))); reflexivity);
    try (rewrite (proj1 (proj2 (proj2 (proj2 (assignFetch_fields _))))); reflexivity).
Qed.

(** The credential fields are populated exactly when the detected
    environment is macos, whatever [useSocketOnly] is. *)
Lemma construct_credentials_iff_macos (h : Host)
  (options : option TailscaleLocalApiOptions) (this : TailscaleLocalApi) :
  construct h options = Ok this ->
  (adapterPort this <> None /\ adapterPassword this <> None)
  <-> environment this = macos.
Proof.
  intros H.
  destruct (construct_constants _ _ _ H) as (_ & _ & _ & Henv & _).
  apply construct_inv in H; simpl in H.
  destruct H as [(E & p & a & _ & ->) | (E & ->)].
  - destruct (assignFetch_fields (set_credentials (initialize h options tailscaleRanges) p a))
      as (_ & _ & _ & _ & _ & -> & -> & _).
    simpl; split; [intros _; congruence | intros _; split; discriminate].
  - destruct (assignFetch_fields (initialize h options tailscaleRanges))
      as (_ & _ & _ & _ & _ & -> & -> & _).
    simpl; split; [intros [Hp _]; congruence | intros Hm; congruence].
Qed.

(** C1, at the failing inputs: on a macOS host with socket-only mode forced,
    discovery is run all the same.  With the credential pair present the
    constructor returns a client whose credential fields are populated
    although it dispatches over the socket; with the pair missing the
    constructor throws. *)
Theorem socket_only_still_runs_discovery :
  interrogateEnvironment macHost = macos /\
  (exists this,
     construct macHost (Some socketOnly) = Ok this /\
     useSocketOnly this = true /\
     adapterPort this = Some 12345%Z /\
     adapterPassword this = Some (js "deadbeef") /\
     fetch this = Some (SocketFetch {| connect_socketPath := js "/var/run/tailscaled.socket" |})) /\
  interrogateEnvironment macHostNoCredentials = macos /\
  construct macHostNoCredentials (Some socketOnly)
  = Throw (mkError (js "Failed to read credentials: ENOENT: no such file or directory, readlink '/Library/Tailscale/ipnport'")).
Proof.
  split; [reflexivity|].
  split; [eexists; split; [vm_compute; reflexivity | repeat split]|].
  split; [reflexivity | vm_compute; reflexivity].
Qed.

(** The request of a status call in TCP mode, on the sample macOS host. *)
Example tcp_request :
  exists this,
    construct macHost None = Ok this /\
    this_fetch this (js "/localapi/v0/status") None
    = {| url := js "http://127.0.0.1:12345/localapi/v0/status";
         init := Some {| init_dispatcher := None;
                         init_method := js "GET";
                         init_headers :=
                           [ (js "Authorization", js "Basic OmRlYWRiZWVm");
                             (js "Host", js "local-tailscaled.sock") ];
                         init_body := BodyNull |} |}.
Proof. eexists; split; vm_compute; reflexivity. Qed.

(** Discovery on the sample pair: the port of the link target and the
    trimmed content of the proof file. *)
Example discovery_on_sample_pair :
  forall this,
    getCredentialsFromSameuserProof macHost this
    = Ok (set_credentials this 12345 (js "deadbeef"), (12345%Z, js "deadbeef")).
Proof. intros this; reflexivity. Qed.

(** *** Environment detection *)

Lemma indicator_isRunningInContainer (h : Host) :
  containerIndicator h -> isRunningInContainer h = true.
Proof.
  unfold containerIndicator, isRunningInContainer.
  intros [H | [(c & v & H) | (Hp & content & Hr & Hi)]].
  - rewrite H; reflexivity.
  - rewrite H; simpl; destruct (existsSync h _); reflexivity.
  - rewrite Hp, Hr, streq_refl.
    destruct (existsSync h _); [reflexivity|].
    destruct (truthy _); [reflexivity|].
    destruct Hi as [-> | [-> | ->]]; rewrite ?orb_true_r; reflexivity.
Qed.

(** C9, as stated: with [KUBERNETES_SERVICE_HOST] set to the empty string on
    a darwin platform an indicator of the list holds, yet the environment is
    macos and credential discovery is run. *)
Lemma empty_variable_is_not_container :
  containerIndicatorAsStated macHostEmptyVariable /\
  interrogateEnvironment macHostEmptyVariable <> container /\
  exists this,
    construct macHostEmptyVariable None = Ok this /\
    environment this = macos /\
    adapterPort this = Some 12345%Z /\
    fetch this = Some TcpFetch.
Proof.
  split; [right; left; discriminate|].
  split; [vm_compute; discriminate|].
  eexists; split; [vm_compute; reflexivity | repeat split].
Qed.

(** C9, amended: whenever the file /.dockerenv exists, or the variable
    KUBERNETES_SERVICE_HOST is set to a non-empty value, or the platform is
    linux and /proc/1/cgroup mentions docker, kubepods or lxc, the detected
    environment is container whatever the platform is.  The constructor
    then returns without running credential discovery: the credential
    fields are absent, and the dispatch function is the socket one, on the
    caller's socket path or else on /tmp/tailscaled.sock. *)
Theorem container_detection (h : Host)
  (options : option TailscaleLocalApiOptions) :
  containerIndicator h ->
  interrogateEnvironment h = container /\
  construct h options = Ok (assignFetch (initialize h options tailscaleRanges)) /\
  forall this, construct h options = Ok this ->
    environment this = container /\
    adapterPort this = None /\ adapterPassword this = None /\
    fetch this = Some (SocketFetch {| connect_socketPath := socketPath this |}) /\
    socketPath this
    = match match options with Some o => opt_socketPath o | None => None end with
      | Some p => p
      | None => js "/tmp/tailscaled.sock"
      end.
Proof.
  intros Hind.
  assert (Henv : interrogateEnvironment h = container).
  { unfold interrogateEnvironment.
    rewrite (indicator_isRunningInContainer h Hind); reflexivity. }
  assert (Hc : construct h options
               = Ok (assignFetch (initialize h options tailscaleRanges))).
  { unfold construct; rewrite initialCidr_eq; simpl; rewrite Henv; reflexivity. }
  split; [exact Henv|].
  split; [exact Hc|].
  intros this Hthis; rewrite Hc in Hthis; injection Hthis as <-.
  unfold assignFetch, createFetchFn, initialize; simpl.
  rewrite Henv; simpl.
  rewrite orb_true_r; simpl.
  repeat split.
Qed.

Lemma container_detection_witness :
  containerIndicator macHostInDocker /\
  interrogateEnvironment macHostInDocker = container /\
  exists this,
    construct macHostInDocker None = Ok this /\
    adapterPort this = None /\
    socketPath this = js "/tmp/tailscaled.sock".
Proof.
  assert (H : containerIndicator macHostInDocker) by (left; reflexivity).
  destruct (container_detection macHostInDocker None H) as (Henv & Hc & Hall).
  split; [exact H|].
  split; [exact Henv|].
  eexists; split; [exact Hc|].
  destruct (Hall _ Hc) as (_ & Hp & _ & _ & Hs).
  split; [exact Hp | exact Hs].
Defined.

(** *** The start-up probe *)

(** The body of [connectWithRetry]: the fuel is enough for every call. *)
Lemma connectWithRetry_unfold (this : TailscaleLocalApi)
  (probe : nat -> Outcome) (retryCount : nat) :
  connectWithRetry this probe retryCount
  = EvFetch (this_fetch this (js "/localapi/v0/status") None)
    :: (if probeFailed (probe retryCount) then
          if (retryCount <? maxRetries this)%nat then
            EvSetTimeout (backoffDelay this retryCount)
            :: connectWithRetry this probe (retryCount + 1)
          else [EvExit 1]
        else []).
Proof.
  unfold connectWithRetry; simpl.
  destruct (probeFailed (probe retryCount)); [|reflexivity].
  destruct (retryCount <? maxRetries this)%nat eqn:E; [|reflexivity].
  apply Nat.ltb_lt in E.
  replace (maxRetries this - retryCount)%nat
    with (S (maxRetries this - (retryCount + 1)))%nat by lia.
  reflexivity.
Qed.

Lemma connectWithRetry_ok (this : TailscaleLocalApi) (probe : nat -> Outcome)
  (n : nat) :
  probeFailed (probe n) = false ->
  connectWithRetry this probe n
  = [EvFetch (this_fetch this (js "/localapi/v0/status") None)].
Proof. intros H; rewrite connectWithRetry_unfold, H; reflexivity. Qed.

Lemma connectWithRetry_retry (this : TailscaleLocalApi)
  (probe : nat -> Outcome) (n : nat) :
  probeFailed (probe n) = true -> (n < maxRetries this)%nat ->
  connectWithRetry this probe n
  = EvFetch (this_fetch this (js "/localapi/v0/status") None)
    :: EvSetTimeout (backoffDelay this n)
    :: connectWithRetry this probe (n + 1).
Proof.
  intros H Hlt; rewrite connectWithRetry_unfold, H.
  apply Nat.ltb_lt in Hlt; rewrite Hlt; reflexivity.
Qed.

Lemma connectWithRetry_exhausted (this : TailscaleLocalApi)
  (probe : nat -> Outcome) (n : nat) :
  probeFailed (probe n) = true -> (maxRetries this <= n)%nat ->
  connectWithRetry this probe n
  = [EvFetch (this_fetch this (js "/localapi/v0/status") None); EvExit 1].
Proof.
  intros H Hle; rewrite connectWithRetry_unfold, H.
  apply Nat.ltb_ge in Hle; rewrite Hle; reflexivity.
Qed.

(** C4: for every retryCount n from 0 to 4, a failed probe is followed by a
    timer of 5000 * 1.5^n milliseconds after which the next probe is issued
    with retryCount n + 1; the five delays are 5000, 7500, 11250, 16875 and
    25312.5; a failed probe with retryCount 5 is followed by the exit of the
    process and by nothing else; so a daemon that never answers gets six
    probes, five timers and the exit. *)
Theorem startup_backoff_schedule (h : Host)
  (options : option TailscaleLocalApiOptions) (this : TailscaleLocalApi)
  (probe : nat -> Outcome) :
  construct h options = Ok this ->
  let p := EvFetch (this_fetch this (js "/localapi/v0/status") None) in
  (forall n, (n <= 4)%nat -> probeFailed (probe n) = true ->
     connectWithRetry this probe n
     = p :: EvSetTimeout (backoffDelay this n)
         :: connectWithRetry this probe (n + 1)
     /\ (backoffDelay this n == 5000 * (3 # 2) ^ Z.of_nat n)%Q) /\
  Forall2 Qeq (map (backoffDelay this) [0; 1; 2; 3; 4]%nat)
              [5000; 7500; 11250; 16875; 50625 # 2]%Q /\
  (probeFailed (probe 5%nat) = true ->
     connectWithRetry this probe 5 = [p; EvExit 1]) /\
  ((forall n, probeFailed (probe n) = true) ->
     startupProbe this probe
     = [ p; EvSetTimeout (backoffDelay this 0);
         p; EvSetTimeout (backoffDelay this 1);
         p; EvSetTimeout (backoffDelay this 2);
         p; EvSetTimeout (backoffDelay this 3);
         p; EvSetTimeout (backoffDelay this 4);
         p; EvExit 1 ]).
Proof.
  intros Hc p.
  destruct (construct_constants _ _ _ Hc) as (_ & Hmax & Hdelay & _ & _).
  split; [|split; [|split]].
  - intros n Hn Hfail; split.
    + apply connectWithRetry_retry; [exact Hfail | rewrite Hmax; lia].
    + unfold backoffDelay; rewrite Hdelay; reflexivity.
  - unfold backoffDelay; rewrite Hdelay; simpl.
    repeat constructor.
  - intros Hfail; apply connectWithRetry_exhausted; [exact Hfail | rewrite Hmax; lia].
  - intros Hfail; unfold startupProbe.
    rewrite !connectWithRetry_retry by (try apply Hfail; rewrite Hmax; simpl; lia).
    simpl.
    rewrite connectWithRetry_exhausted by (try apply Hfail; rewrite Hmax; lia).
    reflexivity.
Qed.

Lemma startup_backoff_schedule_witness :
  exists this,
    construct linuxHost None = Ok this /\
    map (fun e => match e with
                  | EvFetch _ => 0%Q
                  | EvSetTimeout d => Qred d
                  | EvExit c => inject_Z (- c)
                  end)
        (startupProbe this (fun _ => unreachable))
    = [0; 5000; 0; 7500; 0; 11250; 0; 16875; 0; 50625 # 2; 0; -1]%Q.
Proof.
  destruct (construct linuxHost None) as [this|e] eqn:Hc;
    [|vm_compute in Hc; discriminate].
  exists this; split; [reflexivity|].
  destruct (startup_backoff_schedule linuxHost None this (fun _ => unreachable) Hc)
    as (_ & _ & _ & Hrun).
  rewrite Hrun by reflexivity.
  destruct (construct_constants _ _ _ Hc) as (_ & _ & Hdelay & _ & _).
  unfold backoffDelay; rewrite Hdelay; reflexivity.
Defined.

(** *** The address-range test *)

Lemma splitBy_aux_In (sep : N -> bool) (c : N) (s cur : jsstring) :
  sep c = false -> In c s \/ In c cur ->
  exists part, In part (splitBy_aux sep s cur) /\ In c part.
Proof.
  intros Hsep; revert cur; induction s as [|x s IH]; simpl; intros cur H.
  - exists (rev cur); split; [left; reflexivity|].
    apply in_rev; rewrite rev_involutive; tauto.
  - destruct (sep x) eqn:Ex.
    + destruct H as [[-> | H] | H].
      * congruence.
      * destruct (IH [] (or_introl H)) as (part & Hin & Hc).
        exists part; split; [right; exact Hin | exact Hc].
      * exists (rev cur); split; [left; reflexivity|].
        apply in_rev; rewrite rev_involutive; exact H.
    + apply IH; simpl; tauto.
Qed.

Lemma parseOctet_digits (part : jsstring) (c : N) :
  In c part -> isDigit c = false -> parseOctet part = None.
Proof.
  intros Hin Hc; unfold parseOctet.
  replace (forallb isDigit part) with false; [reflexivity|].
  symmetry; apply not_true_is_false; intros H.
  rewrite forallb_forall in H; rewrite (H c Hin) in Hc; discriminate.
Qed.

(** Text with a colon is not an IPv4 address. *)
Lemma parseIPv4_colon (s : jsstring) : In 58 s -> parseIPv4 s = None.
Proof.
  intros Hin; unfold parseIPv4, splitOn, splitBy.
  destruct (splitBy_aux_In (N.eqb 46) 58 s [] eq_refl (or_introl Hin))
    as (part & Hpart & Hc).
  assert (Hnone : In None (map parseOctet (splitBy_aux (N.eqb 46) s [])))
    by (apply in_map_iff; exists part; split;
        [apply (parseOctet_digits part 58 Hc); reflexivity | exact Hpart]).
  destruct (map parseOctet (splitBy_aux (N.eqb 46) s [])) as [|[a|] [|[b|] [|[c|] [|[d|] [|e l]]]]];
    try reflexivity.
  simpl in Hnone; intuition discriminate.
Qed.

Lemma check_colon (bl : BlockList) (ip : jsstring) :
  In 58 (cString ip) -> check bl ip = false.
Proof.
  intros H; unfold check, check_family, newSocketAddress.
  rewrite (parseIPv4_colon (cString ip) H); reflexivity.
Qed.

(** A text without NUL is read whole. *)
Lemma cString_id (s : jsstring) : ~ In 0 s -> cString s = s.
Proof.
  induction s as [|c s IH]; intros Hn; [reflexivity|]; simpl.
  destruct (N.eqb_spec c 0) as [->|_]; [exfalso; apply Hn; left; reflexivity|].
  rewrite IH; [reflexivity | intros H; apply Hn; right; exact H].
Qed.

(** What follows a NUL is not read: the address parser sees "100.64.0.1"
    in the text below, which ends with a NUL and a colon. *)
Example nul_ends_the_address :
  check tailscaleRanges (js "100.64.0.1" ++ [0; 58]) = true.
Proof. vm_compute; reflexivity. Qed.

(** C8: the client classifies "100.64.0.1" as in range and returns that
    string, returns false for "8.8.8.8", and for "::ffff:100.64.0.1" tests
    and returns the embedded IPv4 literal "100.64.0.1". *)
Theorem isInTailscaleIpRange_ipv4_examples (h : Host)
  (options : option TailscaleLocalApiOptions) (this : TailscaleLocalApi) :
  construct h options = Ok this ->
  isInTailscaleIpRange this (js "100.64.0.1") = IsString (js "100.64.0.1") /\
  isInTailscaleIpRange this (js "8.8.8.8") = IsFalse /\
  isTruthy (isInTailscaleIpRange this (js "8.8.8.8")) = false /\
  matchMapped (js "::ffff:100.64.0.1") = Some (js "100.64.0.1") /\
  isInTailscaleIpRange this (js "::ffff:100.64.0.1") = IsString (js "100.64.0.1").
Proof.
  intros Hc.
  destruct (construct_constants _ _ _ Hc) as (Hcidr & _).
  unfold isInTailscaleIpRange; rewrite Hcidr.
  repeat split; vm_compute; reflexivity.
Qed.

Lemma isInTailscaleIpRange_ipv4_examples_witness :
  exists this,
    construct linuxHost None = Ok this /\
    isInTailscaleIpRange this (js "100.64.0.1") = IsString (js "100.64.0.1") /\
    isInTailscaleIpRange this (js "8.8.8.8") = IsFalse /\
    isInTailscaleIpRange this (js "::ffff:100.64.0.1") = IsString (js "100.64.0.1").
Proof.
  destruct (construct linuxHost None) as [this|e] eqn:Hc;
    [|vm_compute in Hc; discriminate].
  exists this; split; [reflexivity|].
  destruct (isInTailscaleIpRange_ipv4_examples linuxHost None this Hc)
    as (H1 & H2 & _ & _ & H3).
  split; [exact H1 | split; [exact H2 | exact H3]].
Defined.

(** C3, at the failing input: "fd7a:115c:a1e0::1" is reported as not in
    range although the registered IPv6 subnet contains it, because the list
    is queried with the default family; the same holds for every text that
    is not of the IPv4-mapped form and has a colon in the part the address
    parser reads, which is the text up to its first NUL. *)
Theorem isInTailscaleIpRange_ipv6_address (h : Host)
  (options : option TailscaleLocalApiOptions) (this : TailscaleLocalApi) :
  construct h options = Ok this ->
  isInTailscaleIpRange this (js "fd7a:115c:a1e0::1") = IsFalse /\
  isTruthy (isInTailscaleIpRange this (js "fd7a:115c:a1e0::1")) = false /\
  check_family (tailscaleCidr this) (js "fd7a:115c:a1e0::1") ipv6 = true /\
  (forall ip, In 58 (cString ip) -> matchMapped ip = None ->
              isInTailscaleIpRange this ip = IsFalse).
Proof.
  intros Hc.
  destruct (construct_constants _ _ _ Hc) as (Hcidr & _).
  assert (Hall : forall ip, In 58 (cString ip) -> matchMapped ip = None ->
                            isInTailscaleIpRange this ip = IsFalse).
  { intros ip Hin Hm; unfold isInTailscaleIpRange.
    rewrite Hm, (check_colon _ ip Hin); reflexivity. }
  assert (H1 : isInTailscaleIpRange this (js "fd7a:115c:a1e0::1") = IsFalse).
  { apply Hall; [vm_compute; tauto | reflexivity]. }
  split; [exact H1|].
  split; [rewrite H1; reflexivity|].
  split; [rewrite Hcidr; vm_compute; reflexivity | exact Hall].
Qed.

Lemma isInTailscaleIpRange_ipv6_address_witness :
  exists this,
    construct linuxHost None = Ok this /\
    isInTailscaleIpRange this (js "fd7a:115c:a1e0::1") = IsFalse.
Proof.
  destruct (construct linuxHost None) as [this|e] eqn:Hc;
    [|vm_compute in Hc; discriminate].
  exists this; split; [reflexivity|].
  exact (proj1 (isInTailscaleIpRange_ipv6_address linuxHost None this Hc)).
Defined.

(** *** Endpoints and the dispatch function *)

Section Dispatch.

Variable this : TailscaleLocalApi.

Lemma throughDispatch_ret {A : Type} (a : A) : throughDispatch this (ret a).
Proof.
  intros network log; exists []; simpl; rewrite app_nil_r; auto.
Qed.

Lemma throughDispatch_throw {A : Type} (e : Error) :
  throughDispatch this (@throw A e).
Proof.
  intros network log; exists []; simpl; rewrite app_nil_r; auto.
Qed.

Lemma throughDispatch_lift {A : Type} (r : result A) :
  throughDispatch this (lift r).
Proof.
  intros network log; exists []; simpl; rewrite app_nil_r; auto.
Qed.

Lemma throughDispatch_dispatch (path : jsstring) (options : option FetchOptions) :
  throughDispatch this (dispatch this path options).
Proof.
  intros network log; exists [this_fetch this path options]; simpl.
  split; [reflexivity|].
  constructor; [exists path, options; reflexivity | constructor].
Qed.

Lemma throughDispatch_bind {A B : Type} (m : M A) (k : A -> M B) :
  throughDispatch this m -> (forall a, throughDispatch this (k a)) ->
  throughDispatch this (bind m k).
Proof.
  intros Hm Hk network log; unfold bind.
  destruct (Hm network log) as (i1 & E1 & F1).
  destruct (m network log) as [[a|e] log1]; simpl in E1; subst log1.
  - destruct (Hk a network (log ++ i1)) as (i2 & E2 & F2).
    exists (i1 ++ i2); rewrite E2, app_assoc; split; [reflexivity|].
    apply Forall_app; auto.
  - exists i1; auto.
Qed.

End Dispatch.

Ltac through_dispatch :=
  repeat first
    [ apply throughDispatch_ret
    | apply throughDispatch_throw
    | apply throughDispatch_lift
    | apply throughDispatch_dispatch
    | apply throughDispatch_bind; [|intros]
    | match goal with
      | |- throughDispatch _ (if ?b then _ else _) => destruct b
      | |- throughDispatch _ (match ?x with _ => _ end) => destruct x
      end ].

(** The endpoints written with [this.fetch] issue every request through
    the dispatch function. *)
Lemma endpoints_through_dispatch
  (toLowerCase toUpperCase : jsstring -> jsstring)
  (encodeURIComponent : jsstring -> result jsstring)
  (h : Host) (this : TailscaleLocalApi) :
  (forall ip, throughDispatch this (whoIs toLowerCase toUpperCase this ip)) /\
  throughDispatch this (prefs toLowerCase toUpperCase this) /\
  throughDispatch this (goroutines this) /\
  throughDispatch this (daemonMetrics this) /\
  throughDispatch this (userMetrics this) /\
  throughDispatch this (status_ toLowerCase toUpperCase this) /\
  throughDispatch this (statusWithoutPeers toLowerCase toUpperCase this) /\
  throughDispatch this (waitingFiles toLowerCase toUpperCase this) /\
  (forall seconds,
     throughDispatch this (awaitWaitingFiles toLowerCase toUpperCase this seconds)) /\
  (forall baseName,
     throughDispatch this (deleteWaitingFile encodeURIComponent this baseName)) /\
  throughDispatch this (fileTargets toLowerCase toUpperCase this) /\
  (forall arg path,
     throughDispatch this (pushFile encodeURIComponent h this arg path)) /\
  (forall options, throughDispatch this (start this options)) /\
  throughDispatch this (logout this) /\
  throughDispatch this (startLoginInteractive this).
Proof.
  repeat match goal with |- _ /\ _ => split end; intros;
    unfold whoIs, prefs, goroutines, daemonMetrics, userMetrics, status_,
      statusWithoutPeers, getStatus, waitingFiles, awaitWaitingFiles,
      deleteWaitingFile, fileTargets, pushFile, pushFile_options, start,
      logout, startLoginInteractive;
    through_dispatch.
Qed.

(** What the dispatch function puts on every request: the socket dispatcher
    in socket mode, the Authorization and Host headers in TCP mode. *)
Lemma hasOwn_setProp {V : Type} (o : @object V) (k k' : jsstring) (v : V) :
  hasOwn o k = true -> hasOwn (setProp o k' v) k = true.
Proof.
  rewrite !UtilFacts.hasOwn_In; unfold setProp.
  destruct (hasOwn o k'); [rewrite UtilFacts.replaceProp_keys; auto|].
  destruct (arrayIndex k') as [n|].
  - induction o as [|[k0 v0] o IH]; simpl; [tauto|].
    destruct (arrayIndex k0) as [m|]; [destruct (m <? n)|]; simpl; tauto.
  - rewrite map_app, in_app_iff; tauto.
Qed.

Lemma hasOwn_spread {V : Type} (extra o : @object V) (k : jsstring) :
  hasOwn o k = true ->
  hasOwn (fold_left (fun o '(k, v) => setProp o k v) extra o) k = true.
Proof.
  revert o; induction extra as [|[k' v'] extra IH]; simpl; intros o H;
    [exact H|].
  apply IH, hasOwn_setProp, H.
Qed.

Lemma this_fetch_marks (this : TailscaleLocalApi) (path : jsstring)
  (options : option FetchOptions) :
  fetch this <> None ->
  viaSocketDispatcher (this_fetch this path options)
  || carriesAuthorization (this_fetch this path options) = true.
Proof.
  unfold this_fetch; destruct (fetch this) as [[d|]|]; [| |congruence]; intros _.
  - reflexivity.
  - unfold carriesAuthorization, callFetchFn, spreadHeaders; simpl.
    rewrite !hasOwn_spread by reflexivity; reflexivity.
Qed.

Lemma incrementCounter_run (this : TailscaleLocalApi) (name : jsstring)
  (delta : number) (network : Network) (log : list Request) :
  incrementCounter this name delta network log
  = if isNegative delta
    then (Throw (mkError (js "negative delta not allowed")), log)
    else (match network (metricUpdateRequest this name delta) with
          | Rejected e => Throw e
          | Resolved resp =>
              if ok resp then Ok tt
              else Throw (mkError (js "Failed to increment counter: " ++ text resp))
          end, log ++ [metricUpdateRequest this name delta]).
Proof.
  unfold incrementCounter; destruct (isNegative delta); [reflexivity|].
  unfold bind, platformFetch; fold (metricUpdateRequest this name delta).
  destruct (network _) as [e|resp]; [reflexivity|].
  destruct (ok resp); reflexivity.
Qed.

(** C7: incrementCounter on a negative delta throws "negative delta not
    allowed" and leaves the record of requests as it was, so nothing is
    sent; on any other delta it sends exactly one request, the POST of the
    metric update, and its result is that of this one request.  A finite
    delta is negative exactly when it is below zero. *)
Theorem incrementCounter_delta (this : TailscaleLocalApi) (name : jsstring)
  (delta : number) (network : Network) (log : list Request) :
  let req :=
    {| url := baseUrl this ++ js "/localapi/v0/upload-client-metrics";
       init := Some {| init_dispatcher := None;
                       init_method := js "POST";
                       init_headers := [ (js "Content-Type", js "application/json") ];
                       init_body :=
                         BodyStringify
                           (JArray [ JObject [ (js "name", JString name);
                                               (js "type", JString (js "counter"));
                                               (js "value", JNumber delta) ] ]) |} |} in
  (forall q, isNegative (Finite q) = true <-> (q < 0)%Q) /\
  (isNegative delta = true ->
     incrementCounter this name delta network log
     = (Throw (mkError (js "negative delta not allowed")), log)) /\
  (isNegative delta = false ->
     incrementCounter this name delta network log
     = (match network req with
        | Rejected e => Throw e
        | Resolved resp =>
            if ok resp then Ok tt
            else Throw (mkError (js "Failed to increment counter: " ++ text resp))
        end, log ++ [req])).
Proof.
  intros req; split; [|split].
  - intros q; simpl; unfold Qle_bool, Qlt; simpl.
    rewrite negb_true_iff, Z.leb_gt; lia.
  - intros H; rewrite incrementCounter_run, H; reflexivity.
  - intros H; rewrite incrementCounter_run, H; reflexivity.
Qed.

Lemma incrementCounter_delta_witness :
  exists this,
    construct linuxHost None = Ok this /\
    incrementCounter this (js "hits") (Finite (-1)) alwaysOk []
    = (Throw (mkError (js "negative delta not allowed")), []) /\
    length (requestsOf (incrementCounter this (js "hits") (Finite 3)) alwaysOk) = 1%nat.
Proof.
  destruct (construct linuxHost None) as [this|e] eqn:Hc;
    [|vm_compute in Hc; discriminate].
  exists this; split; [reflexivity|].
  destruct (incrementCounter_delta this (js "hits") (Finite (-1)) alwaysOk [])
    as (_ & Hneg & _).
  destruct (incrementCounter_delta this (js "hits") (Finite 3) alwaysOk [])
    as (_ & _ & Hpos).
  split; [apply Hneg; reflexivity|].
  unfold requestsOf; rewrite Hpos by reflexivity; reflexivity.
Defined.

(** C2, at the failing inputs: incrementCounter and getWaitingFile call the
    platform's fetch themselves.  Their request is none of the requests the
    dispatch function builds: it has no socket dispatcher and none of the
    Authorization and Host headers. *)
Theorem direct_fetch_bypasses_dispatch
  (encodeURIComponent : jsstring -> result jsstring)
  (Number_ : jsstring -> number)
  (this : TailscaleLocalApi) (name baseName encodedName : jsstring)
  (delta : number) (network : Network) :
  fetch this <> None ->
  isNegative delta = false ->
  encodeURIComponent baseName = Ok encodedName ->
  (exists r, requestsOf (incrementCounter this name delta) network = [r] /\
             viaSocketDispatcher r = false /\ carriesAuthorization r = false /\
             forall path options, r <> this_fetch this path options) /\
  (exists r, requestsOf (getWaitingFile encodeURIComponent Number_ this baseName)
                        network = [r] /\
             r = {| url := baseUrl this ++ js "/localapi/v0/files/" ++ encodedName;
                    init := None |} /\
             viaSocketDispatcher r = false /\ carriesAuthorization r = false /\
             forall path options, r <> this_fetch this path options).
Proof.
  intros Hf Hd He.
  assert (Hne : forall r, viaSocketDispatcher r = false ->
                          carriesAuthorization r = false ->
                          forall path options, r <> this_fetch this path options).
  { intros r H1 H2 path options ->.
    pose proof (this_fetch_marks this path options Hf) as H.
    rewrite H1, H2 in H; discriminate. }
  split.
  - exists (metricUpdateRequest this name delta); split.
    + unfold requestsOf; rewrite incrementCounter_run, Hd; reflexivity.
    + split; [reflexivity|]; split; [reflexivity|].
      apply Hne; reflexivity.
  - eexists; split.
    + unfold requestsOf, getWaitingFile, bind, lift, platformFetch.
      rewrite He; simpl.
      destruct (network _) as [e|resp]; simpl; [reflexivity|].
      destruct (negb (status resp =? 200)); simpl; [reflexivity|].
      destruct (match header resp (js "transfer-encoding") with
                | Some te => streq te (js "chunked")
                | None => false
                end); reflexivity.
    + split; [reflexivity|]; split; [reflexivity|]; split; [reflexivity|].
      apply Hne; reflexivity.
Qed.

Lemma direct_fetch_bypasses_dispatch_witness :
  exists this,
    construct macHost None = Ok this /\
    fetch this = Some TcpFetch /\
    carriesAuthorization (this_fetch this (js "/localapi/v0/status") None) = true /\
    (exists r, requestsOf (incrementCounter this (js "hits") (Finite 3)) alwaysOk = [r]
               /\ carriesAuthorization r = false) /\
    (exists r, requestsOf (getWaitingFile encodeUnreserved numberOfDigits this
                             (js "photo.png")) alwaysOk = [r]
               /\ carriesAuthorization r = false).
Proof.
  destruct (construct macHost None) as [this|e] eqn:Hc;
    [|vm_compute in Hc; discriminate].
  exists this; split; [reflexivity|].
  assert (Hf : fetch this = Some TcpFetch)
    by (vm_compute in Hc; injection Hc as <-; reflexivity).
  assert (Hne : fetch this <> None) by (rewrite Hf; discriminate).
  destruct (direct_fetch_bypasses_dispatch encodeUnreserved numberOfDigits
              this (js "hits") (js "photo.png") (js "photo.png") (Finite 3)
              alwaysOk Hne eq_refl eq_refl)
    as ((r1 & E1 & _ & A1 & _) & (r2 & E2 & _ & _ & A2 & _)).
  split; [exact Hf|].
  split.
  - pose proof (this_fetch_marks this (js "/localapi/v0/status") None Hne) as H.
    unfold viaSocketDispatcher, this_fetch in H; rewrite Hf in H.
    unfold this_fetch; rewrite Hf; exact H.
  - split; [exists r1; split; assumption | exists r2; split; assumption].
Defined.

End ClientFacts.

(* ------------------------------------------------------------------ *)
(** * Further properties *)

(** ** The tokenizer and the key conversion on all strings *)

Module UtilExtras.

Import UtilFacts.

Lemma separator_units (c : N) :
  isSeparator [c] = true -> In c (0x2D :: 0x5F :: WHITESPACE).
Proof.
  intros H; unfold isSeparator in H.
  apply existsb_exists in H as (x & Hin & Heq).
  apply streq_spec in Heq; subst x.
  unfold WORD_SEPARATORS in Hin.
  apply in_map_iff in Hin as (y & Hy & Hin).
  injection Hy as ->; exact Hin.
Qed.

Lemma surrogate_not_separator (c : N) :
  isHighSurrogate c || isLowSurrogate c = true -> isSeparator [c] = false.
Proof.
  intros Hs; destruct (isSeparator [c]) eqn:E; [|reflexivity].
  apply separator_units in E; unfold WHITESPACE in E; simpl in E.
  repeat (destruct E as [<- | E]; [discriminate Hs|]).
  contradiction.
Qed.

Lemma filter_cons1 {A : Type} (f : A -> bool) (x : A) (l : list A) :
  filter f (x :: l) = if f x then x :: filter f l else filter f l.
Proof. reflexivity. Qed.

(** The characters the loop iterates over are not empty, and those that
    are no separators are, together, the units of the string that are no
    separators. *)
Lemma codePoints_spec (data : jsstring) :
  Forall (fun ch => ch <> []) (codePoints data) /\
  concat (filter (fun ch => negb (isSeparator ch)) (codePoints data))
  = filter notSeparator data.
Proof.
  assert (Hgen : forall n data, (length data <= n)%nat ->
            Forall (fun ch => ch <> []) (codePoints data) /\
            concat (filter (fun ch => negb (isSeparator ch)) (codePoints data))
            = filter notSeparator data).
  { induction n as [|n IH]; intros [|h t] Hlen; simpl in Hlen;
      try (split; [constructor | reflexivity]); [lia|].
    destruct t as [|l rest].
    - simpl; split; [constructor; [discriminate | constructor]|].
      unfold notSeparator; destruct (isSeparator [h]); reflexivity.
    - rewrite codePoints_cons2.
      destruct (isHighSurrogate h && isLowSurrogate l) eqn:E.
      + apply andb_true_iff in E as [Eh El].
        destruct (IH rest) as [IH1 IH2]; [simpl in Hlen; lia|].
        split; [constructor; [discriminate | exact IH1]|].
        rewrite !filter_cons1, isSeparator_pair.
        unfold notSeparator at 1 2.
        rewrite (surrogate_not_separator h), (surrogate_not_separator l)
          by (rewrite ?Eh, ?El, ?orb_true_r; reflexivity).
        cbn [negb concat app]; do 2 f_equal; exact IH2.
      + destruct (IH (l :: rest)) as [IH1 IH2]; [simpl in Hlen |- *; lia|].
        split; [constructor; [discriminate | exact IH1]|].
        rewrite (filter_cons1 _ [h]), (filter_cons1 notSeparator h).
        unfold notSeparator at 1.
        destruct (isSeparator [h]); cbn [negb];
          [exact IH2 | cbn [concat app]; f_equal; exact IH2]. }
  exact (Hgen (length data) data (le_n _)).
Qed.

(** The ways a character that is no separator changes the state. *)
Lemma step_cases (st : wstate) (character : jsstring) :
  isSeparator character = false ->
  step st character = {| results := results (flush st); word := character |}
  \/ (exists init x,
        word st = init ++ [x] /\ init <> [] /\
        step st character
        = {| results := results st ++ [init]; word := [x] ++ character |})
  \/ step st character
     = {| results := results st; word := word st ++ character |}.
Proof.
  intros Hsep; unfold step; rewrite Hsep.
  destruct (lowerToUpper (word st) character).
  - left; rewrite word_flush; reflexivity.
  - destruct (upperRunToLower (word st) character) eqn:R2.
    + right; left; unfold upperRunToLower in R2.
      apply andb_true_iff in R2 as [R2 _].
      destruct (testClass2End_inv _ R2) as (init & x & Hw & Hi & _ & _ & Hs1 & Hs2).
      exists init, x; split; [exact Hw|]; split; [exact Hi|].
      rewrite Hs1, Hs2; simpl.
      rewrite flush_nonempty by exact Hi; reflexivity.
    + destruct (digitBoundary (word st) character).
      * left; rewrite word_flush; reflexivity.
      * right; right; reflexivity.
Qed.

Lemma results_flush (st : wstate) :
  Forall (fun w => w <> []) (results st) ->
  Forall (fun w => w <> []) (results (flush st)) /\
  concat (results (flush st)) = concat (results st ++ [word st]).
Proof.
  intros H; destruct (word st) as [|c w] eqn:E.
  - rewrite flush_empty by exact E.
    split; [exact H | rewrite concat_app; simpl; rewrite app_nil_r; reflexivity].
  - rewrite flush_nonempty by congruence; simpl; rewrite E.
    split; [|reflexivity].
    apply Forall_app; split; [exact H | constructor; [discriminate | constructor]].
Qed.

Lemma fold_step_spec (chars : list jsstring) (st : wstate) :
  Forall (fun w => w <> []) (results st) ->
  Forall (fun w => w <> []) (results (fold_left step chars st)) /\
  concat (results (fold_left step chars st) ++ [word (fold_left step chars st)])
  = concat (results st ++ [word st])
    ++ concat (filter (fun ch => negb (isSeparator ch)) chars).
Proof.
  revert st; induction chars as [|ch chars IH]; intros st Hres; simpl.
  - split; [exact Hres | rewrite app_nil_r; reflexivity].
  - destruct (isSeparator ch) eqn:Hsep; simpl.
    + assert (Hstep : step st ch = flush st) by (unfold step; rewrite Hsep; reflexivity).
      rewrite Hstep.
      destruct (results_flush st Hres) as [F1 F2].
      destruct (IH (flush st) F1) as [H1 H2].
      split; [exact H1|].
      rewrite H2, word_flush, concat_app; simpl; rewrite app_nil_r, F2; reflexivity.
    + assert (Hnext : Forall (fun w => w <> []) (results (step st ch)) /\
                      concat (results (step st ch) ++ [word (step st ch)])
                      = concat (results st ++ [word st]) ++ ch).
      { destruct (results_flush st Hres) as [F1 F2].
        destruct (step_cases st ch Hsep)
          as [-> | [(init & x & Hw & Hi & ->) | ->]]; simpl.
        - split; [exact F1|].
          rewrite concat_app, F2; simpl; rewrite app_nil_r; reflexivity.
        - split; [apply Forall_app; split;
                  [exact Hres | constructor; [exact Hi | constructor]]|].
          rewrite Hw, !concat_app; simpl; rewrite !app_nil_r, <- !app_assoc.
          reflexivity.
        - split; [exact Hres|].
          rewrite !concat_app; simpl; rewrite !app_nil_r, <- !app_assoc.
          reflexivity. }
      destruct Hnext as [N1 N2].
      destruct (IH (step st ch) N1) as [H1 H2].
      split; [exact H1 | rewrite H2, N2, <- app_assoc; reflexivity].
Qed.

(** X1: the tokenizer only removes separators.  For every string, the words
    put together are the units of the string that are no separators, in
    their order; no word is empty; and there is no word exactly when every
    unit of the string is a separator. *)
Theorem words_drop_exactly_the_separators (data : jsstring) :
  concat (words data) = filter notSeparator data /\
  Forall (fun w => w <> []) (words data) /\
  Forall (Forall (fun c => isSeparator [c] = false)) (words data) /\
  (words data = [] <-> Forall (fun c => isSeparator [c] = true) data).
Proof.
  destruct (codePoints_spec data) as [_ Hcp].
  destruct (fold_step_spec (codePoints data) {| results := []; word := [] |})
    as [Hne Hcat]; [constructor|].
  simpl in Hcat; rewrite Hcp in Hcat.
  destruct (results_flush _ Hne) as [F1 F2].
  assert (Hconcat : concat (words data) = filter notSeparator data)
    by (unfold words; rewrite F2; exact Hcat).
  split; [exact Hconcat|].
  split; [exact F1|].
  split.
  - apply Forall_concat_inv; rewrite Hconcat.
    apply Forall_forall; intros c Hc; apply filter_In in Hc as [_ Hc].
    unfold notSeparator in Hc; apply negb_true_iff in Hc; exact Hc.
  - split.
    + intros E; rewrite E in Hconcat; simpl in Hconcat.
      apply Forall_forall; intros c Hc.
      destruct (isSeparator [c]) eqn:Es; [reflexivity|].
      assert (Hin : In c (filter notSeparator data))
        by (apply filter_In; split; [exact Hc | unfold notSeparator; rewrite Es; reflexivity]).
      rewrite <- Hconcat in Hin; contradiction.
    + intros Hall.
      assert (Hnil : filter notSeparator data = []).
      { rewrite Forall_forall in Hall.
        destruct (filter notSeparator data) as [|c r] eqn:E; [reflexivity|].
        assert (Hin : In c (filter notSeparator data)) by (rewrite E; left; reflexivity).
        apply filter_In in Hin as [Hin Hn].
        unfold notSeparator in Hn; rewrite (Hall c Hin) in Hn; discriminate. }
      rewrite Hnil in Hconcat.
      unfold words in *.
      destruct (results (flush _)) as [|w ws]; [reflexivity|].
      inversion F1; subst; simpl in Hconcat.
      destruct w; [congruence | discriminate].
Qed.

(** X2: in an ASCII string the tokenizer never puts a digit and a unit
    that is no digit into the same word: every word is a run of digits or
    contains no digit at all. *)
Theorem words_separate_digits_from_other_units (data : jsstring) :
  asciiKey data = true ->
  Forall (fun w => w <> [] /\
                   (Forall (fun c => isDigit c = true) w \/
                    Forall (fun c => isDigit c = false) w))
         (words data).
Proof.
  intros Ha.
  assert (Hk : Forall (fun c => c < 128) data).
  { unfold asciiKey in Ha; rewrite forallb_forall in Ha.
    apply Forall_forall; intros c Hc; apply N.ltb_lt, Ha, Hc. }
  destruct (words_ascii_spec data Hk) as [Hws _].
  eapply Forall_impl; [|exact Hws].
  intros w (Hne & _ & Hu); split; [exact Hne|].
  unfold uniform in Hu.
  destruct (isDigit (hd 0 w)); [left | right]; exact Hu.
Qed.

Lemma words_separate_digits_from_other_units_witness :
  asciiKey (js "ipv4Addr2") = true /\
  words (js "ipv4Addr2") = [js "ipv"; js "4"; js "Addr"; js "2"] /\
  Forall (fun w => w <> [] /\
                   (Forall (fun c => isDigit c = true) w \/
                    Forall (fun c => isDigit c = false) w))
         (words (js "ipv4Addr2")).
Proof.
  split; [reflexivity|]; split; [reflexivity|].
  exact (words_separate_digits_from_other_units (js "ipv4Addr2") eq_refl).
Defined.

(** *** The conversion of an ASCII key *)

Lemma lowerAZ_idem (c : N) : lowerAZ (lowerAZ c) = lowerAZ c.
Proof.
  unfold lowerAZ at 1.
  destruct (lowerAZ_facts c) as (_ & _ & _ & -> & _); reflexivity.
Qed.

Lemma lowerAZ_upperAZ (c : N) : lowerAZ (upperAZ c) = lowerAZ c.
Proof.
  unfold upperAZ; destruct (isLowerAZ c) eqn:E; [|reflexivity].
  pose proof (proj1 (lower_range c) E) as Hr.
  unfold lowerAZ.
  replace (isUpperAZ (c - 32)) with true
    by (symmetry; apply upper_range; lia).
  replace (isUpperAZ c) with false
    by (symmetry; apply not_true_is_false; rewrite upper_range; lia).
  lia.
Qed.

Lemma filter_notSeparator_lower (k : jsstring) :
  filter notSeparator (map lowerAZ k) = map lowerAZ (filter notSeparator k).
Proof.
  induction k as [|c k IH]; [reflexivity|].
  cbn [map]; rewrite !filter_cons1, IH.
  assert (E : notSeparator (lowerAZ c) = notSeparator c).
  { unfold notSeparator.
    destruct (lowerAZ_facts c) as (_ & -> & _); reflexivity. }
  rewrite E; destruct (notSeparator c); reflexivity.
Qed.

Lemma map_lower_head (g : N -> N) (w : jsstring) :
  w <> [] -> lowerAZ (g (hd 0 w)) = lowerAZ (hd 0 w) ->
  map lowerAZ (g (hd 0 w) :: tl w) = map lowerAZ w.
Proof.
  destruct w as [|h t]; [congruence|]; simpl; intros _ ->; reflexivity.
Qed.

Lemma ascii_conversion_keeps_units
  (toLowerCase toUpperCase : jsstring -> jsstring) (k : jsstring) :
  (forall s, Forall (fun c => c < 128) s -> toLowerCase s = map lowerAZ s) ->
  (forall c, c < 128 -> toUpperCase [c] = [upperAZ c]) ->
  Forall (fun c => c < 128) k ->
  map lowerAZ (toCamelCase toLowerCase toUpperCase k)
  = map lowerAZ (filter notSeparator k) /\
  Forall wordUnit (toCamelCase toLowerCase toUpperCase k) /\
  isUpperAZ (hd 0 (toCamelCase toLowerCase toUpperCase k)) = false.
Proof.
  intros Hlow Hup Hk.
  unfold toCamelCase.
  set (d := if LOWER_CASE_CHARACTER_RE_test k then k else toLowerCase k).
  assert (Hd : Forall (fun c => c < 128) d /\
               map lowerAZ (filter notSeparator d)
               = map lowerAZ (filter notSeparator k)).
  { subst d; destruct (LOWER_CASE_CHARACTER_RE_test k); [auto|].
    rewrite Hlow by exact Hk; split.
    - apply Forall_map; eapply Forall_impl; [|exact Hk].
      intros c; apply lowerAZ_facts.
    - rewrite filter_notSeparator_lower, map_map.
      apply map_ext; intros c; apply lowerAZ_idem. }
  destruct Hd as [Hd Hfilter].
  destruct (words_ascii_spec d Hd) as [Hws Hcat].
  destruct (words d) as [|w0 ws] eqn:E.
  - simpl in *; rewrite <- Hfilter, <- Hcat.
    split; [reflexivity | split; [constructor | reflexivity]].
  - assert (Hall : Forall (fun w => w <> [] /\ hd 0 w < 128) (w0 :: ws)).
    { eapply Forall_impl; [|exact Hws]; intros w (Hne & Hu & _).
      split; [exact Hne|]; destruct w; [congruence|].
      inversion Hu as [|? ? [H _] _]; exact H. }
    rewrite (mapi_recase toLowerCase toUpperCase Hlow Hup) by exact Hall.
    inversion Hws as [|? ? (Hne0 & Hu0 & Hun0) Hws']; subst.
    split; [|split].
    + rewrite <- Hfilter, <- Hcat, !concat_map; f_equal; simpl; f_equal.
      * apply (map_lower_head lowerAZ); [exact Hne0 | apply lowerAZ_idem].
      * rewrite map_map; apply map_ext_in; intros w Hw.
        rewrite Forall_forall in Hws'.
        apply (map_lower_head upperAZ); [apply Hws', Hw | apply lowerAZ_upperAZ].
    + rewrite concat_cons; apply Forall_app; split.
      * destruct (lowerAZ_facts (hd 0 w0)) as (L1 & L2 & _).
        apply (wordUnit_head lowerAZ w0); assumption.
      * apply Forall_concat_intro, Forall_map.
        eapply Forall_impl; [|exact Hws']; intros w (Hne & Hu & _).
        destruct (upperAZ_facts (hd 0 w)) as (U1 & U2 & _).
        apply (wordUnit_head upperAZ w); assumption.
    + simpl; apply lowerAZ_facts.
Qed.

(** X3: on an ASCII key, the conversion keeps the units that are no
    separators, in their order, and changes nothing but the case of letters;
    the converted key has no separator and does not begin with an upper-case
    letter. *)
Theorem toCamelCase_keeps_the_units
  (toLowerCase toUpperCase : jsstring -> jsstring) (k : jsstring) :
  asciiCaseMapping toLowerCase toUpperCase ->
  asciiKey k = true ->
  map lowerAZ (toCamelCase toLowerCase toUpperCase k)
  = map lowerAZ (filter notSeparator k) /\
  Forall wordUnit (toCamelCase toLowerCase toUpperCase k) /\
  isUpperAZ (hd 0 (toCamelCase toLowerCase toUpperCase k)) = false.
Proof.
  intros [Hlow Hup] Ha.
  apply ascii_conversion_keeps_units; [exact Hlow | exact Hup |].
  unfold asciiKey in Ha; rewrite forallb_forall in Ha.
  apply Forall_forall; intros c Hc; apply N.ltb_lt, Ha, Hc.
Qed.

Lemma toCamelCase_keeps_the_units_witness :
  asciiKey (js "tx_bytes-2") = true /\
  map lowerAZ (toCamelCase latin1ToLowerCase latin1ToUpperCase (js "tx_bytes-2"))
  = js "txbytes2" /\
  toCamelCase latin1ToLowerCase latin1ToUpperCase (js "tx_bytes-2") = js "txBytes2".
Proof.
  split; [reflexivity|].
  split; [|reflexivity].
  rewrite (proj1 (toCamelCase_keeps_the_units latin1ToLowerCase latin1ToUpperCase
                    (js "tx_bytes-2") latin1_ascii eq_refl)).
  reflexivity.
Defined.

(** X4: an ASCII key whose first unit after the leading separators is a
    letter is converted to a key that begins with a lower-case letter (or
    is empty, when the key has separators only) and that a second
    conversion leaves unchanged. *)
Theorem toCamelCase_idempotent_on_letter_key
  (toLowerCase toUpperCase : jsstring -> jsstring) (k : jsstring) :
  asciiCaseMapping toLowerCase toUpperCase ->
  asciiKey k = true -> letterInitial k = true ->
  let converted := toCamelCase toLowerCase toUpperCase k in
  toCamelCase toLowerCase toUpperCase converted = converted /\
  (converted = [] \/ isLowerAZ (hd 0 converted) = true) /\
  (converted = [] <-> Forall (fun c => isSeparator [c] = true) k).
Proof.
  intros [Hlow Hup] Ha Hli converted.
  assert (Hk : Forall (fun c => c < 128) k).
  { unfold asciiKey in Ha; rewrite forallb_forall in Ha.
    apply Forall_forall; intros c Hc; apply N.ltb_lt, Ha, Hc. }
  split; [apply (toCamelCase_letter_key toLowerCase toUpperCase Hlow Hup k Hk Hli)|].
  destruct (ascii_conversion_keeps_units toLowerCase toUpperCase k Hlow Hup Hk)
    as [Hsame _].
  fold converted in Hsame.
  split.
  - subst converted; unfold toCamelCase.
    set (d := if LOWER_CASE_CHARACTER_RE_test k then k else toLowerCase k).
    assert (Hd : Forall (fun c => c < 128) d /\ letterInitial d = true).
    { subst d; destruct (LOWER_CASE_CHARACTER_RE_test k); [auto|].
      rewrite Hlow by exact Hk.
      split; [|rewrite letterInitial_lower; exact Hli].
      apply Forall_map; eapply Forall_impl; [|exact Hk].
      intros c; apply lowerAZ_facts. }
    destruct (toCamelCase_shape toLowerCase toUpperCase Hlow Hup d (proj1 Hd) (proj2 Hd))
      as [He | (_ & H2 & _)]; [left; exact He | right; exact H2].
  - assert (Hlen : converted = [] <-> filter notSeparator k = []).
    { split; intros E.
      - rewrite E in Hsame; simpl in Hsame.
        destruct (filter notSeparator k); [reflexivity | discriminate].
      - rewrite E in Hsame; simpl in Hsame.
        destruct converted; [reflexivity | discriminate]. }
    rewrite Hlen; split.
    + intros E; apply Forall_forall; intros c Hc.
      destruct (isSeparator [c]) eqn:Es; [reflexivity|].
      assert (Hin : In c (filter notSeparator k))
        by (apply filter_In; split; [exact Hc | unfold notSeparator; rewrite Es; reflexivity]).
      rewrite E in Hin; contradiction.
    + intros Hall; rewrite Forall_forall in Hall.
      destruct (filter notSeparator k) as [|c r] eqn:E; [reflexivity|].
      assert (Hin : In c (filter notSeparator k)) by (rewrite E; left; reflexivity).
      apply filter_In in Hin as [Hin Hn].
      unfold notSeparator in Hn; rewrite (Hall c Hin) in Hn; discriminate.
Qed.

Lemma toCamelCase_idempotent_on_letter_key_witness :
  let cc := toCamelCase latin1ToLowerCase latin1ToUpperCase in
  cc (js "Tx_Bytes") = js "txBytes" /\ cc (cc (js "Tx_Bytes")) = js "txBytes".
Proof.
  split; [reflexivity|].
  rewrite (proj1 (toCamelCase_idempotent_on_letter_key
                    latin1ToLowerCase latin1ToUpperCase (js "Tx_Bytes")
                    latin1_ascii eq_refl eq_refl)).
  reflexivity.
Defined.

(** *** The members of a converted object *)

Section Members.

Context {V : Type}.

Lemma getProp_replaceProp (o : @object V) k v k' :
  hasOwn o k = true ->
  getProp (replaceProp o k v) k' = if streq k k' then Some v else getProp o k'.
Proof.
  induction o as [|[k0 v0] o IH]; simpl; [discriminate|].
  destruct (streq k0 k) eqn:E; simpl.
  - intros _; apply streq_spec in E; subst k0.
    destruct (streq k k'); reflexivity.
  - intros H; rewrite (IH H).
    destruct (streq k0 k') eqn:E'; [|reflexivity].
    apply streq_spec in E'; subst k'.
    replace (streq k k0) with false; [reflexivity|].
    symmetry; apply streq_false; apply streq_false in E; congruence.
Qed.

Lemma getProp_fresh (o : @object V) k v0 k' :
  hasOwn o k = false ->
  (if streq k k' then Some v0 else getProp o k')
  = match getProp o k' with Some w => Some w
    | None => if streq k k' then Some v0 else None end.
Proof.
  intros H; destruct (streq k k') eqn:E.
  - apply streq_spec in E; subst k'.
    induction o as [|[k0 w0] o IH]; simpl in *; [reflexivity|].
    apply orb_false_iff in H as [H1 H2]; rewrite H1; apply IH, H2.
  - destruct (getProp o k'); reflexivity.
Qed.

Lemma getProp_insertIndex (o : @object V) n k v k' :
  hasOwn o k = false ->
  getProp (insertIndex o n k v) k' = if streq k k' then Some v else getProp o k'.
Proof.
  induction o as [|[k0 v0] o IH]; simpl; [reflexivity|].
  intros H; apply orb_false_iff in H as [H1 H2].
  destruct (arrayIndex k0) as [m|]; [destruct (m <? n)|]; simpl;
    try reflexivity.
  rewrite (IH H2).
  destruct (streq k0 k') eqn:E'; [|reflexivity].
  apply streq_spec in E'; subst k'.
  replace (streq k k0) with false; [reflexivity|].
  symmetry; apply streq_false; apply streq_false in H1; congruence.
Qed.

Lemma getProp_append (o : @object V) k v k' :
  hasOwn o k = false ->
  getProp (o ++ [(k, v)]) k' = if streq k k' then Some v else getProp o k'.
Proof.
  induction o as [|[k0 v0] o IH]; simpl; [reflexivity|].
  intros H; apply orb_false_iff in H as [H1 H2].
  rewrite (IH H2).
  destruct (streq k0 k') eqn:E'; [|reflexivity].
  apply streq_spec in E'; subst k'.
  replace (streq k k0) with false; [reflexivity|].
  symmetry; apply streq_false; apply streq_false in H1; congruence.
Qed.

(** Reading after an assignment. *)
Lemma getProp_setProp (o : @object V) k v k' :
  getProp (setProp o k v) k' = if streq k k' then Some v else getProp o k'.
Proof.
  unfold setProp; destruct (hasOwn o k) eqn:H.
  - apply getProp_replaceProp, H.
  - destruct (arrayIndex k);
      [apply getProp_insertIndex, H | apply getProp_append, H].
Qed.

Lemma getProp_rebuild {W : Type} (f : jsstring -> jsstring) (g : W -> V)
  entries acc k' :
  getProp (rebuild f g entries acc) k'
  = match lastWrite f entries k' with
    | Some w => Some (g w)
    | None => getProp acc k'
    end.
Proof.
  revert acc; induction entries as [|[k v] entries IH]; intros acc;
    [reflexivity|].
  simpl; change (fold_left _ entries ?a) with (rebuild f g entries a).
  rewrite IH, getProp_setProp.
  destruct (lastWrite f entries k'); [reflexivity|].
  destruct (streq (f k) k'); reflexivity.
Qed.

End Members.

Lemma toCamelCaseKeys_rebuild toLowerCase toUpperCase entries :
  toCamelCaseKeys toLowerCase toUpperCase (JObject entries)
  = JObject (rebuild (toCamelCase toLowerCase toUpperCase)
               (toCamelCaseKeys toLowerCase toUpperCase) entries []).
Proof. reflexivity. Qed.

(** X5: when several keys of an object convert to the same key, the value
    of the last of them is the one kept: a member of the converted object is
    the converted value of the last entry whose converted key is the
    member's name, and there is no member under a name no key converts
    to. *)
Theorem toCamelCaseKeys_last_entry_wins
  (toLowerCase toUpperCase : jsstring -> jsstring)
  (entries : list (jsstring * json)) (name : jsstring) :
  member (toCamelCaseKeys toLowerCase toUpperCase (JObject entries)) name
  = option_map (toCamelCaseKeys toLowerCase toUpperCase)
      (lastWrite (toCamelCase toLowerCase toUpperCase) entries name).
Proof.
  rewrite toCamelCaseKeys_rebuild; unfold member.
  rewrite getProp_rebuild.
  destruct (lastWrite _ entries name); reflexivity.
Qed.

Lemma wellFormed_items (items : list json) :
  Forall wellFormed items ->
  fold_right (fun i P => wellFormed i /\ P) True items.
Proof. induction 1; simpl; auto. Qed.

Lemma wellFormed_entries (entries : list (jsstring * json)) :
  Forall (fun kv => wellFormed (snd kv)) entries ->
  fold_right (fun kv P => wellFormed (snd kv) /\ P) True entries.
Proof. induction 1; simpl; auto. Qed.

Lemma canonical_NoDup {V : Type} (o : @object V) :
  canonical o -> NoDup (map fst o).
Proof.
  unfold canonical; induction 1 as [|k l _ IH Hall]; constructor; [|exact IH].
  intros Hin; rewrite Forall_forall in Hall.
  destruct (Hall k Hin) as [Hne _]; congruence.
Qed.

Lemma toCamelCaseKeys_wellFormed
  (toLowerCase toUpperCase : jsstring -> jsstring) (data : json) :
  wellFormed (toCamelCaseKeys toLowerCase toUpperCase data).
Proof.
  induction data as [| | | |items IH|entries IH] using json_ind;
    try exact I.
  - simpl; apply wellFormed_items, Forall_map, IH.
  - rewrite toCamelCaseKeys_rebuild; simpl; split.
    + apply rebuild_canonical; constructor.
    + apply wellFormed_entries, Forall_forall; intros [k1 v1] Hin.
      apply rebuild_In in Hin as [[] | (k & v & Hin & _ & ->)].
      rewrite Forall_forall in IH; apply (IH (k, v) Hin).
Qed.

(** *** The order of the keys of a converted object *)

Lemma existsb_streq (k : jsstring) (l : list jsstring) :
  existsb (streq k) l = true <-> In k l.
Proof.
  rewrite existsb_exists; split.
  - intros (x & Hx & E); apply streq_spec in E; subst x; exact Hx.
  - intros H; exists k; split; [exact H | apply streq_refl].
Qed.

Lemma otherKeys_insertIndex {V : Type} (o : @object V) n k v :
  arrayIndex k = Some n ->
  filter otherKey (map fst (insertIndex o n k v)) = filter otherKey (map fst o).
Proof.
  intros Hk.
  assert (Hf : otherKey k = false)
    by (unfold otherKey, isIndexKey; rewrite Hk; reflexivity).
  induction o as [|[k0 v0] o IH]; cbn [insertIndex map fst].
  - rewrite filter_cons1, Hf; reflexivity.
  - destruct (arrayIndex k0) as [m|]; [destruct (m <? n)|]; cbn [map fst].
    + rewrite !filter_cons1, IH; reflexivity.
    + rewrite (filter_cons1 _ k), Hf; reflexivity.
    + rewrite (filter_cons1 _ k), Hf; reflexivity.
Qed.

(** An assignment adds the key after the keys that are no array indices
    when it is none itself and is new, and leaves these keys as they are
    otherwise. *)
Lemma otherKeys_setProp {V : Type} (o : @object V) k v :
  filter otherKey (map fst (setProp o k v))
  = if otherKey k && negb (existsb (streq k) (filter otherKey (map fst o)))
    then filter otherKey (map fst o) ++ [k]
    else filter otherKey (map fst o).
Proof.
  unfold setProp; destruct (hasOwn o k) eqn:H.
  - rewrite replaceProp_keys; apply hasOwn_In in H.
    destruct (otherKey k) eqn:Ho; [|reflexivity].
    replace (existsb (streq k) (filter otherKey (map fst o))) with true;
      [reflexivity|].
    symmetry; apply existsb_streq, filter_In; split; assumption.
  - apply hasOwn_notIn in H; destruct (arrayIndex k) as [n|] eqn:Ek.
    + rewrite (otherKeys_insertIndex _ _ _ _ Ek).
      unfold otherKey at 2, isIndexKey; rewrite Ek; reflexivity.
    + assert (Ho : otherKey k = true)
        by (unfold otherKey, isIndexKey; rewrite Ek; reflexivity).
      rewrite map_app, filter_app; cbn [map fst].
      rewrite (filter_cons1 _ k), Ho; cbn [filter andb].
      replace (existsb (streq k) (filter otherKey (map fst o))) with false;
        [reflexivity|].
      symmetry; apply not_true_is_false; intros E.
      apply existsb_streq, filter_In in E as [E _]; contradiction.
Qed.

Lemma otherKeys_rebuild {W V : Type} (f : jsstring -> jsstring) (g : W -> V)
  (entries : list (jsstring * W)) (acc : @object V) :
  filter otherKey (map fst (rebuild f g entries acc))
  = fold_left (fun seen k => if existsb (streq k) seen then seen else seen ++ [k])
      (filter otherKey (map f (map fst entries)))
      (filter otherKey (map fst acc)).
Proof.
  revert acc; induction entries as [|[k v] entries IH]; intros acc;
    [reflexivity|].
  change (rebuild f g ((k, v) :: entries) acc)
    with (rebuild f g entries (setProp acc (f k) (g v))).
  rewrite IH, otherKeys_setProp; cbn [map fst]; rewrite filter_cons1.
  destruct (otherKey (f k)); cbn [andb fold_left]; [|reflexivity].
  destruct (existsb (streq (f k)) (filter otherKey (map fst acc)));
    reflexivity.
Qed.

Lemma getProp_In {V : Type} (o : @object V) (k : jsstring) (v : V) :
  getProp o k = Some v -> In k (map fst o).
Proof.
  induction o as [|[k0 v0] o IH]; simpl; [discriminate|].
  destruct (streq k0 k) eqn:E; [|intros H; right; exact (IH H)].
  intros _; left; apply streq_spec, E.
Qed.

Lemma lastWrite_written {W : Type} (f : jsstring -> jsstring)
  (entries : list (jsstring * W)) (k : jsstring) :
  In k (map f (map fst entries)) -> lastWrite f entries k <> None.
Proof.
  induction entries as [|[k0 v0] entries IH]; simpl; [tauto|].
  intros [H | H].
  - destruct (lastWrite f entries k); [discriminate|].
    rewrite H, streq_refl; discriminate.
  - specialize (IH H); destruct (lastWrite f entries k); [discriminate|].
    congruence.
Qed.

(** X6: the keys of what [toCamelCaseKeys] returns.  Whatever the input,
    every object of the returned value, at every depth, has pairwise
    distinct keys, with the array indices first, in ascending order.  The
    conversion of an object has exactly the conversions of the keys of the
    input as its keys, and those that are no array indices stand in the
    order in which they first occur among the converted keys of the input:
    a key that occurs again keeps its place. *)
Theorem toCamelCaseKeys_objects_have_distinct_keys
  (toLowerCase toUpperCase : jsstring -> jsstring) (data : json) :
  wellFormed (toCamelCaseKeys toLowerCase toUpperCase data) /\
  (forall entries, data = JObject entries ->
   exists result,
     toCamelCaseKeys toLowerCase toUpperCase data = JObject result /\
     NoDup (map fst result) /\
     (forall k, In k (map fst result) <->
                In k (map (toCamelCase toLowerCase toUpperCase)
                        (map fst entries))) /\
     filter otherKey (map fst result)
     = firstOccurrences
         (filter otherKey (map (toCamelCase toLowerCase toUpperCase)
                             (map fst entries)))).
Proof.
  split; [apply toCamelCaseKeys_wellFormed|].
  intros entries ->; eexists; split; [apply toCamelCaseKeys_rebuild|].
  split; [apply canonical_NoDup, rebuild_canonical; constructor|].
  split; [|apply otherKeys_rebuild].
  intros k; split.
  - intros Hk; apply in_map_iff in Hk as ([k1 v1] & <- & Hin).
    apply rebuild_In in Hin as [[] | (k0 & v0 & Hin & -> & _)].
    simpl; apply in_map; exact (in_map fst _ _ Hin).
  - intros Hk; apply (@lastWrite_written json) in Hk.
    pose proof (getProp_rebuild (toCamelCase toLowerCase toUpperCase)
                  (toCamelCaseKeys toLowerCase toUpperCase) entries [] k) as Hg.
    destruct (lastWrite (toCamelCase toLowerCase toUpperCase) entries k)
      as [w|]; [|congruence].
    exact (getProp_In _ _ _ Hg).
Qed.

End UtilExtras.

(* ------------------------------------------------------------------ *)
(** ** The client, further *)

Module ClientExtras.

Import Net UtilFacts ClientFacts UtilExtras.

(** *** Environment detection, both ways *)

Lemma truthy_spec (v : option jsstring) :
  truthy v = true <-> exists c s, v = Some (c :: s).
Proof.
  destruct v as [[|c s]|]; simpl; split; try discriminate;
    try (intros (c0 & s0 & H); discriminate).
  - intros _; exists c, s; reflexivity.
  - reflexivity.
Qed.

Lemma isRunningInContainer_indicator (h : Host) :
  isRunningInContainer h = true -> containerIndicator h.
Proof.
  unfold isRunningInContainer, containerIndicator.
  destruct (existsSync h (js "/.dockerenv")); [left; reflexivity|].
  destruct (truthy (env h (js "KUBERNETES_SERVICE_HOST"))) eqn:Et.
  - intros _; right; left; apply truthy_spec, Et.
  - destruct (streq (platform h) (js "linux")) eqn:Ep; [|discriminate].
    destruct (readFileSync h (js "/proc/1/cgroup")) as [content|] eqn:Er;
      [|discriminate].
    intros H; right; right; split; [apply streq_spec, Ep|].
    exists content; split; [reflexivity|].
    destruct (includes content (js "docker")); [left; reflexivity|].
    destruct (includes content (js "kubepods")); [right; left; reflexivity|].
    destruct (includes content (js "lxc")); [right; right; reflexivity|].
    discriminate.
Qed.

(** X7: the detected environment is container exactly when one of the
    three indicators holds, and otherwise follows the platform: windows on
    win32, macos on darwin, unix on every other platform. *)
Theorem environment_follows_indicators_then_platform (h : Host) :
  (interrogateEnvironment h = container <-> containerIndicator h) /\
  (interrogateEnvironment h = windows
   <-> ~ containerIndicator h /\ platform h = js "win32") /\
  (interrogateEnvironment h = macos
   <-> ~ containerIndicator h /\ platform h = js "darwin") /\
  (interrogateEnvironment h = unix
   <-> ~ containerIndicator h /\ platform h <> js "win32"
       /\ platform h <> js "darwin").
Proof.
  assert (Hc : isRunningInContainer h = true <-> containerIndicator h)
    by (split; [apply isRunningInContainer_indicator
               | apply indicator_isRunningInContainer]).
  unfold interrogateEnvironment.
  destruct (isRunningInContainer h) eqn:E.
  - assert (Hi : containerIndicator h) by (apply Hc; reflexivity).
    repeat split; try discriminate; try (intros _; exact Hi);
      intros [Hn _]; contradiction.
  - assert (Hn : ~ containerIndicator h)
      by (intros Hi; apply Hc in Hi; discriminate).
    destruct (streq (platform h) (js "win32")) eqn:Ew.
    + apply streq_spec in Ew.
      repeat split; try discriminate; try assumption; try contradiction.
      * intros [_ H]; rewrite Ew in H; discriminate.
      * intros (_ & H & _); contradiction.
    + apply streq_false in Ew.
      destruct (streq (platform h) (js "darwin")) eqn:Ed.
      * apply streq_spec in Ed.
        repeat split; try discriminate; try assumption; try contradiction.
        -- intros [_ H]; contradiction.
        -- intros (_ & _ & H); contradiction.
      * apply streq_false in Ed.
        repeat split; try discriminate; try assumption; try contradiction.
        -- intros [_ H]; contradiction.
        -- intros [_ H]; contradiction.
Qed.


(** *** Credential discovery *)

Lemma trimStart_hd (s : jsstring) (c : N) (r : jsstring) :
  trimStart s = c :: r -> isStrWhiteSpace c = false.
Proof.
  induction s as [|x s IH]; simpl; [discriminate|].
  destruct (isStrWhiteSpace x) eqn:E; [exact IH|].
  intros H; injection H as <- _; exact E.
Qed.

Lemma trimStart_suffix (s : jsstring) : exists pre, s = pre ++ trimStart s.
Proof.
  induction s as [|x s [pre IH]]; simpl; [exists []; reflexivity|].
  destruct (isStrWhiteSpace x); [|exists []; reflexivity].
  exists (x :: pre); simpl; congruence.
Qed.

Lemma last_rev_hd (s : jsstring) (d : N) : last (rev s) d = hd d s.
Proof.
  destruct s as [|x s]; [reflexivity|]; simpl; apply last_last.
Qed.

(** The trimmed text has no white space at either end. *)
Lemma trim_ends (s : jsstring) :
  trim s <> [] ->
  isStrWhiteSpace (hd 0 (trim s)) = false /\
  isStrWhiteSpace (last (trim s) 0) = false.
Proof.
  unfold trim; set (t := trimStart s); set (u := trimStart (rev t)).
  intros Hne.
  assert (Hu : u <> []) by (intros E; apply Hne; rewrite E; reflexivity).
  split.
  - rewrite <- last_rev_hd, rev_involutive.
    destruct (trimStart_suffix (rev t)) as [pre Hpre]; fold u in Hpre.
    assert (Hl : last u 0 = last (rev t) 0).
    { rewrite Hpre; clear Hpre.
      induction pre as [|x pre IH]; [reflexivity|].
      simpl; destruct (pre ++ u) eqn:E; [|exact IH].
      apply app_eq_nil in E as [_ E]; contradiction. }
    rewrite Hl, last_rev_hd.
    destruct t as [|c r] eqn:Et; [exfalso; apply Hu; reflexivity|].
    exact (trimStart_hd s c r Et).
  - rewrite last_rev_hd.
    destruct u as [|c r] eqn:Eu; [contradiction|].
    exact (trimStart_hd (rev t) c r Eu).
Qed.


Lemma discovery_failure_message_aux (msg : jsstring) (e : Error) :
  Throw (A := TailscaleLocalApi * (Z * jsstring))
    (mkError (js "Failed to read credentials: " ++ msg)) = Throw e ->
  startsWith (message e) (js "Failed to read credentials: ") = true /\
  cause e = None.
Proof.
  intros H; injection H as <-; split; [|reflexivity].
  unfold mkError; simpl message; simpl; destruct msg; reflexivity.
Qed.

Lemma discovery_failure_message (h : Host) (this : TailscaleLocalApi) (e : Error) :
  getCredentialsFromSameuserProof h this = Throw e ->
  startsWith (message e) (js "Failed to read credentials: ") = true /\
  cause e = None.
Proof.
  unfold getCredentialsFromSameuserProof.
  match goal with |- match ?x with _ => _ end = _ -> _ => destruct x end;
    [discriminate|].
  apply discovery_failure_message_aux.
Qed.

(** X8: when the target of the link /Library/Tailscale/ipnport denotes a
    safe integer (below 2^53 in absolute value, as every port is),
    credential discovery succeeds exactly when the link can be read, its
    target begins with an integer, the file
    /Library/Tailscale/sameuserproof-<target> can be read and holds more
    than white space; the port is then that integer and the password the
    trimmed content of the file, which is not empty and has no white space
    at either end.  Every failure is thrown as an error whose message
    begins with "Failed to read credentials: ". *)
Theorem discovery_reads_port_and_token (h : Host) (this : TailscaleLocalApi) :
  safeLinkTarget h = true ->
  (forall port auth,
     getCredentialsFromSameuserProof h this
     = Ok (set_credentials this port auth, (port, auth))
     <-> exists portStr bytes,
           readlinkSync h (js "/Library/Tailscale/ipnport") = Ok portStr /\
           parseInt10 portStr = Some port /\
           readFileSync h (js "/Library/Tailscale/sameuserproof-" ++ portStr)
           = Ok bytes /\
           trim bytes = auth /\ auth <> []) /\
  (forall r,
     getCredentialsFromSameuserProof h this = Ok r ->
     exists port auth,
       r = (set_credentials this port auth, (port, auth)) /\ auth <> [] /\
       isStrWhiteSpace (hd 0 auth) = false /\
       isStrWhiteSpace (last auth 0) = false) /\
  (forall e,
     getCredentialsFromSameuserProof h this = Throw e ->
     startsWith (message e) (js "Failed to read credentials: ") = true /\
     cause e = None).
Proof.
  intros _.
  unfold getCredentialsFromSameuserProof, rbind.
  change (js "/Library/Tailscale" ++ js "/" ++ js "ipnport")
    with (js "/Library/Tailscale/ipnport").
  destruct (readlinkSync h (js "/Library/Tailscale/ipnport")) as [portStr|e0].
  2:{ split; [|split].
      - intros port auth; split; [discriminate|].
        intros (p & b & H & _); discriminate.
      - intros r H; discriminate.
      - intros e H; apply (discovery_failure_message_aux _ _ H). }
  change (js "/Library/Tailscale" ++ js "/sameuserproof-" ++ portStr)
    with (js "/Library/Tailscale/sameuserproof-" ++ portStr).
  destruct (parseInt10 portStr) as [p|] eqn:Ep.
  2:{ split; [|split].
      - intros port auth; split; [discriminate|].
        intros (p & b & H & Hp & _); injection H as <-; congruence.
      - intros r H; discriminate.
      - intros e H; apply (discovery_failure_message_aux _ _ H). }
  destruct (readFileSync h (js "/Library/Tailscale/sameuserproof-" ++ portStr))
    as [bytes|e0] eqn:Er.
  2:{ split; [|split].
      - intros port auth; split; [discriminate|].
        intros (p' & b & H & _ & Hb & _); injection H as <-; congruence.
      - intros r H; discriminate.
      - intros e H; apply (discovery_failure_message_aux _ _ H). }
  pose proof (trim_ends bytes) as Hends.
  destruct (trim bytes) as [|c a] eqn:Et.
  - split; [|split].
    + intros port auth; split; [discriminate|].
      intros (p' & b & H & _ & Hb & Ht & Hne); injection H as <-.
      rewrite Er in Hb; injection Hb as <-; congruence.
    + intros r H; discriminate.
    + intros e H; apply (discovery_failure_message_aux _ _ H).
  - split; [|split].
    + intros port auth; split.
      * intros H; injection H as _ <- <-.
        exists portStr, bytes; repeat split; try assumption; discriminate.
      * intros (p' & b & H & Hp & Hb & Ht & Hne); injection H as <-.
        rewrite Er in Hb; injection Hb as <-.
        rewrite Ep in Hp; injection Hp as <-.
        rewrite Et in Ht; subst auth; reflexivity.
    + intros r H; injection H as <-.
      exists p, (c :: a); split; [reflexivity|].
      split; [discriminate | apply Hends; discriminate].
    + intros e H; discriminate.
Qed.

Lemma discovery_reads_port_and_token_witness :
  safeLinkTarget macHost = true /\
  getCredentialsFromSameuserProof macHost
    (initialize macHost None tailscaleRanges)
  = Ok (set_credentials (initialize macHost None tailscaleRanges)
          12345 (js "deadbeef"),
        (12345%Z, js "deadbeef")).
Proof.
  split; [reflexivity|].
  apply (proj1 (discovery_reads_port_and_token macHost
                  (initialize macHost None tailscaleRanges) eq_refl)).
  exists (js "12345"), (js "  deadbeef" ++ [10]).
  split; [reflexivity|]; split; [reflexivity|]; split; [reflexivity|].
  split; [reflexivity | discriminate].
Defined.

(** *** The constructor *)

(** The port that discovery returns is the integer of the link target. *)
Lemma discovery_port_safe (h : Host) (this this' : TailscaleLocalApi)
  (port : Z) (auth : jsstring) :
  safeLinkTarget h = true ->
  getCredentialsFromSameuserProof h this = Ok (this', (port, auth)) ->
  safeInteger port = true.
Proof.
  unfold getCredentialsFromSameuserProof, safeLinkTarget, rbind.
  change (js "/Library/Tailscale" ++ js "/" ++ js "ipnport")
    with (js "/Library/Tailscale/ipnport").
  destruct (readlinkSync h (js "/Library/Tailscale/ipnport")) as [portStr|e];
    [|discriminate].
  destruct (parseInt10 portStr) as [p|]; [|discriminate].
  destruct (readFileSync h _) as [bytes|e]; [|discriminate].
  destruct (trim bytes) as [|c a]; [discriminate|].
  intros Hs H; injection H as _ <- _; exact Hs.
Qed.

Lemma assignFetch_transport (t : TailscaleLocalApi) :
  (fetch (assignFetch t) = Some TcpFetch
   <-> environment t = macos /\ useSocketOnly t = false) /\
  (fetch (assignFetch t) = Some TcpFetch ->
   baseUrl (assignFetch t) = js "http://127.0.0.1:" ++ showPort (adapterPort t)) /\
  (fetch (assignFetch t) <> Some TcpFetch ->
   fetch (assignFetch t)
   = Some (SocketFetch {| connect_socketPath := socketPath t |}) /\
   baseUrl (assignFetch t) = baseUrl t).
Proof.
  unfold assignFetch, createFetchFn.
  destruct (useSocketOnly t) eqn:Eu; simpl.
  - split; [split; [discriminate | intros [_ H]; discriminate]|].
    split; [discriminate | intros _; split; reflexivity].
  - destruct (Environment_eqb (environment t) macos) eqn:Ee; simpl.
    + apply Environment_eqb_spec in Ee.
      split; [split; [intros _; split; [exact Ee | reflexivity] | reflexivity]|].
      split; [reflexivity | intros H; contradiction H; reflexivity].
    + split.
      * split; [discriminate|].
        intros [H _]; apply Environment_eqb_spec in H; congruence.
      * split; [discriminate | intros _; split; reflexivity].
Qed.

(** X9: the constructor throws on macOS only, and only when credential
    discovery fails, with the error of the discovery (its message begins
    with "Failed to read credentials: "); in every other environment it
    returns a client, whatever the files of the host are.  This does not
    depend on the options: on macOS a failed discovery makes the
    constructor throw also when the caller asks for the socket. *)
Theorem constructor_throws_only_on_macos (h : Host)
  (options : option TailscaleLocalApiOptions) :
  (interrogateEnvironment h <> macos ->
   construct h options
   = Ok (assignFetch (initialize h options tailscaleRanges))) /\
  (forall e, construct h options = Throw e <->
             interrogateEnvironment h = macos /\
             getCredentialsFromSameuserProof h
               (initialize h options tailscaleRanges) = Throw e) /\
  (forall e, construct h options = Throw e ->
             startsWith (message e) (js "Failed to read credentials: ") = true).
Proof.
  set (this0 := initialize h options tailscaleRanges).
  assert (Hc : construct h options
               = if Environment_eqb (interrogateEnvironment h) macos
                 then match getCredentialsFromSameuserProof h this0 with
                      | Ok r => Ok (assignFetch (fst r))
                      | Throw e => Throw e
                      end
                 else Ok (assignFetch this0)).
  { unfold construct; rewrite initialCidr_eq; fold this0.
    change (environment this0) with (interrogateEnvironment h).
    destruct (Environment_eqb (interrogateEnvironment h) macos); [|reflexivity].
    unfold rbind; destruct (getCredentialsFromSameuserProof h this0); reflexivity. }
  assert (Hiff : forall e, construct h options = Throw e <->
             interrogateEnvironment h = macos /\
             getCredentialsFromSameuserProof h this0 = Throw e).
  { intros e; rewrite Hc.
    destruct (Environment_eqb (interrogateEnvironment h) macos) eqn:E.
    - apply Environment_eqb_spec in E.
      destruct (getCredentialsFromSameuserProof h this0) as [r|e0].
      + split; [discriminate | intros [_ H]; discriminate].
      + split; [intros H; injection H as <-; split; [exact E | reflexivity]
               | intros [_ H]; injection H as <-; reflexivity].
    - split; [discriminate|].
      intros [H _]; apply Environment_eqb_spec in H; congruence. }
  split; [|split; [exact Hiff|]].
  - intros Hn; rewrite Hc.
    destruct (Environment_eqb (interrogateEnvironment h) macos) eqn:E;
      [|reflexivity].
    apply Environment_eqb_spec in E; contradiction.
  - intros e He; apply Hiff in He as [_ He].
    apply (discovery_failure_message h this0 e He).
Qed.

(** X10: the transport of a constructed client, on a host whose link
    /Library/Tailscale/ipnport, if any, denotes a safe integer (below 2^53
    in absolute value, as every port is).  Requests go over TCP
    exactly when the environment is macos and the socket was not asked for;
    the base URL is then http://127.0.0.1:<port> with the discovered port.
    Otherwise they go through a dispatcher on the socket path of the client,
    with the base URL http://local-tailscaled.sock.  The socket path is the
    caller's, also when it is the empty string, or else /tmp/tailscaled.sock
    in a container and /var/run/tailscaled.socket elsewhere. *)
Theorem transport_of_constructed_client (h : Host)
  (options : option TailscaleLocalApiOptions) (this : TailscaleLocalApi) :
  construct h options = Ok this ->
  safeLinkTarget h = true ->
  (fetch this = Some TcpFetch
   <-> environment this = macos /\ useSocketOnly this = false) /\
  (fetch this = Some TcpFetch ->
   exists port, adapterPort this = Some port /\
                safeInteger port = true /\
                baseUrl this = js "http://127.0.0.1:" ++ decimalZ port) /\
  (fetch this <> Some TcpFetch ->
   fetch this = Some (SocketFetch {| connect_socketPath := socketPath this |}) /\
   baseUrl this = js "http://local-tailscaled.sock") /\
  useSocketOnly this
  = match options with
    | Some o => match opt_useSocketOnly o with Some b => b | None => false end
    | None => false
    end /\
  socketPath this
  = match match options with Some o => opt_socketPath o | None => None end with
    | Some p => p
    | None => if Environment_eqb (environment this) container
              then js "/tmp/tailscaled.sock"
              else js "/var/run/tailscaled.socket"
    end.
Proof.
  intros Hc Hs.
  destruct (construct_inv h options this Hc)
    as [(Hm & port & auth & Hg & ->) | (Hn & ->)].
  - set (t := set_credentials (initialize h options tailscaleRanges) port auth).
    destruct (assignFetch_transport t) as (T1 & T2 & T3).
    destruct (assignFetch_fields t) as (_ & _ & _ & F4 & F5 & F6 & _ & F8).
    rewrite F4, F5, F6, F8.
    split; [exact T1|].
    split; [intros H; exists port; split; [reflexivity|];
            split; [exact (discovery_port_safe _ _ _ _ _ Hs Hg) | exact (T2 H)]|].
    split; [exact T3|].
    split; reflexivity.
  - set (t := initialize h options tailscaleRanges).
    destruct (assignFetch_transport t) as (T1 & T2 & T3).
    destruct (assignFetch_fields t) as (_ & _ & _ & F4 & F5 & F6 & _ & F8).
    rewrite F4, F5, F6, F8.
    split; [exact T1|].
    split.
    + intros H; apply T1 in H as [H _]; contradiction.
    + split; [exact T3|]; split; reflexivity.
Qed.

Lemma transport_of_constructed_client_witness :
  exists this,
    construct macHost None = Ok this /\
    fetch this = Some TcpFetch /\
    baseUrl this = js "http://127.0.0.1:12345" /\
    socketPath this = js "/var/run/tailscaled.socket".
Proof.
  eexists; split; [reflexivity|].
  pose proof (transport_of_constructed_client macHost None _ eq_refl eq_refl)
    as (T1 & T2 & _ & _ & T5).
  assert (F : fetch (assignFetch (set_credentials
                (initialize macHost None tailscaleRanges) 12345 (js "deadbeef")))
              = Some TcpFetch) by (apply T1; split; reflexivity).
  split; [exact F|].
  split; [|exact T5].
  destruct (T2 F) as (port & Hp & _ & Hb).
  injection Hp as <-; exact Hb.
Defined.


(** *** The headers of TCP mode *)

Lemma spreadHeaders_rebuild (fixed extra : @object jsstring) :
  spreadHeaders fixed extra
  = rebuild (fun k => k) (fun v => v) extra
      (rebuild (fun k => k) (fun v => v) fixed []).
Proof. reflexivity. Qed.

Lemma lastWrite_In {W : Type} (l : list (jsstring * W)) (k : jsstring) (w : W) :
  lastWrite (fun k => k) l k = Some w -> In k (map fst l).
Proof.
  revert w; induction l as [|[k0 v0] l IH]; intros w; simpl; [discriminate|].
  destruct (lastWrite (fun k => k) l k) as [w'|].
  - intros _; right; apply (IH w'); reflexivity.
  - destruct (streq k0 k) eqn:E; [|discriminate].
    intros _; left; apply streq_spec, E.
Qed.

(** On an object, whose keys are distinct, the last entry under a name is
    the member of that name. *)
Lemma lastWrite_NoDup {W : Type} (l : list (jsstring * W)) (k : jsstring) :
  NoDup (map fst l) -> lastWrite (fun k => k) l k = getProp l k.
Proof.
  induction l as [|[k0 v0] l IH]; simpl; [reflexivity|].
  intros Hnd; inversion Hnd as [|? ? Hnin Hnd']; subst.
  destruct (streq k0 k) eqn:E.
  - apply streq_spec in E; subst k0.
    destruct (lastWrite (fun k => k) l k) as [w|] eqn:El; [|reflexivity].
    exfalso; apply Hnin, (lastWrite_In l k w El).
  - rewrite (IH Hnd'); destruct (getProp l k); reflexivity.
Qed.

(** X11: in TCP mode the dispatch function sends every request to the base
    URL followed by the path, without a dispatcher, with the caller's method
    and body, and with the headers Authorization (Basic, the base64 of a
    colon and the password) and Host (local-tailscaled.sock) unless the
    caller passes a header of that name, which then replaces it; every
    header of the caller is sent.  Without options the request is a GET
    with these two headers and no body. *)
Theorem tcp_mode_headers (this : TailscaleLocalApi) (path : jsstring)
  (o : FetchOptions) :
  fetch this = Some TcpFetch ->
  NoDup (map fst (headers o)) ->
  (exists i,
     this_fetch this path (Some o)
     = {| url := baseUrl this ++ path; init := Some i |} /\
     init_dispatcher i = None /\
     init_method i = method o /\
     init_body i = body o /\
     canonical (init_headers i) /\
     forall name,
       getProp (init_headers i) name
       = match getProp (headers o) name with
         | Some v => Some v
         | None =>
             if streq (js "Authorization") name
             then Some (basicAuthorization this)
             else if streq (js "Host") name
                  then Some (js "local-tailscaled.sock")
                  else None
         end) /\
  this_fetch this path None
  = {| url := baseUrl this ++ path;
       init := Some {| init_dispatcher := None;
                       init_method := js "GET";
                       init_headers :=
                         [ (js "Authorization", basicAuthorization this);
                           (js "Host", js "local-tailscaled.sock") ];
                       init_body := BodyNull |} |}.
Proof.
  intros Hf Hnd; unfold this_fetch; rewrite Hf; split; [|reflexivity].
  eexists; split; [reflexivity|].
  cbn [init_dispatcher init_method init_body init_headers].
  split; [reflexivity|]; split; [reflexivity|]; split; [reflexivity|].
  rewrite spreadHeaders_rebuild; split.
  - apply rebuild_canonical, rebuild_canonical; constructor.
  - intros name; rewrite getProp_rebuild, (lastWrite_NoDup _ _ Hnd).
    destruct (getProp (headers o) name); [reflexivity|].
    rewrite getProp_rebuild; fold (basicAuthorization this).
    cbn [lastWrite getProp].
    destruct (streq (js "Host") name) eqn:EH;
      destruct (streq (js "Authorization") name) eqn:EA; try reflexivity.
    apply streq_spec in EH, EA; rewrite <- EA in EH; discriminate.
Qed.

Lemma tcp_mode_headers_witness :
  exists this i,
    construct macHost None = Ok this /\
    init (this_fetch this (js "/localapi/v0/start")
            (Some {| method := js "POST";
                     headers := [ (js "Content-Type", js "application/json") ];
                     body := BodyNull |})) = Some i /\
    getProp (init_headers i) (js "Authorization") = Some (js "Basic OmRlYWRiZWVm") /\
    getProp (init_headers i) (js "Content-Type") = Some (js "application/json").
Proof.
  pose (this := assignFetch (set_credentials
                  (initialize macHost None tailscaleRanges) 12345 (js "deadbeef"))).
  destruct (tcp_mode_headers this
              (js "/localapi/v0/start")
              {| method := js "POST";
                 headers := [ (js "Content-Type", js "application/json") ];
                 body := BodyNull |}
              eq_refl
              (NoDup_cons _ (fun H : In _ [] => H) (NoDup_nil _)))
    as [(i & Hi & _ & _ & _ & _ & Hh) _].
  exists this, i; split; [reflexivity|].
  split; [rewrite Hi; reflexivity|].
  split; rewrite Hh; reflexivity.
Defined.

(** *** The start-up probe, whatever the daemon answers *)

Lemma connectWithRetry_shape (this : TailscaleLocalApi)
  (probe : nat -> Outcome) (d : nat) :
  forall k, (k + d = maxRetries this)%nat ->
  exists n, (k <= n <= maxRetries this)%nat /\
    (forall i, (k <= i < n)%nat -> probeFailed (probe i) = true) /\
    connectWithRetry this probe k
    = flat_map (failedRound this) (seq k (n - k))
      ++ EvFetch (this_fetch this (js "/localapi/v0/status") None)
         :: (if probeFailed (probe n) then [EvExit 1] else []) /\
    (probeFailed (probe n) = true -> n = maxRetries this).
Proof.
  induction d as [|d IH]; intros k Hk.
  - exists k; split; [lia|]; split; [intros i Hi; lia|].
    rewrite Nat.sub_diag; simpl; split; [|intros _; lia].
    destruct (probeFailed (probe k)) eqn:E.
    + apply connectWithRetry_exhausted; [exact E | lia].
    + apply connectWithRetry_ok, E.
  - destruct (probeFailed (probe k)) eqn:E.
    + destruct (IH (S k) ltac:(lia)) as (n & Hn & Hall & Heq & Hlast).
      exists n; split; [lia|]; split; [|split; [|exact Hlast]].
      * intros i Hi; destruct (Nat.eq_dec i k) as [->|Hne];
          [exact E | apply Hall; lia].
      * rewrite connectWithRetry_retry by (try exact E; lia).
        replace (k + 1)%nat with (S k) by lia; rewrite Heq.
        replace (n - k)%nat with (S (n - S k)) by lia; reflexivity.
    + exists k; split; [lia|]; split; [intros i Hi; lia|].
      rewrite Nat.sub_diag, E; simpl; split; [|discriminate].
      apply connectWithRetry_ok, E.
Qed.

Lemma no_exit_in_rounds (this : TailscaleLocalApi) (code : Z) (l : list nat) :
  ~ In (EvExit code) (flat_map (failedRound this) l).
Proof.
  induction l as [|i l IH]; simpl; [tauto|].
  intros [H | [H | H]]; [discriminate | discriminate | exact (IH H)].
Qed.

(** X12: whatever the daemon answers, the start-up probe is a number of
    failed rounds, each a request of /localapi/v0/status followed by the
    timer of that round, then one last request; there are at most
    maxRetries failed rounds; the last request is followed by the exit of
    the process, with code 1, exactly when it failed too, which happens
    only after maxRetries failed rounds.  So the process exits exactly when
    all the maxRetries + 1 probes fail, and the first probe that succeeds
    ends the schedule. *)
Theorem startup_probe_shape (this : TailscaleLocalApi)
  (probe : nat -> Outcome) :
  (exists n, (n <= maxRetries this)%nat /\
     (forall i, (i < n)%nat -> probeFailed (probe i) = true) /\
     startupProbe this probe
     = flat_map (failedRound this) (seq 0 n)
       ++ EvFetch (this_fetch this (js "/localapi/v0/status") None)
          :: (if probeFailed (probe n) then [EvExit 1] else []) /\
     (probeFailed (probe n) = true -> n = maxRetries this)) /\
  (forall code,
     In (EvExit code) (startupProbe this probe)
     <-> code = 1%Z /\
         forall i, (i <= maxRetries this)%nat -> probeFailed (probe i) = true).
Proof.
  destruct (connectWithRetry_shape this probe (maxRetries this) 0%nat eq_refl)
    as (n & Hn & Hall & Heq & Hlast).
  rewrite Nat.sub_0_r in Heq; fold (startupProbe this probe) in Heq.
  split.
  - exists n; split; [lia|]; split; [intros i Hi; apply Hall; lia|].
    split; [exact Heq | exact Hlast].
  - intros code; rewrite Heq; split.
    + intros Hin; apply in_app_or in Hin as [Hin | [Hin | Hin]].
      * exfalso; exact (no_exit_in_rounds _ _ _ Hin).
      * discriminate.
      * destruct (probeFailed (probe n)) eqn:E; [|destruct Hin].
        destruct Hin as [Hin | []]; injection Hin as <-.
        split; [reflexivity|]; intros i Hi.
        specialize (Hlast eq_refl); subst n.
        destruct (Nat.eq_dec i (maxRetries this)) as [->|Hne];
          [exact E | apply Hall; lia].
    + intros [-> Hfail]; apply in_or_app; right; right.
      rewrite (Hfail n) by lia; left; reflexivity.
Qed.

(** *** The number of requests of an endpoint *)

Section Counting.

Lemma issuesAtMost_ret {A : Type} (n : nat) (a : A) : issuesAtMost n (ret a).
Proof.
  intros network log; exists []; simpl; split; [symmetry; apply app_nil_r | lia].
Qed.

Lemma issuesAtMost_throw {A : Type} (n : nat) (e : Error) :
  issuesAtMost n (@throw A e).
Proof.
  intros network log; exists []; simpl; split; [symmetry; apply app_nil_r | lia].
Qed.

Lemma issuesAtMost_lift {A : Type} (n : nat) (r : result A) :
  issuesAtMost n (lift r).
Proof.
  intros network log; exists []; simpl; split; [symmetry; apply app_nil_r | lia].
Qed.

Lemma issuesAtMost_platformFetch (req : Request) :
  issuesAtMost 1 (platformFetch req).
Proof.
  intros network log; exists [req]; simpl; split; [reflexivity | lia].
Qed.

Lemma issuesAtMost_dispatch (this : TailscaleLocalApi) (path : jsstring)
  (options : option FetchOptions) :
  issuesAtMost 1 (dispatch this path options).
Proof. apply issuesAtMost_platformFetch. Qed.

Lemma issuesAtMost_bind {A B : Type} (a b : nat) (m : M A) (k : A -> M B) :
  issuesAtMost a m -> (forall x, issuesAtMost b (k x)) ->
  issuesAtMost (a + b) (bind m k).
Proof.
  intros Hm Hk network log; unfold bind.
  destruct (Hm network log) as (i1 & E1 & L1).
  destruct (m network log) as [[x|e] log']; simpl in E1; subst log'.
  - destruct (Hk x network (log ++ i1)) as (i2 & E2 & L2).
    exists (i1 ++ i2); rewrite E2, app_assoc, length_app; split;
      [reflexivity | lia].
  - exists i1; simpl; split; [reflexivity | lia].
Qed.

End Counting.

Ltac at_most_one :=
  repeat first
    [ apply issuesAtMost_ret
    | apply issuesAtMost_throw
    | apply issuesAtMost_lift
    | apply issuesAtMost_dispatch
    | apply issuesAtMost_platformFetch
    | apply (issuesAtMost_bind 1 0);
        [first [apply issuesAtMost_dispatch | apply issuesAtMost_platformFetch]
        | intros]
    | apply (issuesAtMost_bind 0 1); [apply issuesAtMost_lift | intros]
    | apply (issuesAtMost_bind 0 0); [apply issuesAtMost_lift | intros]
    | match goal with
      | |- issuesAtMost _ (if ?b then _ else _) => destruct b
      | |- issuesAtMost _ (match ?x with _ => _ end) => destruct x
      end ].

Lemma refused_name_no_request {A B : Type} (e : Error) (r : result A)
  (k : A -> M B) (network : Network) :
  r = Throw e ->
  bind (lift r) k network [] = (Throw e, []).
Proof. intros ->; reflexivity. Qed.

(** X13: no endpoint retries: each call of a method of the client hands at
    most one request to the platform, whatever the daemon answers.  A file
    name that cannot be encoded (encodeURIComponent throws on a lone
    surrogate) makes deleteWaitingFile, getWaitingFile and pushFile throw
    that error without any request. *)
Theorem endpoints_issue_at_most_one_request
  (toLowerCase toUpperCase : jsstring -> jsstring)
  (encodeURIComponent : jsstring -> result jsstring)
  (Number_ : jsstring -> number)
  (h : Host) (this : TailscaleLocalApi) :
  ((forall ip, issuesAtMost 1 (whoIs toLowerCase toUpperCase this ip)) /\
   issuesAtMost 1 (prefs toLowerCase toUpperCase this) /\
   issuesAtMost 1 (goroutines this) /\
   issuesAtMost 1 (daemonMetrics this) /\
   issuesAtMost 1 (userMetrics this) /\
   (forall name delta, issuesAtMost 1 (incrementCounter this name delta)) /\
   issuesAtMost 1 (status_ toLowerCase toUpperCase this) /\
   issuesAtMost 1 (statusWithoutPeers toLowerCase toUpperCase this) /\
   issuesAtMost 1 (waitingFiles toLowerCase toUpperCase this) /\
   (forall seconds,
      issuesAtMost 1 (awaitWaitingFiles toLowerCase toUpperCase this seconds)) /\
   (forall baseName,
      issuesAtMost 1 (deleteWaitingFile encodeURIComponent this baseName)) /\
   (forall baseName,
      issuesAtMost 1 (getWaitingFile encodeURIComponent Number_ this baseName)) /\
   issuesAtMost 1 (fileTargets toLowerCase toUpperCase this) /\
   (forall arg path,
      issuesAtMost 1 (pushFile encodeURIComponent h this arg path)) /\
   (forall options, issuesAtMost 1 (start this options)) /\
   issuesAtMost 1 (logout this) /\
   issuesAtMost 1 (startLoginInteractive this)) /\
  (forall name e network,
     encodeURIComponent name = Throw e ->
     deleteWaitingFile encodeURIComponent this name network [] = (Throw e, []) /\
     getWaitingFile encodeURIComponent Number_ this name network []
     = (Throw e, []) /\
     forall target size data,
       pushFile encodeURIComponent h this
         (PushOptions {| pf_targetNodeId := target; pf_size := size;
                         pf_name := name; pf_data := data |}) None network []
       = (Throw e, [])).
Proof.
  split.
  - repeat split; intros;
      unfold whoIs, prefs, goroutines, daemonMetrics, userMetrics,
        incrementCounter, status_, statusWithoutPeers, getStatus, waitingFiles,
        awaitWaitingFiles, deleteWaitingFile, getWaitingFile, fileTargets,
        pushFile, pushFile_options, start, logout, startLoginInteractive;
      at_most_one.
  - intros name e network He; split; [|split; [|intros target size data]].
    + apply refused_name_no_request, He.
    + apply refused_name_no_request, He.
    + apply refused_name_no_request, He.
Qed.


(** *** The status codes an endpoint accepts *)

Lemma ok_range (resp : Response) :
  ok resp = true <-> 200 <= status resp <= 299.
Proof.
  unfold ok, inRange; rewrite andb_true_iff, !N.leb_le; tauto.
Qed.

Ltac conj_split :=
  match goal with
  | |- _ <-> _ => idtac
  | |- _ /\ _ => split; conj_split
  | _ => idtac
  end.

Ltac run_endpoint Hnet :=
  unfold succeeds, resultOf, whoIs, prefs, goroutines, daemonMetrics,
    userMetrics, incrementCounter, status_, statusWithoutPeers, getStatus,
    waitingFiles, awaitWaitingFiles, deleteWaitingFile, getWaitingFile,
    fileTargets, pushFile, pushFile_options, start, logout,
    startLoginInteractive, bind, dispatch, platformFetch, lift, throw, ret;
  repeat rewrite Hnet; cbn [fst].

(** X14: the status codes an endpoint accepts, against a daemon that
    answers every request with the same response.  The endpoints that read
    text (goroutines, daemonMetrics, userMetrics) and incrementCounter
    resolve on every status from 200 to 299; the endpoints that read JSON
    need in addition a body that parses; start, logout,
    startLoginInteractive and deleteWaitingFile resolve on 204 only, so a
    200 makes them throw; pushFile resolves on 200 only; getWaitingFile
    resolves on 200 only, and only if the response is not chunked. *)
Theorem accepted_status_codes
  (toLowerCase toUpperCase : jsstring -> jsstring)
  (encodeURIComponent : jsstring -> result jsstring)
  (Number_ : jsstring -> number)
  (h : Host) (this : TailscaleLocalApi) (network : Network) (resp : Response) :
  (forall req, network req = Resolved resp) ->
  let parses := exists body_, json_ resp = Ok body_ in
  (ok resp = true <-> 200 <= status resp <= 299) /\
  ((succeeds (goroutines this) network <-> ok resp = true) /\
   (succeeds (daemonMetrics this) network <-> ok resp = true) /\
   (succeeds (userMetrics this) network <-> ok resp = true) /\
   (forall name delta, isNegative delta = false ->
      (succeeds (incrementCounter this name delta) network <-> ok resp = true))) /\
  ((forall ip, succeeds (whoIs toLowerCase toUpperCase this ip) network
               <-> ok resp = true /\ parses) /\
   (succeeds (prefs toLowerCase toUpperCase this) network
    <-> ok resp = true /\ parses) /\
   (succeeds (status_ toLowerCase toUpperCase this) network
    <-> ok resp = true /\ parses) /\
   (succeeds (statusWithoutPeers toLowerCase toUpperCase this) network
    <-> ok resp = true /\ parses) /\
   (forall seconds,
      succeeds (awaitWaitingFiles toLowerCase toUpperCase this seconds) network
      <-> ok resp = true /\ parses) /\
   (succeeds (fileTargets toLowerCase toUpperCase this) network
    <-> ok resp = true /\ parses)) /\
  ((forall options, succeeds (start this options) network <-> status resp = 204) /\
   (succeeds (logout this) network <-> status resp = 204) /\
   (succeeds (startLoginInteractive this) network <-> status resp = 204) /\
   (forall name encoded, encodeURIComponent name = Ok encoded ->
      (succeeds (deleteWaitingFile encodeURIComponent this name) network
       <-> status resp = 204))) /\
  (forall name encoded, encodeURIComponent name = Ok encoded ->
     (forall target size data,
        succeeds (pushFile encodeURIComponent h this
                    (PushOptions {| pf_targetNodeId := target; pf_size := size;
                                    pf_name := name; pf_data := data |}) None)
                 network
        <-> status resp = 200) /\
     (succeeds (getWaitingFile encodeURIComponent Number_ this name) network
      <-> status resp = 200 /\ isChunked resp = false)).
Proof.
  intros Hnet parses.
  split; [apply ok_range|].
  split; [|split; [|split]].
  - conj_split; intros; run_endpoint Hnet;
      try match goal with H : isNegative _ = false |- _ => rewrite H end;
      run_endpoint Hnet;
      destruct (ok resp); simpl; split;
      try (intros [a Ha]; discriminate); try discriminate; eauto.
  - conj_split; intros; run_endpoint Hnet; subst parses;
      destruct (ok resp); simpl;
      try (destruct (json_ resp) as [b|e]; simpl); split;
      try (intros [a Ha]; discriminate); try discriminate;
      try (intros [_ [b' Hb]]; discriminate); try (intros [Hb _]; discriminate);
      eauto.
  - conj_split; intros; run_endpoint Hnet;
      try match goal with H : encodeURIComponent _ = Ok _ |- _ => rewrite H end;
      run_endpoint Hnet;
      destruct (N.eqb_spec (status resp) 204) as [E|E]; simpl; split;
      try (intros [a Ha]; discriminate); try contradiction; eauto.
  - intros name encoded He; split; [intros target size data|].
    + run_endpoint Hnet; cbn [pf_name]; rewrite He; run_endpoint Hnet.
      destruct (N.eqb_spec (status resp) 200) as [E|E]; simpl; split;
        try (intros [a Ha]; discriminate); try contradiction; eauto.
    + run_endpoint Hnet; rewrite He; run_endpoint Hnet.
      fold (isChunked resp).
      destruct (N.eqb_spec (status resp) 200) as [E|E]; simpl.
      * destruct (isChunked resp); simpl; split;
          try (intros [a Ha]; discriminate); try (intros [_ H]; discriminate);
          eauto.
      * split; [intros [a Ha]; discriminate | intros [H _]; contradiction].
Qed.

Lemma accepted_status_codes_witness :
  ~ succeeds (logout (assignFetch (initialize linuxHost None tailscaleRanges)))
      (alwaysStatus 200) /\
  succeeds (logout (assignFetch (initialize linuxHost None tailscaleRanges)))
    (alwaysStatus 204) /\
  succeeds (goroutines (assignFetch (initialize linuxHost None tailscaleRanges)))
    (alwaysStatus 204).
Proof.
  pose (this := assignFetch (initialize linuxHost None tailscaleRanges)).
  pose proof (accepted_status_codes latin1ToLowerCase latin1ToUpperCase
                encodeUnreserved numberOfDigits linuxHost this
                (alwaysStatus 200) (emptyResponse 200) (fun _ => eq_refl))
    as (_ & _ & _ & (_ & L200 & _) & _).
  pose proof (accepted_status_codes latin1ToLowerCase latin1ToUpperCase
                encodeUnreserved numberOfDigits linuxHost this
                (alwaysStatus 204) (emptyResponse 204) (fun _ => eq_refl))
    as (_ & (G204 & _) & _ & (_ & L204 & _) & _).
  fold this; split; [|split].
  - intros H; apply L200 in H; discriminate.
  - apply L204; reflexivity.
  - apply G204; reflexivity.
Defined.


(** *** What the JSON endpoints return *)

Lemma jsonEndpoint_returns (toLowerCase toUpperCase : jsstring -> jsstring)
  (this : TailscaleLocalApi) (network : Network) (path : jsstring)
  (failure : Response -> Error) :
  returnsConvertedBody toLowerCase toUpperCase this network
    (bind (dispatch this path None) (fun resp =>
       if negb (ok resp) then throw (failure resp)
       else bind (lift (json_ resp)) (fun body_ =>
              ret (toCamelCaseKeys toLowerCase toUpperCase body_))))
    path.
Proof.
  intros v; unfold resultOf, bind, dispatch, platformFetch, lift, throw, ret.
  destruct (network (this_fetch this path None)) as [e|resp] eqn:En;
    [discriminate|].
  destruct (ok resp) eqn:Eo; simpl; [|discriminate].
  destruct (json_ resp) as [b|e] eqn:Ej; simpl; [|discriminate].
  intros H; injection H as <-.
  exists resp, b; repeat split; try assumption.
  apply toCamelCaseKeys_wellFormed.
Qed.

(** X15: what the JSON endpoints resolve with.  Whenever whoIs, prefs,
    status, statusWithoutPeers, awaitWaitingFiles, waitingFiles or
    fileTargets resolves, the value is the body of the answer to the one
    GET request of the endpoint, with the keys converted by toCamelCaseKeys,
    the answer had a status from 200 to 299, and every object of the value
    has distinct keys.  The paths are those below; whoIs puts the address
    into the query as it is, and waitingFiles waits for 0 seconds.  The
    path of awaitWaitingFiles is stated for the durations whose floor is a
    safe integer (below 2^53 in absolute value) or that are not finite:
    the floor is then printed with all its digits. *)
Theorem json_endpoints_return_converted_body
  (toLowerCase toUpperCase : jsstring -> jsstring)
  (this : TailscaleLocalApi) (network : Network) :
  let returns := returnsConvertedBody toLowerCase toUpperCase this network in
  (forall ip, returns (whoIs toLowerCase toUpperCase this ip)
                      (js "/localapi/v0/whois?addr=" ++ ip)) /\
  returns (prefs toLowerCase toUpperCase this) (js "/localapi/v0/prefs") /\
  returns (status_ toLowerCase toUpperCase this) (js "/localapi/v0/status") /\
  returns (statusWithoutPeers toLowerCase toUpperCase this)
          (js "/localapi/v0/status?peers=false") /\
  (forall seconds,
     safeFloor seconds = true ->
     returns (awaitWaitingFiles toLowerCase toUpperCase this seconds)
             (js "/localapi/v0/files/?waitsec=" ++ showNumber (Math_floor seconds))) /\
  returns (waitingFiles toLowerCase toUpperCase this)
          (js "/localapi/v0/files/?waitsec=0") /\
  returns (fileTargets toLowerCase toUpperCase this)
          (js "/localapi/v0/file-targets").
Proof.
  intros returns; subst returns.
  split; [intros ip; apply jsonEndpoint_returns with
            (failure := fun resp => {| message := js "Couldn't get whois for " ++ ip;
                                       cause := Some (text resp) |})|].
  split; [apply jsonEndpoint_returns with
            (failure := fun resp => {| message := js "Couldn't get prefs";
                                       cause := Some (text resp) |})|].
  split; [apply jsonEndpoint_returns with
            (failure := fun resp =>
               mkError (js "Failed to get status: " ++ text resp))|].
  split; [apply jsonEndpoint_returns with
            (failure := fun resp =>
               mkError (js "Failed to get status: " ++ text resp))|].
  split; [intros seconds _; apply jsonEndpoint_returns with
            (failure := fun resp =>
               mkError (js "Failed to get waiting files: " ++ text resp))|].
  split; [apply jsonEndpoint_returns with
            (failure := fun resp =>
               mkError (js "Failed to get waiting files: " ++ text resp))|].
  apply jsonEndpoint_returns with
    (failure := fun resp => mkError (js "Failed to get file targets: " ++ text resp)).
Qed.

(** *** Sending a file by its path *)

Lemma splitBy_aux_nonempty (sep : N -> bool) (s cur : jsstring) :
  splitBy_aux sep s cur <> [].
Proof.
  revert cur; induction s as [|c s IH]; intros cur; simpl; [discriminate|].
  destruct (sep c); [discriminate | apply IH].
Qed.

Lemma last_cons_nonempty {A : Type} (x : A) (l : list A) (d : A) :
  l <> [] -> last (x :: l) d = last l d.
Proof. destruct l; [congruence | reflexivity]. Qed.

(** The last part of a split is what follows the last separator. *)
Lemma last_splitBy_aux (sep : N -> bool) (s : jsstring) :
  forall cur, Forall (fun c => sep c = false) cur ->
  exists dir base,
    rev cur ++ s = dir ++ base /\
    Forall (fun c => sep c = false) base /\
    (dir = [] \/ exists p c, dir = p ++ [c] /\ sep c = true) /\
    last (splitBy_aux sep s cur) [] = base.
Proof.
  induction s as [|c s IH]; intros cur Hcur.
  - exists [], (rev cur); simpl; rewrite app_nil_r.
    split; [reflexivity|]; split; [apply Forall_rev, Hcur|].
    split; [left; reflexivity | reflexivity].
  - simpl; destruct (sep c) eqn:E.
    + destruct (IH [] (Forall_nil _)) as (dir & base & Hs & Hb & Hd & Hl).
      simpl in Hs; exists (rev cur ++ c :: dir), base.
      split; [rewrite Hs, <- app_assoc; reflexivity|].
      split; [exact Hb|]; split.
      * right; destruct Hd as [-> | (p & c' & -> & Hc')].
        -- exists (rev cur), c; split; [reflexivity | exact E].
        -- exists (rev cur ++ c :: p), c'; split; [|exact Hc'].
           rewrite <- app_assoc; reflexivity.
      * rewrite last_cons_nonempty by apply splitBy_aux_nonempty; exact Hl.
    + destruct (IH (c :: cur) (Forall_cons _ E Hcur))
        as (dir & base & Hs & Hb & Hd & Hl).
      exists dir, base; split; [|auto].
      rewrite <- Hs; simpl; rewrite <- app_assoc; reflexivity.
Qed.

(** X16: pushFile with a target and a path.  The name under which the file
    is sent is what follows the last slash or backslash of the path, or
    "file" when nothing follows it.  When the size and the content of the
    file can be read and the name can be encoded, the one request is the
    PUT of the content to /localapi/v0/file-put/<target>/<encoded name>,
    with the header Content-Length set to the size unless the size is -1.
    Without a path the call throws a TypeError before any request. *)
Theorem pushFile_from_path
  (encodeURIComponent : jsstring -> result jsstring)
  (h : Host) (this : TailscaleLocalApi) (target filePath : jsstring)
  (size : Z) (data : list N) (encoded : jsstring) (network : Network) :
  filePath <> [] ->
  statSync_size h filePath = Ok size ->
  readFileSync_buffer h filePath = Ok data ->
  encodeURIComponent (fileNameOf filePath) = Ok encoded ->
  (exists dir base,
     filePath = dir ++ base /\
     Forall (fun c => isPathSeparator c = false) base /\
     (dir = [] \/ exists p c, dir = p ++ [c] /\ isPathSeparator c = true) /\
     fileNameOf filePath = match base with [] => js "file" | _ => base end) /\
  requestsOf (pushFile encodeURIComponent h this (PushTarget target)
                (Some filePath)) network
  = [ this_fetch this
        (js "/localapi/v0/file-put/" ++ target ++ js "/" ++ encoded)
        (Some {| method := js "PUT";
                 headers := if (size =? -1)%Z then []
                            else [ (js "Content-Length", decimalZ size) ];
                 body := BodyData data |}) ] /\
  pushFile encodeURIComponent h this (PushTarget target) None network []
  = (Throw (mkError
              (js "Cannot read properties of undefined (reading 'toString')")),
     []).
Proof.
  intros Hne Hsize Hdata Henc; split; [|split; [|reflexivity]].
  - destruct (last_splitBy_aux isPathSeparator filePath [] (Forall_nil _))
      as (dir & base & Hs & Hb & Hd & Hl).
    exists dir, base; split; [exact Hs|]; split; [exact Hb|];
      split; [exact Hd|].
    unfold fileNameOf; fold isPathSeparator; unfold splitBy; rewrite Hl.
    destruct base; reflexivity.
  - unfold requestsOf, pushFile.
    destruct filePath as [|c p]; [congruence|].
    cbn [truthy showString]; unfold bind at 1, lift at 1; rewrite Hsize.
    unfold bind at 1, lift at 1; rewrite Hdata.
    unfold pushFile_options; cbn [pf_name pf_size pf_targetNodeId pf_data].
    unfold bind at 1, lift at 1; rewrite Henc.
    unfold bind, dispatch, platformFetch.
    destruct (size =? -1)%Z; simpl;
      destruct (network _); simpl;
      try destruct (negb (status resp =? 200)); reflexivity.
Qed.

Lemma pushFile_from_path_witness :
  fileNameOf (js "/home/me/notes.txt") = js "notes.txt" /\
  requestsOf (pushFile encodeUnreserved hostWithFile
                (assignFetch (initialize hostWithFile None tailscaleRanges))
                (PushTarget (js "n1")) (Some (js "/home/me/notes.txt")))
             (alwaysStatus 200)
  = [ this_fetch (assignFetch (initialize hostWithFile None tailscaleRanges))
        (js "/localapi/v0/file-put/n1/notes.txt")
        (Some {| method := js "PUT";
                 headers := [ (js "Content-Length", js "3") ];
                 body := BodyData [104; 105; 10] |}) ].
Proof.
  split; [reflexivity|].
  exact (proj1 (proj2
    (pushFile_from_path encodeUnreserved hostWithFile
       (assignFetch (initialize hostWithFile None tailscaleRanges))
       (js "n1") (js "/home/me/notes.txt") 3 [104; 105; 10] (js "notes.txt")
       (alwaysStatus 200)
       ltac:(discriminate) eq_refl eq_refl eq_refl))).
Defined.


(** *** The address-range test on dotted quads *)

Lemma octet_cases (P : N -> bool) :
  forallb P (map N.of_nat (seq 0 256)) = true ->
  forall n, n <= 255 -> P n = true.
Proof.
  intros H n Hn; rewrite forallb_forall in H; apply H.
  rewrite <- (N2Nat.id n); apply in_map, in_seq; lia.
Qed.

Lemma decimal_octet (n : N) :
  n <= 255 ->
  parseOctet (decimal n) = Some n /\
  forallb isDigit (decimal n) = true /\
  decimal n <> [].
Proof.
  intros Hn.
  pose proof (octet_cases
    (fun n => match parseOctet (decimal n) with
              | Some m => m =? n
              | None => false
              end
              && forallb isDigit (decimal n)
              && negb (length (decimal n) =? 0)%nat)
    ltac:(vm_compute; reflexivity) n Hn) as H.
  cbv beta in H; apply andb_true_iff in H as [H H3].
  apply andb_true_iff in H as [H1 H2].
  split; [|split; [exact H2|]].
  - destruct (parseOctet (decimal n)) as [m|]; [|discriminate].
    apply N.eqb_eq in H1; congruence.
  - intros E; rewrite E in H3; discriminate.
Qed.

Lemma splitBy_aux_app (sep : N -> bool) (a s cur : jsstring) :
  Forall (fun c => sep c = false) a ->
  splitBy_aux sep (a ++ s) cur = splitBy_aux sep s (rev a ++ cur).
Proof.
  intros Ha; revert cur; induction Ha as [|c a Hc _ IH]; intros cur;
    [reflexivity|].
  simpl; rewrite Hc, IH, <- app_assoc; reflexivity.
Qed.

Lemma digits_no_dot (p : jsstring) :
  forallb isDigit p = true -> Forall (fun c => (46 =? c) = false) p.
Proof.
  rewrite forallb_forall; intros H; apply Forall_forall; intros c Hc.
  specialize (H c Hc); apply N.eqb_neq; intros <-; discriminate.
Qed.

Lemma splitOn_dotted (A B C D : jsstring) :
  forallb isDigit A = true -> forallb isDigit B = true ->
  forallb isDigit C = true -> forallb isDigit D = true ->
  splitOn 46 (A ++ [46] ++ B ++ [46] ++ C ++ [46] ++ D) = [A; B; C; D].
Proof.
  intros HA HB HC HD; unfold splitOn, splitBy.
  rewrite (splitBy_aux_app _ A) by (apply digits_no_dot, HA).
  cbn [app splitBy_aux N.eqb Pos.eqb]; rewrite app_nil_r, rev_involutive.
  rewrite (splitBy_aux_app _ B) by (apply digits_no_dot, HB).
  cbn [app splitBy_aux N.eqb Pos.eqb]; rewrite app_nil_r, rev_involutive.
  rewrite (splitBy_aux_app _ C) by (apply digits_no_dot, HC).
  cbn [app splitBy_aux N.eqb Pos.eqb]; rewrite app_nil_r, rev_involutive.
  rewrite <- (app_nil_r D) at 1.
  rewrite (splitBy_aux_app _ D) by (apply digits_no_dot, HD).
  cbn [splitBy_aux]; rewrite app_nil_r, rev_involutive; reflexivity.
Qed.

Lemma parseIPv4_dottedQuad (a b c d : N) :
  a <= 255 -> b <= 255 -> c <= 255 -> d <= 255 ->
  parseIPv4 (dottedQuad a b c d)
  = Some (N.shiftl a 24 + N.shiftl b 16 + N.shiftl c 8 + d).
Proof.
  intros Ha Hb Hc Hd.
  destruct (decimal_octet a Ha) as (Pa & Da & _).
  destruct (decimal_octet b Hb) as (Pb & Db & _).
  destruct (decimal_octet c Hc) as (Pc & Dc & _).
  destruct (decimal_octet d Hd) as (Pd & Dd & _).
  unfold parseIPv4, dottedQuad; rewrite splitOn_dotted by assumption.
  cbn [map]; rewrite Pa, Pb, Pc, Pd; reflexivity.
Qed.

Lemma isDottedQuad_dottedQuad (a b c d : N) :
  a <= 255 -> b <= 255 -> c <= 255 -> d <= 255 ->
  isDottedQuad (dottedQuad a b c d) = true.
Proof.
  intros Ha Hb Hc Hd.
  destruct (decimal_octet a Ha) as (_ & Da & Na).
  destruct (decimal_octet b Hb) as (_ & Db & Nb).
  destruct (decimal_octet c Hc) as (_ & Dc & Nc).
  destruct (decimal_octet d Hd) as (_ & Dd & Nd).
  unfold isDottedQuad, dottedQuad; rewrite splitOn_dotted by assumption.
  cbn [forallb]; rewrite Da, Db, Dc, Dd.
  destruct (decimal a); [congruence|]; destruct (decimal b); [congruence|].
  destruct (decimal c); [congruence|]; destruct (decimal d); [congruence|].
  reflexivity.
Qed.

(** The registered subnets contain an IPv4 address exactly when its ten
    high bits are those of 100.64.0.0. *)
Lemma check_tailscaleRanges (v : N) :
  v < 2 ^ 32 ->
  existsb (inNetwork {| sa_family := ipv4; sa_value := v |}) tailscaleRanges
  = (N.shiftr v 22 =? 401).
Proof.
  intros Hv; unfold tailscaleRanges; cbn [existsb inNetwork sa_family net
    sa_value prefix highBits].
  unfold highBits.
  change (32 - 10) with 22; change (128 - 48) with 80.
  change (N.shiftr 0x64400000 22) with 401.
  replace (N.shiftr (mapped v) 80) with 0.
  - change (N.shiftr (N.shiftl 0xfd7a115ca1e0 80) 80) with 0xfd7a115ca1e0.
    change (0 =? 0xfd7a115ca1e0) with false.
    rewrite ?orb_false_r; reflexivity.
  - symmetry; rewrite N.shiftr_div_pow2; apply N.div_small.
    unfold mapped; change (N.shiftl 65535 32) with 281470681743360.
    change (2 ^ 32) with 4294967296 in Hv.
    change (2 ^ 80) with 1208925819614629174706176; lia.
Qed.

Lemma high_bits_of_quad (a b c d : N) :
  a <= 255 -> b <= 255 -> c <= 255 -> d <= 255 ->
  N.shiftl a 24 + N.shiftl b 16 + N.shiftl c 8 + d < 2 ^ 32 /\
  (N.shiftr (N.shiftl a 24 + N.shiftl b 16 + N.shiftl c 8 + d) 22 =? 401)
  = inCgnatRange a b.
Proof.
  intros Ha Hb Hc Hd; rewrite !N.shiftl_mul_pow2, N.shiftr_div_pow2.
  change (2 ^ 24) with 16777216; change (2 ^ 16) with 65536;
    change (2 ^ 8) with 256; change (2 ^ 22) with 4194304;
    change (2 ^ 32) with 4294967296.
  split; [lia|].
  set (v := a * 16777216 + b * 65536 + c * 256 + d).
  assert (Hq : v / 4194304 = 4 * a + b / 64).
  { symmetry; apply (N.div_unique v 4194304 _ ((b mod 64) * 65536 + c * 256 + d)).
    - pose proof (N.mod_upper_bound b 64 ltac:(lia)); lia.
    - pose proof (N.div_mod b 64 ltac:(lia)); subst v; lia. }
  rewrite Hq; unfold inCgnatRange.
  pose proof (N.div_mod b 64 ltac:(lia)) as Hdm.
  pose proof (N.mod_upper_bound b 64 ltac:(lia)) as Hm.
  apply bool_eq_iff.
  rewrite N.eqb_eq, !andb_true_iff, N.eqb_eq, !N.leb_le.
  generalize dependent (b / 64); generalize dependent (b mod 64).
  intros r Hr q _ Hdm; lia.
Qed.

Lemma matchMapped_no_colon (ip : jsstring) :
  ~ In 58 ip -> matchMapped ip = None.
Proof.
  induction ip as [|x ip IH]; intros Hn; [reflexivity|].
  cbn [matchMapped].
  replace (mappedPrefix (x :: ip)) with false.
  - apply IH; intros H; apply Hn; right; exact H.
  - destruct (N.eq_dec x 58) as [->|Hx]; [exfalso; apply Hn; left; reflexivity|].
    unfold mappedPrefix.
    destruct x as [|p]; [reflexivity|].
    do 6 (destruct p as [p|p|]; try reflexivity); congruence.
Qed.

(** The units of a dotted quad are digits and dots. *)
Lemma isDottedQuad_units (q : jsstring) (c : N) :
  isDottedQuad q = true -> In c q -> (46 =? c) = false -> isDigit c = true.
Proof.
  unfold isDottedQuad; intros H Hin Hsep.
  destruct (splitBy_aux_In (N.eqb 46) c q [] Hsep (or_introl Hin))
    as (part & Hpart & Hc).
  fold (splitBy (N.eqb 46) q) in Hpart; fold (splitOn 46 q) in Hpart.
  destruct (splitOn 46 q) as [|p1 [|p2 [|p3 [|p4 [|p5 l]]]]]; try discriminate.
  rewrite forallb_forall in H; specialize (H part Hpart).
  apply andb_true_iff in H as [_ H]; rewrite forallb_forall in H.
  exact (H c Hc).
Qed.

Lemma isDottedQuad_chars (q : jsstring) :
  isDottedQuad q = true -> q <> [] /\ ~ In 58 q.
Proof.
  intros H; split; [intros ->; discriminate|].
  intros Hin; pose proof (isDottedQuad_units q 58 H Hin eq_refl); discriminate.
Qed.

Lemma isDottedQuad_no_nul (q : jsstring) :
  isDottedQuad q = true -> ~ In 0 q.
Proof.
  intros H Hin; pose proof (isDottedQuad_units q 0 H Hin eq_refl); discriminate.
Qed.

(** X17: on the text a.b.c.d of four numbers up to 255 in decimal, the
    range test of a constructed client answers with that text exactly when
    the address lies between 100.64.0.0 and 100.127.255.255, and with false
    otherwise. *)
Theorem isInTailscaleIpRange_dotted_quad (h : Host)
  (options : option TailscaleLocalApiOptions) (this : TailscaleLocalApi)
  (a b c d : N) :
  construct h options = Ok this ->
  a <= 255 -> b <= 255 -> c <= 255 -> d <= 255 ->
  isInTailscaleIpRange this (dottedQuad a b c d)
  = if inCgnatRange a b then IsString (dottedQuad a b c d) else IsFalse.
Proof.
  intros Hc Ha Hb Hcc Hd.
  destruct (construct_constants h options this Hc) as (Hcidr & _).
  destruct (isDottedQuad_chars _ (isDottedQuad_dottedQuad a b c d Ha Hb Hcc Hd))
    as [_ Hcolon].
  destruct (high_bits_of_quad a b c d Ha Hb Hcc Hd) as [Hlt Hbits].
  unfold isInTailscaleIpRange.
  rewrite (matchMapped_no_colon _ Hcolon), Hcidr.
  unfold check, check_family, newSocketAddress.
  rewrite (cString_id _ (isDottedQuad_no_nul _
             (isDottedQuad_dottedQuad a b c d Ha Hb Hcc Hd))).
  rewrite (parseIPv4_dottedQuad a b c d Ha Hb Hcc Hd); cbn [option_map].
  rewrite (check_tailscaleRanges _ Hlt), Hbits; reflexivity.
Qed.

Lemma isInTailscaleIpRange_dotted_quad_witness :
  exists this,
    construct linuxHost None = Ok this /\
    isInTailscaleIpRange this (js "100.127.255.255")
    = IsString (js "100.127.255.255") /\
    isInTailscaleIpRange this (js "100.128.0.0") = IsFalse.
Proof.
  eexists; split; [reflexivity|]; split.
  - exact (isInTailscaleIpRange_dotted_quad linuxHost None _ 100 127 255 255
             eq_refl ltac:(discriminate) ltac:(discriminate)
             ltac:(discriminate) ltac:(discriminate)).
  - exact (isInTailscaleIpRange_dotted_quad linuxHost None _ 100 128 0 0
             eq_refl ltac:(discriminate) ltac:(discriminate)
             ltac:(discriminate) ltac:(discriminate)).
Defined.

Lemma matchMapped_cons (x : N) (ip : jsstring) :
  matchMapped (x :: ip)
  = if mappedPrefix (x :: ip) && isDottedQuad (skipn 7 (x :: ip))
    then Some (skipn 7 (x :: ip))
    else matchMapped ip.
Proof. reflexivity. Qed.

Lemma skipn_app_long {A : Type} (n : nat) (l1 l2 : list A) :
  (n <= length l1)%nat -> skipn n (l1 ++ l2) = skipn n l1 ++ l2.
Proof.
  revert l1; induction n as [|n IH]; intros [|x l1] H; simpl in *;
    try reflexivity; try lia.
  apply IH; lia.
Qed.

(** X18: the pattern for IPv4-mapped addresses is not anchored at the
    start of the text: whatever precedes [::ffff:] (in either case of the
    letters), a text that ends with [::ffff:] and four dot-separated groups
    of digits is tested as the embedded dotted quad alone, and when the
    test succeeds the quad is returned, not the text given. *)
Theorem isInTailscaleIpRange_ignores_what_precedes_the_mapped_form
  (this : TailscaleLocalApi) (before marker quad : jsstring) :
  mappedPrefix marker = true -> length marker = 7%nat ->
  isDottedQuad quad = true ->
  matchMapped (before ++ marker ++ quad) = Some quad /\
  isInTailscaleIpRange this (before ++ marker ++ quad)
  = isInTailscaleIpRange this quad.
Proof.
  intros Hm Hlen Hq.
  destruct (isDottedQuad_chars quad Hq) as [Hne Hcolon].
  assert (Hmatch : matchMapped (before ++ marker ++ quad) = Some quad).
  { destruct marker as [|m1 [|m2 [|m3 [|m4 [|m5 [|m6 [|m7 [|m8 l]]]]]]]];
      try discriminate.
    assert (Hm7 : m7 = 58).
    { simpl in Hm.
      destruct m1 as [|p1]; [discriminate|].
      do 6 (destruct p1 as [p1|p1|]; try discriminate).
      destruct m2 as [|p2]; [discriminate|].
      do 6 (destruct p2 as [p2|p2|]; try discriminate).
      destruct m7 as [|p7]; [discriminate|].
      do 6 (destruct p7 as [p7|p7|]; try discriminate).
      reflexivity. }
    subst m7.
    set (T := [m1; m2; m3; m4; m5; m6; 58] ++ quad).
    assert (HT : matchMapped T = Some quad).
    { subst T; cbn [app]; rewrite matchMapped_cons.
      replace (mappedPrefix (m1 :: m2 :: m3 :: m4 :: m5 :: m6 :: 58 :: quad))
        with true by (symmetry; exact Hm).
      cbn [skipn]; rewrite Hq; reflexivity. }
    assert (Hin : forall l, (1 <= length l)%nat -> In 58 (skipn 7 (l ++ T))).
    { intros l Hl; subst T.
      replace (l ++ [m1; m2; m3; m4; m5; m6; 58] ++ quad)
        with ((l ++ [m1; m2; m3; m4; m5; m6]) ++ 58 :: quad)
        by (rewrite <- app_assoc; reflexivity).
      rewrite skipn_app_long by (rewrite length_app; simpl; lia).
      apply in_or_app; right; left; reflexivity. }
    clearbody T.
    induction before as [|x before IH]; [exact HT|].
    rewrite <- app_comm_cons, matchMapped_cons.
    replace (isDottedQuad (skipn 7 (x :: before ++ T))) with false;
      [rewrite andb_false_r; exact IH|].
    symmetry; apply not_true_is_false; intros Hd.
    apply isDottedQuad_chars in Hd as [_ Hd]; apply Hd.
    apply (Hin (x :: before)); simpl; lia. }
  split; [exact Hmatch|].
  unfold isInTailscaleIpRange.
  rewrite Hmatch, (matchMapped_no_colon quad Hcolon).
  destruct quad; [congruence | reflexivity].
Qed.

Lemma isInTailscaleIpRange_ignores_what_precedes_the_mapped_form_witness :
  exists this,
    construct linuxHost None = Ok this /\
    isInTailscaleIpRange this (js "8.8.8.8, ::FFFF:100.64.0.1")
    = isInTailscaleIpRange this (js "100.64.0.1").
Proof.
  eexists; split; [reflexivity|].
  exact (proj2 (isInTailscaleIpRange_ignores_what_precedes_the_mapped_form
                  _ (js "8.8.8.8, ") (js "::FFFF:") (js "100.64.0.1")
                  eq_refl eq_refl eq_refl)).
Defined.

End ClientExtras.
